(** * HashCut timeline: tracks, elements and the editing commands

    A shallow embedding of the timeline editing model of the web editor:
    the toolbar and timeline handlers of the [Timeline] component
    (click-to-seek, duration recompute, split, duplicate, separate audio,
    delete, drop, zoom, ruler, drop overlay) and the store operations they
    call, and the search, sort and upload of the media panel.

    JavaScript numbers (seconds, pixels, milliseconds) are modelled as exact
    rationals [Q]: rounding of IEEE doubles and NaN are outside the model.
    Identifiers of tracks and elements are UUID strings in the source; only
    their equality matters, so they are natural numbers here and "a fresh
    UUID" is a number not yet in use. *)

From Stdlib Require Import QArith Qround Qminmax Qabs Lqa.
From Stdlib Require Import List Bool Arith Lia String Ascii ZArith.
From Stdlib Require Import DecimalString Permutation Sorted.
Import ListNotations.
Open Scope Q_scope.

(** ** Numbers *)

(** [x < y] as a boolean, the way the handlers test it. *)
Definition Qlt_bool (x y : Q) : bool := negb (Qle_bool y x).

(** ** Data model *)

Definition TrackId := nat.
Definition ElementId := nat.

Inductive TrackType : Type := media | text | audio.

Inductive ElementType : Type := media_element | text_element.

Definition TrackType_eqb (a b : TrackType) : bool :=
  match a, b with
  | media, media | text, text | audio, audio => true
  | _, _ => false
  end.

(** A clip placed on a track. *)
Record TimelineElement : Type := mkElement {
  elem_id : ElementId;
  elem_type : ElementType;
  mediaId : string;
  name : string;
  startTime : Q;
  duration : Q;
  trimStart : Q;
  trimEnd : Q
}.

Record TimelineTrack : Type := mkTrack {
  track_id : TrackId;
  track_type : TrackType;
  elements : list TimelineElement;
  muted : bool
}.

(** One entry of the selection: [{ trackId, elementId }]. *)
Record Selected : Type := mkSelected {
  sel_trackId : TrackId;
  sel_elementId : ElementId
}.

(** The effective range, written as the handlers write it:
    [element.startTime + (element.duration - element.trimStart - element.trimEnd)]. *)
Definition effectiveDuration (e : TimelineElement) : Q :=
  duration e - trimStart e - trimEnd e.

Definition effectiveStart (e : TimelineElement) : Q := startTime e.

Definition effectiveEnd (e : TimelineElement) : Q :=
  startTime e + (duration e - trimStart e - trimEnd e).

(** [tracks.find((t) => t.id === trackId)] *)
Definition findTrack (trackId : TrackId) (tracks : list TimelineTrack)
  : option TimelineTrack :=
  find (fun t => track_id t =? trackId)%nat tracks.

(** [track.elements.find((c) => c.id === elementId)] *)
Definition findElement (elementId : ElementId) (els : list TimelineElement)
  : option TimelineElement :=
  find (fun c => elem_id c =? elementId)%nat els.

(** [track?.elements.find(...)]: the element of a selection entry. *)
Definition lookupElement (tracks : list TimelineTrack) (trackId : TrackId)
    (elementId : ElementId) : option TimelineElement :=
  match findTrack trackId tracks with
  | Some t => findElement elementId (elements t)
  | None => None
  end.

(** The trim invariant of the data model. *)
Definition trimOk (e : TimelineElement) : Prop :=
  0 <= trimStart e /\ 0 <= trimEnd e /\ trimStart e + trimEnd e <= duration e.

Definition trackOk (t : TimelineTrack) : Prop := Forall trimOk (elements t).

Definition tracksOk (tracks : list TimelineTrack) : Prop := Forall trackOk tracks.

(** Identifiers are unique: track ids in the list, element ids in a track. *)
Definition uniqueIds (tracks : list TimelineTrack) : Prop :=
  NoDup (map track_id tracks) /\
  Forall (fun t => NoDup (map elem_id (elements t))) tracks.

(** ** Fresh identifiers

    The store draws ids from [generateUUID()]; the model takes the successor
    of the largest id in use. *)

Definition allElements (tracks : list TimelineTrack) : list TimelineElement :=
  flat_map elements tracks.

Definition freshElementId (tracks : list TimelineTrack) : ElementId :=
  S (list_max (map elem_id (allElements tracks))).

Definition freshTrackId (tracks : list TimelineTrack) : TrackId :=
  S (list_max (map track_id tracks)).

(** Replace the tracks named [trackId] by [f] of them. *)
Definition updateTrack (trackId : TrackId) (f : TimelineTrack -> TimelineTrack)
    (tracks : list TimelineTrack) : list TimelineTrack :=
  map (fun t => if (track_id t =? trackId)%nat then f t else t) tracks.

Definition withElements (t : TimelineTrack) (els : list TimelineElement)
  : TimelineTrack :=
  mkTrack (track_id t) (track_type t) els (muted t).

(** ** The timeline store

    The handlers below call the operations of [useTimelineStore]; the store
    module itself is not among the sources, so each operation is written
    from its description in the specification (section 4). Every operation
    takes the current track list and returns the new one, with the value the
    store call returns where it has one. *)

(** Modelled from the spec: [addTrack(type) -> trackId] of the timeline
    store: "creates an empty track of the given type, appended to the track
    list". *)
Definition addTrack (type : TrackType) (tracks : list TimelineTrack)
  : TrackId * list TimelineTrack :=
  let newId := freshTrackId tracks in
  (newId, tracks ++ [mkTrack newId type [] false]).

(** Modelled from the spec: [removeTrack(trackId)] of the timeline store:
    "removes track and all its elements. No-op if the track does not exist". *)
Definition removeTrack (trackId : TrackId) (tracks : list TimelineTrack)
  : list TimelineTrack :=
  filter (fun t => negb (track_id t =? trackId)%nat) tracks.

(** Modelled from the spec: [toggleTrackMute(trackId)] of the timeline
    store: "flips [muted]". *)
Definition toggleTrackMute (trackId : TrackId) (tracks : list TimelineTrack)
  : list TimelineTrack :=
  updateTrack trackId
    (fun t => mkTrack (track_id t) (track_type t) (elements t) (negb (muted t)))
    tracks.

(** The argument of [addElementToTrack]: an element without its id, the
    trims optional. *)
Record ElementSpec : Type := mkSpec {
  spec_type : ElementType;
  spec_mediaId : string;
  spec_name : string;
  spec_startTime : Q;
  spec_duration : Q;
  spec_trimStart : option Q;
  spec_trimEnd : option Q
}.

Definition orZero (o : option Q) : Q :=
  match o with Some q => q | None => 0 end.

Definition elementOfSpec (newId : ElementId) (s : ElementSpec) : TimelineElement :=
  mkElement newId (spec_type s) (spec_mediaId s) (spec_name s)
            (spec_startTime s) (spec_duration s)
            (orZero (spec_trimStart s)) (orZero (spec_trimEnd s)).

(** Modelled from the spec: [addElementToTrack(trackId, elementSpec)] of the
    timeline store: "appends a new Element with a fresh id; startTime as
    given, trimStart = trimEnd = 0 unless specified. Fails with NotFound if
    track absent". [None] is the NotFound failure. *)
Definition addElementToTrack (trackId : TrackId) (s : ElementSpec)
    (tracks : list TimelineTrack) : option ElementId * list TimelineTrack :=
  match findTrack trackId tracks with
  | None => (None, tracks)
  | Some _ =>
      let newId := freshElementId tracks in
      (Some newId,
       updateTrack trackId
         (fun t => withElements t (elements t ++ [elementOfSpec newId s]))
         tracks)
  end.

(** Modelled from the spec: [removeElementFromTrack(trackId, elementId)] of
    the timeline store: "deletes the element; no shifting of subsequent
    elements' startTime". *)
Definition removeElementFromTrack (trackId : TrackId) (elementId : ElementId)
    (tracks : list TimelineTrack) : list TimelineTrack :=
  updateTrack trackId
    (fun t => withElements t
       (filter (fun c => negb (elem_id c =? elementId)%nat) (elements t)))
    tracks.

(** An element moved to start at [t], everything else kept. *)
Definition withStartTime (e : TimelineElement) (t : Q) : TimelineElement :=
  mkElement (elem_id e) (elem_type e) (mediaId e) (name e) t
            (duration e) (trimStart e) (trimEnd e).

(** The ripple shift: elements starting at or after the removed element's
    effective end move back by its effective duration. *)
Definition rippleShift (removed : TimelineElement) (c : TimelineElement)
  : TimelineElement :=
  if Qle_bool (effectiveEnd removed) (startTime c)
  then withStartTime c (startTime c - effectiveDuration removed)
  else c.

(** Modelled from the spec: [removeElementFromTrackWithRipple(trackId,
    elementId)] of the timeline store: "deletes the element AND shifts every
    other element on the same track whose startTime is >= the removed
    element's effectiveEnd backward by the removed element's
    effectiveDuration. Elements on other tracks are untouched". An element
    that is not found leaves the tracks as they are. *)
Definition removeElementFromTrackWithRipple (trackId : TrackId)
    (elementId : ElementId) (tracks : list TimelineTrack)
  : list TimelineTrack :=
  match lookupElement tracks trackId elementId with
  | None => tracks
  | Some removed =>
      updateTrack trackId
        (fun t => withElements t
           (map (rippleShift removed)
              (filter (fun c => negb (elem_id c =? elementId)%nat) (elements t))))
        tracks
  end.

(** [effectiveStart < atTime < effectiveEnd] *)
Definition strictlyInside (e : TimelineElement) (atTime : Q) : bool :=
  Qlt_bool (effectiveStart e) atTime && Qlt_bool atTime (effectiveEnd e).

(** The left part of a split: the element truncated to end at [atTime] by a
    larger [trimEnd]. *)
Definition splitLeft (e : TimelineElement) (atTime : Q) : TimelineElement :=
  mkElement (elem_id e) (elem_type e) (mediaId e) (name e) (startTime e)
            (duration e) (trimStart e)
            (trimEnd e + (effectiveEnd e - atTime)).

(** The right part of a split: starts at [atTime], [trimStart] larger by
    [atTime - effectiveStart]. *)
Definition splitRight (newId : ElementId) (e : TimelineElement) (atTime : Q)
  : TimelineElement :=
  mkElement newId (elem_type e) (mediaId e) (name e) atTime
            (duration e)
            (trimStart e + (atTime - effectiveStart e)) (trimEnd e).

(** Modelled from the spec: [splitElement(trackId, elementId, atTime) ->
    newElementId | null] of the timeline store: "requires effectiveStart <
    atTime < effectiveEnd; otherwise returns null (no mutation). On success:
    original element's effectiveDuration is truncated so its effectiveEnd ==
    atTime (achieved by increasing trimEnd); a new element is created
    immediately after, covering [atTime, originalEffectiveEnd) (achieved by
    setting its startTime = atTime and trimStart increased by atTime -
    originalEffectiveStart), referencing the same underlying
    mediaId/duration". *)
Definition splitElement (trackId : TrackId) (elementId : ElementId)
    (atTime : Q) (tracks : list TimelineTrack)
  : option ElementId * list TimelineTrack :=
  match lookupElement tracks trackId elementId with
  | None => (None, tracks)
  | Some e =>
      if strictlyInside e atTime then
        let newId := freshElementId tracks in
        (Some newId,
         updateTrack trackId
           (fun t => withElements t
              (flat_map
                 (fun c => if (elem_id c =? elementId)%nat
                           then [splitLeft c atTime; splitRight newId c atTime]
                           else [c])
                 (elements t)))
           tracks)
      else (None, tracks)
  end.

(** Apply [f] to the elements named [elementId] of the tracks named
    [trackId]. *)
Definition updateElement (trackId : TrackId) (elementId : ElementId)
    (f : TimelineElement -> TimelineElement) (tracks : list TimelineTrack)
  : list TimelineTrack :=
  updateTrack trackId
    (fun t => withElements t
       (map (fun c => if (elem_id c =? elementId)%nat then f c else c)
            (elements t)))
    tracks.

(** Modelled from the spec: [splitAndKeepLeft(trackId, elementId, atTime)]
    of the timeline store: "same boundary check as split; truncates the
    element to end at atTime (increase trimEnd), discards the right portion
    entirely (no new element created)". *)
Definition splitAndKeepLeft (trackId : TrackId) (elementId : ElementId)
    (atTime : Q) (tracks : list TimelineTrack) : list TimelineTrack :=
  match lookupElement tracks trackId elementId with
  | None => tracks
  | Some e =>
      if strictlyInside e atTime
      then updateElement trackId elementId (fun c => splitLeft c atTime) tracks
      else tracks
  end.

(** Modelled from the spec: [splitAndKeepRight(trackId, elementId, atTime)]
    of the timeline store: "symmetric - element's startTime/trimStart
    adjusted so it begins at atTime; left portion discarded". *)
Definition splitAndKeepRight (trackId : TrackId) (elementId : ElementId)
    (atTime : Q) (tracks : list TimelineTrack) : list TimelineTrack :=
  match lookupElement tracks trackId elementId with
  | None => tracks
  | Some e =>
      if strictlyInside e atTime
      then updateElement trackId elementId
             (fun c => splitRight (elem_id c) c atTime) tracks
      else tracks
  end.

(** The audio element made from [e]: same source and time bounds, new id. *)
Definition audioOf (newId : ElementId) (e : TimelineElement) : TimelineElement :=
  mkElement newId (elem_type e) (mediaId e) (name e) (startTime e)
            (duration e) (trimStart e) (trimEnd e).

(** Modelled from the spec: [separateAudio(trackId, elementId)] of the
    timeline store: "valid only for elements on a media-type track; creates
    a new audio-type track (or reuses one) and an Element there with
    identical time bounds (startTime, trimStart, trimEnd), referencing the
    same source but as an audio-only view. Fails if element is not found or
    track type is wrong". The first audio track is reused when there is one;
    [None] is the failure, which changes nothing. *)
Definition separateAudio (trackId : TrackId) (elementId : ElementId)
    (tracks : list TimelineTrack) : option ElementId * list TimelineTrack :=
  match findTrack trackId tracks with
  | None => (None, tracks)
  | Some t =>
      if TrackType_eqb (track_type t) media then
        match findElement elementId (elements t) with
        | None => (None, tracks)
        | Some e =>
            let newId := freshElementId tracks in
            let a := audioOf newId e in
            match find (fun u => TrackType_eqb (track_type u) audio) tracks with
            | Some u =>
                (Some newId,
                 updateTrack (track_id u)
                   (fun v => withElements v (elements v ++ [a])) tracks)
            | None =>
                (Some newId,
                 tracks ++ [mkTrack (freshTrackId tracks) audio [a] false])
            end
        end
      else (None, tracks)
  end.

(** Modelled from the spec: [getTotalDuration()] of the timeline store, the
    "recompute total duration" value: "sum of element extents across
    tracks", the extent of an element being the time it extends to on the
    timeline, its effective end. *)
Definition getTotalDuration (tracks : list TimelineTrack) : Q :=
  fold_right (fun e acc => effectiveEnd e + acc) 0 (allElements tracks).

(** ** The toolbar handlers ([TimelineToolbar])

    A handler reads [tracks] and [selectedElements] as the component
    rendered them, and calls the store, whose track list changes from call
    to call. Its result is the store's track list, the selection and the
    messages shown, oldest first. *)

Inductive Toast : Type :=
  | toast_error (msg : string)
  | toast_info (msg : string).

Record Outcome : Type := mkOutcome {
  out_tracks : list TimelineTrack;
  out_selected : list Selected;
  out_toasts : list Toast
}.

(** [handleSplitSelected]: one iteration of the [forEach]. The element is
    looked up in the rendered [tracks], the split runs on the store. *)
Definition splitSelectedStep (tracks : list TimelineTrack) (currentTime : Q)
    (acc : list TimelineTrack * nat) (s : Selected)
  : list TimelineTrack * nat :=
  let (cur, splitCount) := acc in
  match lookupElement tracks (sel_trackId s) (sel_elementId s) with
  | Some element =>
      let effectiveStart := startTime element in
      let effectiveEnd :=
        startTime element
        + (duration element - trimStart element - trimEnd element) in
      if Qlt_bool effectiveStart currentTime && Qlt_bool currentTime effectiveEnd
      then
        match splitElement (sel_trackId s) (sel_elementId s) currentTime cur with
        | (Some _, cur') => (cur', S splitCount)
        | (None, cur') => (cur', splitCount)
        end
      else (cur, splitCount)
  | None => (cur, splitCount)
  end.

Definition handleSplitSelected (tracks : list TimelineTrack)
    (selectedElements : list Selected) (currentTime : Q) : Outcome :=
  match selectedElements with
  | [] => mkOutcome tracks selectedElements []
  | _ =>
      let (cur, splitCount) :=
        fold_left (splitSelectedStep tracks currentTime) selectedElements
                  (tracks, O) in
      mkOutcome cur selectedElements
        (if (splitCount =? 0)%nat
         then [toast_error "Playhead must be within selected elements to split"]
         else [])
  end.

(** [{ ...elementWithoutId, startTime: newStartTime }] *)
Definition duplicateSpec (element : TimelineElement) : ElementSpec :=
  let newStartTime :=
    startTime element
    + (duration element - trimStart element - trimEnd element)
    + (1 # 10) in
  mkSpec (elem_type element) (mediaId element) (name element) newStartTime
         (duration element) (Some (trimStart element)) (Some (trimEnd element)).

Definition duplicateSelectedStep (tracks : list TimelineTrack)
    (cur : list TimelineTrack) (s : Selected) : list TimelineTrack :=
  match lookupElement tracks (sel_trackId s) (sel_elementId s) with
  | Some element =>
      snd (addElementToTrack (sel_trackId s) (duplicateSpec element) cur)
  | None => cur
  end.

Definition handleDuplicateSelected (tracks : list TimelineTrack)
    (selectedElements : list Selected) : Outcome :=
  match selectedElements with
  | [] => mkOutcome tracks selectedElements []
  | _ =>
      let canDuplicate := (List.length selectedElements =? 1)%nat in
      if negb canDuplicate then mkOutcome tracks selectedElements []
      else
        mkOutcome
          (fold_left (duplicateSelectedStep tracks) selectedElements tracks)
          [] []
  end.

Definition handleSplitAndKeepLeft (tracks : list TimelineTrack)
    (selectedElements : list Selected) (currentTime : Q) : Outcome :=
  match selectedElements with
  | [s] =>
      match lookupElement tracks (sel_trackId s) (sel_elementId s) with
      | None => mkOutcome tracks selectedElements []
      | Some element =>
          let effectiveStart := startTime element in
          let effectiveEnd :=
            startTime element
            + (duration element - trimStart element - trimEnd element) in
          if Qle_bool currentTime effectiveStart
             || Qle_bool effectiveEnd currentTime
          then mkOutcome tracks selectedElements
                 [toast_error "Playhead must be within selected element"]
          else mkOutcome
                 (splitAndKeepLeft (sel_trackId s) (sel_elementId s)
                                   currentTime tracks)
                 selectedElements []
      end
  | _ => mkOutcome tracks selectedElements
           [toast_error "Select exactly one element"]
  end.

Definition handleSplitAndKeepRight (tracks : list TimelineTrack)
    (selectedElements : list Selected) (currentTime : Q) : Outcome :=
  match selectedElements with
  | [s] =>
      match lookupElement tracks (sel_trackId s) (sel_elementId s) with
      | None => mkOutcome tracks selectedElements []
      | Some element =>
          let effectiveStart := startTime element in
          let effectiveEnd :=
            startTime element
            + (duration element - trimStart element - trimEnd element) in
          if Qle_bool currentTime effectiveStart
             || Qle_bool effectiveEnd currentTime
          then mkOutcome tracks selectedElements
                 [toast_error "Playhead must be within selected element"]
          else mkOutcome
                 (splitAndKeepRight (sel_trackId s) (sel_elementId s)
                                    currentTime tracks)
                 selectedElements []
      end
  | _ => mkOutcome tracks selectedElements
           [toast_error "Select exactly one element"]
  end.

(** [handleSeparateAudio]: the value [separateAudio] returns is dropped. *)
Definition handleSeparateAudio (tracks : list TimelineTrack)
    (selectedElements : list Selected) : Outcome :=
  match selectedElements with
  | [s] =>
      match findTrack (sel_trackId s) tracks with
      | Some track =>
          if negb (TrackType_eqb (track_type track) media)
          then mkOutcome tracks selectedElements
                 [toast_error "Select a media element to separate audio"]
          else mkOutcome
                 (snd (separateAudio (sel_trackId s) (sel_elementId s) tracks))
                 selectedElements []
      | None => mkOutcome tracks selectedElements
                  [toast_error "Select a media element to separate audio"]
      end
  | _ => mkOutcome tracks selectedElements
           [toast_error "Select exactly one media element to separate audio"]
  end.

Definition handleDeleteSelected (rippleEditingEnabled : bool)
    (tracks : list TimelineTrack) (selectedElements : list Selected) : Outcome :=
  match selectedElements with
  | [] => mkOutcome tracks selectedElements []
  | _ =>
      mkOutcome
        (fold_left
           (fun cur s =>
              if rippleEditingEnabled
              then removeElementFromTrackWithRipple
                     (sel_trackId s) (sel_elementId s) cur
              else removeElementFromTrack (sel_trackId s) (sel_elementId s) cur)
           selectedElements tracks)
        [] []
  end.

(** The "Add Test Clip" button: a new media track with one element whose
    duration is [TIMELINE_CONSTANTS.DEFAULT_TEXT_DURATION], a constant
    declared outside the sources. *)
Definition addTestClip (DEFAULT_TEXT_DURATION : Q)
    (tracks : list TimelineTrack) : list TimelineTrack :=
  let (trackId, tracks1) := addTrack media tracks in
  snd (addElementToTrack trackId
         (mkSpec media_element "test" "Test Clip" 0 DEFAULT_TEXT_DURATION
                 (Some 0) (Some 0))
         tracks1).

(** ** The timeline component ([Timeline]) *)

(** The effect "update timeline duration when tracks change":
    [setDuration(Math.max(totalDuration, 10))]. *)
Definition recomputeDuration (tracks : list TimelineTrack) : Q :=
  Qmax (getTotalDuration tracks) 10.

(** *** Click to seek *)

(** [mouseTrackingRef.current] *)
Record MouseTracking : Type := mkTracking {
  isMouseDown : bool;
  downX : Q;
  downY : Q;
  downTime : Q
}.

Definition noTracking : MouseTracking := mkTracking false 0 0 0.

(** A mouse event with what the handlers ask of its target: whether
    [target.closest(".timeline-element")] finds something, whether the
    playhead contains the target, whether the target is inside
    [[data-track-labels]] or [[data-ruler-area]]. *)
Record MouseEvent : Type := mkMouseEvent {
  clientX : Q;
  clientY : Q;
  timeStamp : Q;
  inTimelineElement : bool;
  inPlayhead : bool;
  inTrackLabels : bool;
  inRulerArea : bool
}.

(** A scroll viewport: [getBoundingClientRect().left] and [scrollLeft]. *)
Record Viewport : Type := mkViewport {
  rect_left : Q;
  scrollLeft : Q
}.

(** What the click handler reads besides the event. [fps] is
    [activeProject?.fps]; a viewport is [None] when the query finds none. *)
Record ClickEnv : Type := mkClickEnv {
  env_duration : Q;
  zoomLevel : Q;
  fps : option Q;
  isSelecting : bool;
  justFinishedSelecting : bool;
  rulerContent : option Viewport;
  tracksContent : option Viewport
}.

Inductive Action : Type :=
  | clearSelectedElements
  | seek (time : Q).

(** [handleTimelineMouseDown] *)
Definition handleTimelineMouseDown (tr : MouseTracking) (e : MouseEvent)
  : MouseTracking :=
  let isTimelineBackground :=
    negb (inTimelineElement e) && negb (inPlayhead e) && negb (inTrackLabels e) in
  if isTimelineBackground
  then mkTracking true (clientX e) (clientY e) (timeStamp e)
  else tr.

(** The nearest integer, halves upward, as [Math.round] has it. *)
Definition roundNearest (x : Q) : Z := Qfloor (x + (1 # 2)).

(** Modelled from the spec: [snapTimeToFrame(time, fps)] of the timeline
    constants, the frame quantization: "frame boundaries ([t] rounded to
    nearest [1/fps])". *)
Definition snapTimeToFrame (time fps : Q) : Q :=
  inject_Z (roundNearest (time * fps)) / fps.

(** [activeProject?.fps || 30]: an absent or zero fps gives 30. *)
Definition projectFps (f : option Q) : Q :=
  match f with
  | Some q => if Qeq_bool q 0 then 30 else q
  | None => 30
  end.

Section Click.

(** [TIMELINE_CONSTANTS.PIXELS_PER_SECOND], declared outside the sources. *)
Variable PIXELS_PER_SECOND : Q.

(** The time under the pointer, clamped:
    [Math.max(0, Math.min(duration, (mouseX + scrollLeft) / (PIXELS_PER_SECOND * zoomLevel)))]. *)
Definition rawTime (env : ClickEnv) (e : MouseEvent) (v : Viewport) : Q :=
  let mouseX := clientX e - rect_left v in
  Qmax 0
    (Qmin (env_duration env)
       ((mouseX + scrollLeft v) / (PIXELS_PER_SECOND * zoomLevel env))).

(** [handleTimelineContentClick]: the tracking is reset whatever happens;
    the actions are the calls to [clearSelectedElements] and [seek]. *)
Definition handleTimelineContentClick (tr : MouseTracking) (env : ClickEnv)
    (e : MouseEvent) : MouseTracking * list Action :=
  (noTracking,
   if negb (isMouseDown tr) then []
   else
     let deltaX := Qabs (clientX e - downX tr) in
     let deltaY := Qabs (clientY e - downY tr) in
     let deltaTime := timeStamp e - downTime tr in
     if Qlt_bool 5 deltaX || Qlt_bool 5 deltaY || Qlt_bool 500 deltaTime
     then []
     else if isSelecting env || justFinishedSelecting env then []
     else if inTimelineElement e then []
     else if inPlayhead e then []
     else if inTrackLabels e then [clearSelectedElements]
     else
       match (if inRulerArea e then rulerContent env else tracksContent env)
       with
       | None => [clearSelectedElements]
       | Some v =>
           let time := snapTimeToFrame (rawTime env e v) (projectFps (fps env)) in
           [clearSelectedElements; seek time]
       end).

(** The pointer events the timeline receives. *)
Inductive PointerEvent : Type :=
  | mouseDown (e : MouseEvent)
  | click (env : ClickEnv) (e : MouseEvent).

Definition pointerStep (tr : MouseTracking) (ev : PointerEvent)
  : MouseTracking * list Action :=
  match ev with
  | mouseDown e => (handleTimelineMouseDown tr e, [])
  | click env e => handleTimelineContentClick tr env e
  end.

(** The tracking after a sequence of events, from a freshly mounted
    component. *)
Definition trackingAfter (evs : list PointerEvent) : MouseTracking :=
  fold_left (fun tr ev => fst (pointerStep tr ev)) evs noTracking.

Definition isSeek (a : Action) : bool :=
  match a with seek _ => true | clearSelectedElements => false end.

Definition seeks (acts : list Action) : bool := existsb isSeek acts.

Definition onBackground (e : MouseEvent) : bool :=
  negb (inTimelineElement e) && negb (inPlayhead e) && negb (inTrackLabels e).

Definition isClick (ev : PointerEvent) : bool :=
  match ev with click _ _ => true | mouseDown _ => false end.

Definition isBackgroundDown (ev : PointerEvent) : bool :=
  match ev with mouseDown e => onBackground e | click _ _ => false end.

End Click.

(** *** Dropping files on the timeline *)

(** A record of the media list, and a processed file: a media item that has
    no id yet. *)
Record MediaItem : Type := mkMediaItem {
  item_id : string;
  item_name : string;
  item_url : string;
  item_duration : option Q
}.

Record ProcessedItem : Type := mkProcessed {
  proc_name : string;
  proc_url : string;
  proc_duration : option Q
}.

(** How an awaited call settles. *)
Inductive Settled : Type := fulfilled | rejected.

Record DropResult : Type := mkDropResult {
  drop_media : list MediaItem;
  drop_tracks : list TimelineTrack;
  drop_toasts : list Toast;
  drop_isProcessing : bool
}.

(** [item.name === processedItem.name && item.url === processedItem.url] *)
Definition sameFile (it : ProcessedItem) (m : MediaItem) : bool :=
  (item_name m =? proc_name it)%string && (item_url m =? proc_url it)%string.

Section Drop.

(** The collaborators of the drop handler, all outside the sources: the
    media store's [addMediaItem], given the media list and returning how the
    call settled and the list it left, and the timeline store's
    [addMediaToNewTrack]. *)
Variable addMediaItem :
  list MediaItem -> ProcessedItem -> Settled * list MediaItem.
Variable addMediaToNewTrack :
  MediaItem -> list TimelineTrack -> list TimelineTrack.

(** The [for] loop of [handleDrop] over the processed items; a rejected
    [await] leaves the loop. *)
Fixpoint addProcessedItems (processedItems : list ProcessedItem)
    (mediaItems : list MediaItem) (tracks : list TimelineTrack)
  : Settled * list MediaItem * list TimelineTrack :=
  match processedItems with
  | [] => (fulfilled, mediaItems, tracks)
  | processedItem :: rest =>
      match addMediaItem mediaItems processedItem with
      | (rejected, currentMediaItems) => (rejected, currentMediaItems, tracks)
      | (fulfilled, currentMediaItems) =>
          let addedItem := find (sameFile processedItem) currentMediaItems in
          match addedItem with
          | Some m =>
              addProcessedItems rest currentMediaItems
                (addMediaToNewTrack m tracks)
          | None => addProcessedItems rest currentMediaItems tracks
          end
      end
  end.

(** [handleDrop], the branch for dropped files. [activeProject] tells
    whether a project is open; [processed] is what [processMediaFiles]
    settled to, [None] when it was rejected. The [finally] block leaves
    [isProcessing] false. *)
Definition handleDropFiles (activeProject : bool)
    (processed : option (list ProcessedItem))
    (mediaItems : list MediaItem) (tracks : list TimelineTrack) : DropResult :=
  if negb activeProject
  then mkDropResult mediaItems tracks [toast_error "No active project"] false
  else
    match processed with
    | None =>
        mkDropResult mediaItems tracks
          [toast_error "Failed to process dropped files"] false
    | Some processedItems =>
        match addProcessedItems processedItems mediaItems tracks with
        | (fulfilled, m, t) => mkDropResult m t [] false
        | (rejected, m, t) =>
            mkDropResult m t
              [toast_error "Failed to process dropped files"] false
        end
    end.

End Drop.

(** What the drop handler relies on. [addMediaItem] is all or nothing: it
    leaves the media list as it was, or it is fulfilled and has appended
    one record with the name and url of the item. *)
Definition allOrNothing
    (addMediaItem : list MediaItem -> ProcessedItem -> Settled * list MediaItem)
  : Prop :=
  forall mediaItems it,
    snd (addMediaItem mediaItems it) = mediaItems \/
    (fst (addMediaItem mediaItems it) = fulfilled /\
     exists m, snd (addMediaItem mediaItems it) = mediaItems ++ [m] /\
               item_name m = proc_name it /\ item_url m = proc_url it).

(** [addMediaToNewTrack] appends one track holding one element that refers
    to the media item. *)
Definition addsOneTrack
    (addMediaToNewTrack : MediaItem -> list TimelineTrack -> list TimelineTrack)
  : Prop :=
  forall m tracks,
    exists t e,
      addMediaToNewTrack m tracks = tracks ++ [t] /\
      elements t = [e] /\ mediaId e = item_id m.

(** The dropped files are different files, none of them in the media list
    yet: no two agree on name and url. *)
Definition differentFile (a b : ProcessedItem) : Prop :=
  ~ (proc_name a = proc_name b /\ proc_url a = proc_url b).

Definition newFiles (items : list ProcessedItem) (mediaItems : list MediaItem)
  : Prop :=
  ForallOrdPairs differentFile items /\
  forall it m, In it items -> In m mediaItems -> sameFile it m = false.

(** An item added in full: the processed item, its record in the media
    list and its track. *)
Definition Added : Type := (ProcessedItem * MediaItem * TimelineTrack)%type.

Definition added_item (a : Added) : ProcessedItem := fst (fst a).
Definition added_record (a : Added) : MediaItem := snd (fst a).
Definition added_track (a : Added) : TimelineTrack := snd a.

(** ** The zoom controls ([TimelineToolbar]) *)

(** [handleZoomIn]: [setZoomLevel(Math.min(4, zoomLevel + 0.25))]. *)
Definition handleZoomIn (zoomLevel : Q) : Q := Qmin 4 (zoomLevel + (1 # 4)).

(** [handleZoomOut]: [setZoomLevel(Math.max(0.25, zoomLevel - 0.25))]. *)
Definition handleZoomOut (zoomLevel : Q) : Q := Qmax (1 # 4) (zoomLevel - (1 # 4)).

(** What the toolbar can do to the zoom level; the slider hands
    [handleZoomSliderChange] a non-empty array, whose first entry becomes
    the level. *)
Inductive ZoomCommand : Type :=
  | zoomIn
  | zoomOut
  | zoomSlider (value : Q) (others : list Q).

Definition zoomStep (zoomLevel : Q) (c : ZoomCommand) : Q :=
  match c with
  | zoomIn => handleZoomIn zoomLevel
  | zoomOut => handleZoomOut zoomLevel
  | zoomSlider value _ => value
  end.

Definition zoomAfter (cmds : list ZoomCommand) (zoomLevel : Q) : Q :=
  fold_left zoomStep cmds zoomLevel.

(** A level the slider can show: between its [min] 0.25 and its [max] 4,
    on its [step] of 0.25. *)
Definition zoomLevelOk (z : Q) : Prop :=
  (1 # 4) <= z /\ z <= 4 /\ exists k : Z, z == inject_Z k * (1 # 4).

Definition zoomCommandOk (c : ZoomCommand) : Prop :=
  match c with
  | zoomSlider value _ => zoomLevelOk value
  | _ => True
  end.

(** ** The ruler ([Timeline]) *)

(** Truncation toward zero, and the remainder [a % b] of JavaScript for a
    non-zero [b]: it has the sign of [a]. *)
Definition Qtruncate (x : Q) : Z := Z.quot (Qnum x) (Zpos (Qden x)).

Definition jsRemainder (a b : Q) : Q := a - b * inject_Z (Qtruncate (a / b)).

(** One time marker of the ruler: its React key, its time, its [left]
    offset in pixels and whether it is drawn as a main marker. *)
Record RulerMarker : Type := mkMarker {
  marker_key : nat;
  marker_time : Q;
  marker_left : Q;
  marker_main : bool
}.

Section Ruler.

Variable PIXELS_PER_SECOND : Q.

(** [getTimeInterval]: the distance in seconds between two markers. *)
Definition getTimeInterval (zoom : Q) : Q :=
  let pixelsPerSecond := PIXELS_PER_SECOND * zoom in
  if Qle_bool 200 pixelsPerSecond then 1 # 10
  else if Qle_bool 100 pixelsPerSecond then 1 # 2
  else if Qle_bool 50 pixelsPerSecond then 1
  else if Qle_bool 25 pixelsPerSecond then 2
  else if Qle_bool 12 pixelsPerSecond then 5
  else if Qle_bool 6 pixelsPerSecond then 10
  else 30.

(** [Math.ceil(duration / interval) + 1]; an array length below zero is
    taken as zero. *)
Definition markerCount (duration interval : Q) : nat :=
  Z.to_nat (Qceiling (duration / interval) + 1).

(** [time % (interval >= 1 ? Math.max(1, interval) : 1) === 0] *)
Definition isMainMarker (time interval : Q) : bool :=
  Qeq_bool
    (jsRemainder time (if Qle_bool 1 interval then Qmax 1 interval else 1)) 0.

(** The markers drawn: one for each index below [markerCount] whose time
    is not beyond the duration. Times are exact here. The program computes
    [i * interval] in doubles: for the intervals from one half up the
    product is exact, for the interval 0.1 it is rounded and can fall on
    the other side of [duration], so which marker is the last one is stated
    below for the intervals from one half up only. *)
Definition rulerMarkers (zoomLevel duration : Q) : list RulerMarker :=
  let interval := getTimeInterval zoomLevel in
  flat_map
    (fun i =>
       let time := inject_Z (Z.of_nat i) * interval in
       if Qlt_bool duration time then []
       else [mkMarker i time (time * PIXELS_PER_SECOND * zoomLevel)
                      (isMainMarker time interval)])
    (seq 0 (markerCount duration interval)).

(** [dynamicTimelineWidth]: the largest of the width of the duration, the
    width up to 30 s after the playhead and the width of the container,
    1000 when that is absent or zero. *)
Definition dynamicTimelineWidth (zoomLevel duration currentTime : Q)
    (clientWidth : option Q) : Q :=
  Qmax
    (Qmax
       ((if Qeq_bool duration 0 then 0 else duration)
        * PIXELS_PER_SECOND * zoomLevel)
       ((currentTime + 30) * PIXELS_PER_SECOND * zoomLevel))
    (match clientWidth with
     | Some w => if Qeq_bool w 0 then 1000 else w
     | None => 1000
     end).

End Ruler.

(** The pointer position the click handler divides by the scale:
    [mouseX + scrollLeft], with [mouseX = e.clientX - rect.left]. *)
Definition contentX (e : MouseEvent) (v : Viewport) : Q :=
  clientX e - rect_left v + scrollLeft v.

(** ** The drop overlay ([Timeline]) *)

(** [dragCounterRef.current] and the [isDragOver] state. *)
Record DragOverlay : Type := mkOverlay {
  dragCounter : Z;
  isDragOver : bool
}.

Definition noOverlay : DragOverlay := mkOverlay 0 false.

(** [handleDragEnter]; [isElementDrag] is
    [e.dataTransfer.types.includes("application/x-timeline-element")]. *)
Definition handleDragEnter (s : DragOverlay) (isElementDrag : bool)
  : DragOverlay :=
  if isElementDrag then s
  else mkOverlay (dragCounter s + 1)
                 (if negb (isDragOver s) then true else isDragOver s).

(** [handleDragLeave] *)
Definition handleDragLeave (s : DragOverlay) (isElementDrag : bool)
  : DragOverlay :=
  if isElementDrag then s
  else
    let counter := (dragCounter s - 1)%Z in
    mkOverlay counter (if (counter =? 0)%Z then false else isDragOver s).

(** The drag events of the timeline; a drop hides the overlay and resets
    the counter before anything else. Each handler sees the state the
    previous event left. *)
Inductive DragEvent : Type :=
  | dragEnter (isElementDrag : bool)
  | dragOver
  | dragLeave (isElementDrag : bool)
  | dragDrop.

Definition overlayStep (s : DragOverlay) (ev : DragEvent) : DragOverlay :=
  match ev with
  | dragEnter b => handleDragEnter s b
  | dragOver => s
  | dragLeave b => handleDragLeave s b
  | dragDrop => mkOverlay 0 false
  end.

Definition overlayAfter (evs : list DragEvent) : DragOverlay :=
  fold_left overlayStep evs noOverlay.

(** At no point of the sequence were there more leaves than enters since
    the last drop. *)
Definition wellNested (evs : list DragEvent) : Prop :=
  forall n : nat, (0 <= dragCounter (overlayAfter (firstn n evs)))%Z.

Definition isElementDragEvent (ev : DragEvent) : bool :=
  match ev with
  | dragEnter b | dragLeave b => b
  | dragOver => true
  | dragDrop => false
  end.

(** *** The whole drop handler *)

(** The payload of an item dragged from the media panel:
    [{ type: "text", ... }] or a media item's id. *)
Inductive DragData : Type :=
  | textDrag (payload : string)
  | mediaDrag (id : string).

(** What [handleDrop] reads from the event: whether the types include
    "application/x-timeline-element"; the "application/x-media-item" data,
    [None] when empty, [Some None] when [JSON.parse] throws on it; whether
    there are files. *)
Record DropEvent : Type := mkDropEvent {
  dropHasTimelineElement : bool;
  dropItemData : option (option DragData);
  dropHasFiles : bool
}.

Section WholeDrop.

Variable addMediaItem :
  list MediaItem -> ProcessedItem -> Settled * list MediaItem.
Variable addMediaToNewTrack :
  MediaItem -> list TimelineTrack -> list TimelineTrack.
Variable addTextToNewTrack :
  string -> list TimelineTrack -> list TimelineTrack.

(** [handleDrop]: the overlay it leaves and what it did. [isProcessing] is
    the state before the drop, [processed] what [processMediaFiles] would
    settle to. *)
Definition handleDrop (isProcessing : bool) (activeProject : bool)
    (ev : DropEvent) (processed : option (list ProcessedItem))
    (mediaItems : list MediaItem) (tracks : list TimelineTrack)
  : DragOverlay * DropResult :=
  (mkOverlay 0 false,
   if dropHasTimelineElement ev
   then mkDropResult mediaItems tracks [] isProcessing
   else
     match dropItemData ev with
     | Some None =>
         mkDropResult mediaItems tracks
           [toast_error "Failed to add item to timeline"] isProcessing
     | Some (Some (textDrag payload)) =>
         mkDropResult mediaItems (addTextToNewTrack payload tracks) []
           isProcessing
     | Some (Some (mediaDrag id)) =>
         match find (fun item => (item_id item =? id)%string) mediaItems with
         | None =>
             mkDropResult mediaItems tracks
               [toast_error "Media item not found"] isProcessing
         | Some mediaItem =>
             mkDropResult mediaItems (addMediaToNewTrack mediaItem tracks) []
               isProcessing
         end
     | None =>
         if dropHasFiles ev
         then
           if negb activeProject
           then mkDropResult mediaItems tracks
                  [toast_error "No active project"] isProcessing
           else handleDropFiles addMediaItem addMediaToNewTrack activeProject
                  processed mediaItems tracks
         else mkDropResult mediaItems tracks [] isProcessing
     end).

End WholeDrop.

(** ** Uploading in the media panel ([MediaView]) *)

Record UploadResult : Type := mkUploadResult {
  upload_media : list MediaItem;
  upload_toasts : list Toast;
  upload_isProcessing : bool
}.

Section Upload.

Variable addMediaItem :
  list MediaItem -> ProcessedItem -> Settled * list MediaItem.

(** The [for] loop of [processFiles]. *)
Fixpoint addItems (processedItems : list ProcessedItem)
    (mediaItems : list MediaItem) : Settled * list MediaItem :=
  match processedItems with
  | [] => (fulfilled, mediaItems)
  | item :: rest =>
      match addMediaItem mediaItems item with
      | (rejected, currentMediaItems) => (rejected, currentMediaItems)
      | (fulfilled, currentMediaItems) => addItems rest currentMediaItems
      end
  end.

(** [processFiles]: [noFiles] is [!files || files.length === 0]. *)
Definition processFiles (isProcessing : bool) (noFiles : bool)
    (activeProject : bool) (processed : option (list ProcessedItem))
    (mediaItems : list MediaItem) : UploadResult :=
  if noFiles then mkUploadResult mediaItems [] isProcessing
  else if negb activeProject
  then mkUploadResult mediaItems [toast_error "No active project"] isProcessing
  else
    match processed with
    | None =>
        mkUploadResult mediaItems [toast_error "Failed to process files"] false
    | Some processedItems =>
        match addItems processedItems mediaItems with
        | (fulfilled, m) => mkUploadResult m [] false
        | (rejected, m) =>
            mkUploadResult m [toast_error "Failed to process files"] false
        end
    end.

End Upload.

(** ** Where the pointer handlers are attached ([Timeline]) *)

(** The part of the timeline an event's target lies in: the ruler
    container, the tracks container, there on the row of a track or below
    the rows, or neither container. *)
Inductive TimelineArea : Type :=
  | onRuler
  | onTracks (onTrackRow : bool)
  | elsewhere.

Inductive DomEvent : Type :=
  | domMouseDown (area : TimelineArea) (e : MouseEvent)
  | domClick (area : TimelineArea) (env : ClickEnv) (e : MouseEvent).

(** The [onClick] of a track's row: clicking its empty area deselects. *)
Definition trackRowClick (e : MouseEvent) : list Action :=
  if negb (inTimelineElement e) then [clearSelectedElements] else [].

Section Wiring.

Variable PIXELS_PER_SECOND : Q.

(** The handlers an event reaches, innermost first. The ruler container
    has [onClick={handleTimelineContentClick}] and no
    [handleTimelineMouseDown]; the tracks container has both; a track's row
    has its own [onClick]. The actions are the calls of
    [clearSelectedElements] and [seek] these handlers make. *)
Definition domStep (tr : MouseTracking) (ev : DomEvent)
  : MouseTracking * list Action :=
  match ev with
  | domMouseDown (onTracks _) e => (handleTimelineMouseDown tr e, [])
  | domMouseDown _ _ => (tr, [])
  | domClick onRuler env e =>
      handleTimelineContentClick PIXELS_PER_SECOND tr env e
  | domClick (onTracks onTrackRow) env e =>
      let rowActions := if onTrackRow then trackRowClick e else [] in
      (fst (handleTimelineContentClick PIXELS_PER_SECOND tr env e),
       rowActions
       ++ snd (handleTimelineContentClick PIXELS_PER_SECOND tr env e))
  | domClick elsewhere _ _ => (tr, [])
  end.

Definition domTrackingAfter (evs : list DomEvent) : MouseTracking :=
  fold_left (fun tr ev => fst (domStep tr ev)) evs noTracking.

End Wiring.

(** A pointer-down in the tracks container on the timeline background. *)
Definition armsTracking (ev : DomEvent) : bool :=
  match ev with
  | domMouseDown (onTracks _) e => onBackground e
  | _ => false
  end.

(** A click that reaches [handleTimelineContentClick]. *)
Definition consumesTracking (ev : DomEvent) : bool :=
  match ev with
  | domClick onRuler _ _ | domClick (onTracks _) _ _ => true
  | _ => false
  end.

(** ** The media panel ([MediaView]): search, filter and sort *)

(** A media item as the panel lists it: the record with its type
    ("image", "video" or "audio") and the size of its file. *)
Record MediaEntry : Type := mkEntry {
  entry_item : MediaItem;
  entry_type : string;
  entry_size : Z
}.

(** [String.prototype.toLowerCase] on the ASCII letters; other characters
    are left as they are. *)
Definition lowerAscii (c : ascii) : ascii :=
  let n := nat_of_ascii c in
  if (65 <=? n)%nat && (n <=? 90)%nat then ascii_of_nat (n + 32) else c.

Fixpoint toLowerCase (s : string) : string :=
  match s with
  | EmptyString => EmptyString
  | String c s' => String (lowerAscii c) (toLowerCase s')
  end.

(** [s.includes(sub)] *)
Fixpoint includes (s sub : string) : bool :=
  prefix sub s
  || match s with
     | EmptyString => false
     | String _ s' => includes s' sub
     end.

(** The callback of [mediaItems.filter]. *)
Definition passesFilter (mediaFilter searchQuery : string) (item : MediaEntry)
  : bool :=
  if negb (mediaFilter =? "")%string && negb (mediaFilter =? "all")%string
     && negb (entry_type item =? mediaFilter)%string
  then false
  else if negb (searchQuery =? "")%string
          && negb (includes (toLowerCase (item_name (entry_item item)))
                            (toLowerCase searchQuery))
  then false
  else true.

Inductive SortBy : Type := byName | byType | byDuration | bySize.

Inductive SortOrder : Type := asc | desc.

(** The values the comparison looks at: lower-cased names and types are
    strings, durations and sizes numbers. *)
Inductive SortValue : Type :=
  | textValue (s : string)
  | numberValue (q : Q).

(** [valueA < valueB] *)
Definition valueLt (a b : SortValue) : bool :=
  match a, b with
  | textValue s, textValue t => String.ltb s t
  | numberValue x, numberValue y => Qlt_bool x y
  | _, _ => false
  end.

(** [a.duration || 0] *)
Definition durationOrZero (d : option Q) : Q :=
  match d with
  | Some q => if Qeq_bool q 0 then 0 else q
  | None => 0
  end.

(** The [switch (sortBy)] of the comparison. *)
Definition sortValue (sortBy : SortBy) (a : MediaEntry) : SortValue :=
  match sortBy with
  | byName => textValue (toLowerCase (item_name (entry_item a)))
  | byType => textValue (entry_type a)
  | byDuration => numberValue (durationOrZero (item_duration (entry_item a)))
  | bySize => numberValue (inject_Z (entry_size a))
  end.

(** The comparison function handed to [filtered.sort]. *)
Definition compareEntries (sortBy : SortBy) (sortOrder : SortOrder)
    (a b : MediaEntry) : Z :=
  let valueA := sortValue sortBy a in
  let valueB := sortValue sortBy b in
  if valueLt valueA valueB
  then match sortOrder with asc => (-1)%Z | desc => 1%Z end
  else if valueLt valueB valueA
  then match sortOrder with asc => 1%Z | desc => (-1)%Z end
  else 0%Z.

(** [Array.prototype.sort] with a comparison function: the stable sort, in
    which items that compare equal keep their order. It is written here as
    an insertion sort; for a consistent comparison the result does not
    depend on the algorithm. *)
Fixpoint sortInsert {A : Type} (cmp : A -> A -> Z) (x : A) (l : list A)
  : list A :=
  match l with
  | [] => [x]
  | y :: l' =>
      if (0 <? cmp x y)%Z then y :: sortInsert cmp x l' else x :: y :: l'
  end.

Fixpoint jsSort {A : Type} (cmp : A -> A -> Z) (l : list A) : list A :=
  match l with
  | [] => []
  | x :: l' => sortInsert cmp x (jsSort cmp l')
  end.

(** The effect that computes [filteredMediaItems]. *)
Definition filteredMediaItems (mediaItems : list MediaEntry)
    (mediaFilter searchQuery : string) (sortBy : SortBy)
    (sortOrder : SortOrder) : list MediaEntry :=
  jsSort (compareEntries sortBy sortOrder)
         (filter (passesFilter mediaFilter searchQuery) mediaItems).

Definition SortBy_eqb (a b : SortBy) : bool :=
  match a, b with
  | byName, byName | byType, byType
  | byDuration, byDuration | bySize, bySize => true
  | _, _ => false
  end.

(** An entry of the sort menu: the current key again reverses the order,
    another key is taken ascending. *)
Definition sortMenuClick (key : SortBy) (s : SortBy * SortOrder)
  : SortBy * SortOrder :=
  let (sortBy, sortOrder) := s in
  if SortBy_eqb sortBy key
  then (sortBy, match sortOrder with asc => desc | desc => asc end)
  else (key, asc).

(** [n.toString()] of an integer, and [s.padStart(2, "0")]. *)
Definition toString (n : Z) : string := NilZero.string_of_int (Z.to_int n).

Definition padStart2 (s : string) : string :=
  match String.length s with
  | 0%nat => "00"
  | 1%nat => String "0" s
  | _ => s
  end.

(** [formatDuration]: seconds as [m:ss]. *)
Definition formatDuration (duration : Q) : string :=
  let min := Qfloor (duration / 60) in
  let sec := Qfloor (jsRemainder duration 60) in
  (toString min ++ ":" ++ padStart2 (toString sec))%string.

(** A number below 100 written with two digits. *)
Definition twoDigits (n : Z) : string :=
  (toString (n / 10) ++ toString (n mod 10))%string.

(** ** Predicates used in the statements *)

(** An element placed at or after the timeline origin, with valid trims. *)
Definition wellPlaced (e : TimelineElement) : Prop :=
  0 <= startTime e /\ trimOk e.

(** The trim invariant on the argument of [addElementToTrack]. *)
Definition specOk (s : ElementSpec) : Prop :=
  0 <= orZero (spec_trimStart s) /\ 0 <= orZero (spec_trimEnd s) /\
  orZero (spec_trimStart s) + orZero (spec_trimEnd s) <= spec_duration s.


(** An event that neither arms the mouse tracking nor resets it: a
    pointer-down that is not on the timeline background. *)
Definition quiet (ev : PointerEvent) : bool :=
  negb (isClick ev) && negb (isBackgroundDown ev).

(** ** Example timelines and events *)

(** One media track with one element of duration 10 at the origin. *)
Definition clip10 : TimelineElement :=
  mkElement 1%nat media_element "test" "Test Clip" 0 10 0 0.

Definition oneClipTracks : list TimelineTrack :=
  [mkTrack 1%nat media [clip10] false].

(** Elements A (0 to 5) and B (5 to 10) on one track, C on a second track. *)
Definition clipA : TimelineElement :=
  mkElement 1%nat media_element "a" "A" 0 5 0 0.

Definition clipB : TimelineElement :=
  mkElement 2%nat media_element "b" "B" 5 5 0 0.

Definition clipC : TimelineElement :=
  mkElement 3%nat media_element "c" "C" 7 4 0 0.

Definition twoTracks : list TimelineTrack :=
  [mkTrack 1%nat media [clipA; clipB] false;
   mkTrack 2%nat media [clipC] false].

(** A text track holding one text element. *)
Definition textTracks : list TimelineTrack :=
  [mkTrack 1%nat text
     [mkElement 1%nat text_element "" "Title" 0 5 0 0] false].

(** A timeline whose single element ends at 12.3 s. *)
Definition clip123 : TimelineElement :=
  mkElement 1%nat media_element "m" "Long" 0 (123 # 10) 0 0.

Definition longTracks : list TimelineTrack :=
  [mkTrack 1%nat media [clip123] false].

(** A timeline of duration 10.02 s, no project fps, the tracks viewport at
    the origin; the pointer went down on the background at x = 600 and
    comes up there 100 ms later. *)
Definition lateClickEnv : ClickEnv :=
  mkClickEnv (1002 # 100) 1 None false false None
             (Some (mkViewport 0 0)).

Definition downAt600 : MouseTracking := mkTracking true 600 0 0.

Definition clickAt600 : MouseEvent :=
  mkMouseEvent 600 0 100 false false false false.

(** The pointer goes down on the background at the origin and comes up
    5 px to the right and below, 500 ms later. *)
Definition downAtOrigin : MouseEvent :=
  mkMouseEvent 0 0 0 false false false false.

Definition upAtFive : MouseEvent :=
  mkMouseEvent 5 5 500 false false false false.

Definition plainEnv : ClickEnv :=
  mkClickEnv 10 1 None false false None (Some (mkViewport 0 0)).

(** A media store that appends a record under the item's url and rejects
    the file named "broken"; a timeline store that appends a media track
    with one element for the item. *)
Definition sampleAddMediaItem (mediaItems : list MediaItem)
    (it : ProcessedItem) : Settled * list MediaItem :=
  if (proc_name it =? "broken")%string then (rejected, mediaItems)
  else (fulfilled,
        mediaItems ++ [mkMediaItem (proc_url it) (proc_name it) (proc_url it)
                         (proc_duration it)]).

Definition sampleAddMediaToNewTrack (m : MediaItem)
    (tracks : list TimelineTrack) : list TimelineTrack :=
  tracks ++ [mkTrack (freshTrackId tracks) media
               [mkElement (freshElementId tracks) media_element (item_id m)
                  (item_name m) 0 (orZero (item_duration m)) 0 0]
               false].

Definition droppedFiles : list ProcessedItem :=
  [mkProcessed "a.mp4" "blob:1" (Some 4);
   mkProcessed "broken" "blob:2" None;
   mkProcessed "c.mp4" "blob:3" (Some 6)].

(** A media store that puts the record in the list and then fails, as one
    does that updates its state before it saves to storage. *)
Definition appendThenReject (mediaItems : list MediaItem)
    (it : ProcessedItem) : Settled * list MediaItem :=
  (rejected,
   mediaItems ++ [mkMediaItem (proc_url it) (proc_name it) (proc_url it)
                    (proc_duration it)]).

Definition oneFile : ProcessedItem := mkProcessed "a.mp4" "blob:1" (Some 4).

(** *** The labels of the ruler *)

(** [x.toFixed(1)] of a number that is not negative: the nearest tenth,
    the larger one of two equally near. *)
Definition toFixed1 (x : Q) : string :=
  let n := Qfloor (x * 10 + (1 # 2)) in
  (toString (n / 10) ++ "." ++ toString (n mod 10))%string.

(** [formatTime], the label of a marker; [interval] is the marker
    interval of the ruler it is defined in. *)
Definition formatTime (interval seconds : Q) : string :=
  let hours := Qfloor (seconds / 3600) in
  let minutes := Qfloor (jsRemainder seconds 3600 / 60) in
  let secs := jsRemainder seconds 60 in
  if (0 <? hours)%Z
  then (toString hours ++ ":" ++ padStart2 (toString minutes) ++ ":"
        ++ padStart2 (toString (Qfloor secs)))%string
  else if (0 <? minutes)%Z
  then (toString minutes ++ ":" ++ padStart2 (toString (Qfloor secs)))%string
  else if Qle_bool 1 interval
  then (toString (Qfloor secs) ++ "s")%string
  else (toFixed1 secs ++ "s")%string.

(** Two entries tie under a sort key when neither value is below the
    other. *)
Definition tiesWith (sortBy : SortBy) (a b : MediaEntry) : bool :=
  negb (valueLt (sortValue sortBy a) (sortValue sortBy b))
  && negb (valueLt (sortValue sortBy b) (sortValue sortBy a)).

(** Three media items, two of them of the same duration. *)
Definition entryClip : MediaEntry :=
  mkEntry (mkMediaItem "1" "Clip.mp4" "blob:1" (Some 8)) "video" 300.

Definition entrySong : MediaEntry :=
  mkEntry (mkMediaItem "2" "song.mp3" "blob:2" (Some 8)) "audio" 100.

Definition entryPhoto : MediaEntry :=
  mkEntry (mkMediaItem "3" "photo CLIP.png" "blob:3" None) "image" 200.

Definition sampleEntries : list MediaEntry :=
  [entryClip; entrySong; entryPhoto].

(** * Properties *)

(** ** Comparisons and lookups *)

Lemma Qlt_bool_iff (x y : Q) : Qlt_bool x y = true <-> x < y.
Proof.
  unfold Qlt_bool. rewrite negb_true_iff. split; intro H.
  - apply Qnot_le_lt. intro Hle. apply Qle_bool_iff in Hle. congruence.
  - destruct (Qle_bool y x) eqn:E; [|reflexivity].
    apply Qle_bool_iff in E. lra.
Qed.

Lemma Qlt_bool_false_iff (x y : Q) : Qlt_bool x y = false <-> y <= x.
Proof.
  unfold Qlt_bool. rewrite negb_false_iff. apply Qle_bool_iff.
Qed.

Lemma Qle_bool_false_iff (x y : Q) : Qle_bool x y = false <-> y < x.
Proof.
  split; intro H.
  - apply Qnot_le_lt. intro Hle. apply Qle_bool_iff in Hle. congruence.
  - destruct (Qle_bool x y) eqn:E; [|reflexivity].
    apply Qle_bool_iff in E. lra.
Qed.

Lemma TrackType_eqb_eq (a b : TrackType) : TrackType_eqb a b = true <-> a = b.
Proof. destruct a, b; simpl; split; congruence. Qed.


Lemma findTrack_Some (trackId : TrackId) (tracks : list TimelineTrack)
    (t : TimelineTrack) :
  findTrack trackId tracks = Some t -> In t tracks /\ track_id t = trackId.
Proof.
  unfold findTrack. intro H. apply find_some in H.
  destruct H as [Hin Heq]. apply Nat.eqb_eq in Heq. auto.
Qed.

Lemma findElement_Some (elementId : ElementId) (els : list TimelineElement)
    (e : TimelineElement) :
  findElement elementId els = Some e -> In e els /\ elem_id e = elementId.
Proof.
  unfold findElement. intro H. apply find_some in H.
  destruct H as [Hin Heq]. apply Nat.eqb_eq in Heq. auto.
Qed.

(** The element found splits the list; under unique ids no other element
    carries its id. *)
Lemma findElement_split (elementId : ElementId) (els : list TimelineElement)
    (e : TimelineElement) :
  findElement elementId els = Some e ->
  NoDup (map elem_id els) ->
  exists pre post,
    els = pre ++ e :: post /\
    Forall (fun c => elem_id c <> elementId) pre /\
    Forall (fun c => elem_id c <> elementId) post.
Proof.
  unfold findElement. induction els as [|c els IH]; simpl; intros Hf Hnd.
  - discriminate.
  - inversion Hnd as [|? ? Hnotin Hnd']; subst.
    destruct (elem_id c =? elementId)%nat eqn:E.
    + injection Hf as ->. apply Nat.eqb_eq in E.
      exists [], els. repeat split; auto.
      apply Forall_forall. intros x Hx Hid.
      apply Hnotin. rewrite E, <- Hid. now apply in_map.
    + apply Nat.eqb_neq in E.
      destruct (IH Hf Hnd') as (pre & post & -> & Hpre & Hpost).
      exists (c :: pre), post. repeat split; auto.
Qed.

Lemma findTrack_updateTrack (trackId : TrackId)
    (f : TimelineTrack -> TimelineTrack) (tracks : list TimelineTrack) :
  (forall t, track_id (f t) = track_id t) ->
  findTrack trackId (updateTrack trackId f tracks)
  = option_map f (findTrack trackId tracks).
Proof.
  intro Hid. unfold findTrack, updateTrack.
  induction tracks as [|t tracks IH]; simpl; [reflexivity|].
  destruct (track_id t =? trackId)%nat eqn:E.
  - rewrite Hid, E. reflexivity.
  - rewrite E. exact IH.
Qed.


Lemma flat_map_unchanged {A : Type} (g : A -> list A) (l : list A) :
  Forall (fun x => g x = [x]) l -> flat_map g l = l.
Proof.
  induction 1 as [|x l Hx _ IH]; simpl; [reflexivity|].
  rewrite Hx, IH. reflexivity.
Qed.

Lemma map_unchanged {A : Type} (g : A -> A) (l : list A) :
  Forall (fun x => g x = x) l -> map g l = l.
Proof.
  induction 1 as [|x l Hx _ IH]; simpl; [reflexivity|].
  rewrite Hx, IH. reflexivity.
Qed.

(** ** Fresh identifiers are fresh *)

Lemma list_max_ge (l : list nat) (n : nat) : In n l -> (n <= list_max l)%nat.
Proof.
  intro H. pose proof (proj1 (list_max_le l (list_max l)) (Nat.le_refl _)) as Hall.
  rewrite Forall_forall in Hall. auto.
Qed.

Lemma freshElementId_fresh (tracks : list TimelineTrack) :
  ~ In (freshElementId tracks) (map elem_id (allElements tracks)).
Proof.
  unfold freshElementId. intro H. apply list_max_ge in H. lia.
Qed.

Lemma freshTrackId_fresh (tracks : list TimelineTrack) :
  ~ In (freshTrackId tracks) (map track_id tracks).
Proof.
  unfold freshTrackId. intro H. apply list_max_ge in H. lia.
Qed.

Lemma allElements_In (tracks : list TimelineTrack) (t : TimelineTrack)
    (e : TimelineElement) :
  In t tracks -> In e (elements t) -> In e (allElements tracks).
Proof.
  intros Ht He. unfold allElements. apply in_flat_map. eauto.
Qed.

(** ** Splitting *)

Lemma strictlyInside_iff (e : TimelineElement) (atTime : Q) :
  strictlyInside e atTime = true
  <-> effectiveStart e < atTime /\ atTime < effectiveEnd e.
Proof.
  unfold strictlyInside. rewrite andb_true_iff, !Qlt_bool_iff. tauto.
Qed.

Lemma strictlyInside_iff_false (e : TimelineElement) (atTime : Q) :
  strictlyInside e atTime = false
  <-> atTime <= effectiveStart e \/ effectiveEnd e <= atTime.
Proof.
  unfold strictlyInside. rewrite andb_false_iff, !Qlt_bool_false_iff. tauto.
Qed.

Lemma splitLeft_effectiveEnd (e : TimelineElement) (atTime : Q) :
  effectiveEnd (splitLeft e atTime) == atTime.
Proof. unfold splitLeft, effectiveEnd; simpl. ring. Qed.

Lemma splitRight_effectiveEnd (newId : ElementId) (e : TimelineElement)
    (atTime : Q) :
  effectiveEnd (splitRight newId e atTime) == effectiveEnd e.
Proof. unfold splitRight, effectiveEnd, effectiveStart; simpl. ring. Qed.

Lemma lookupElement_found (tracks : list TimelineTrack) (trackId : TrackId)
    (elementId : ElementId) (t : TimelineTrack) (e : TimelineElement) :
  findTrack trackId tracks = Some t ->
  findElement elementId (elements t) = Some e ->
  lookupElement tracks trackId elementId = Some e.
Proof. unfold lookupElement. now intros -> ->. Qed.

(** C1. Splitting an element at a time strictly inside its effective range
    replaces it, in place, by two elements: the left one keeps the id and
    the start and ends at [atTime] through a larger [trimEnd]; the right
    one has a fresh id, starts at [atTime] with [trimStart] larger by
    [atTime - effectiveStart], and ends where the original ended; both keep
    the original's [mediaId] and [duration]. *)
Theorem splitElement_partitions_range
    (tracks : list TimelineTrack) (trackId : TrackId) (elementId : ElementId)
    (atTime : Q) (t : TimelineTrack) (e : TimelineElement) :
  findTrack trackId tracks = Some t ->
  findElement elementId (elements t) = Some e ->
  NoDup (map elem_id (elements t)) ->
  effectiveStart e < atTime ->
  atTime < effectiveEnd e ->
  exists newId tracks' t' pre post left right,
    splitElement trackId elementId atTime tracks = (Some newId, tracks') /\
    ~ In newId (map elem_id (allElements tracks)) /\
    findTrack trackId tracks' = Some t' /\
    elements t = pre ++ e :: post /\
    elements t' = pre ++ left :: right :: post /\
    elem_id left = elem_id e /\
    startTime left = startTime e /\
    trimStart left = trimStart e /\
    trimEnd e < trimEnd left /\
    effectiveStart left = effectiveStart e /\
    effectiveEnd left == atTime /\
    elem_id right = newId /\
    startTime right = atTime /\
    trimStart right = trimStart e + (atTime - effectiveStart e) /\
    trimEnd right = trimEnd e /\
    effectiveStart right = atTime /\
    effectiveEnd right == effectiveEnd e /\
    mediaId left = mediaId e /\ mediaId right = mediaId e /\
    duration left = duration e /\ duration right = duration e.
Proof.
  intros Ht He Hnd Hlo Hhi.
  destruct (findElement_split _ _ _ He Hnd) as (pre & post & Hels & Hpre & Hpost).
  destruct (findElement_Some _ _ _ He) as [_ Hid].
  exists (freshElementId tracks).
  eexists. exists (withElements t
    (pre ++ splitLeft e atTime :: splitRight (freshElementId tracks) e atTime :: post)).
  exists pre, post, (splitLeft e atTime),
    (splitRight (freshElementId tracks) e atTime).
  split.
  { unfold splitElement. rewrite (lookupElement_found _ _ _ _ _ Ht He).
    rewrite (proj2 (strictlyInside_iff e atTime) (conj Hlo Hhi)). reflexivity. }
  split; [apply freshElementId_fresh|].
  split.
  { rewrite findTrack_updateTrack by reflexivity. rewrite Ht. simpl.
    f_equal. f_equal. rewrite Hels, flat_map_app. simpl.
    rewrite Hid, Nat.eqb_refl. simpl.
    rewrite !flat_map_unchanged; [reflexivity| |].
    - eapply Forall_impl; [|exact Hpost]. simpl. intros c Hc.
      apply Nat.eqb_neq in Hc. now rewrite Hc.
    - eapply Forall_impl; [|exact Hpre]. simpl. intros c Hc.
      apply Nat.eqb_neq in Hc. now rewrite Hc. }
  split; [exact Hels|].
  split; [reflexivity|].
  repeat split; try reflexivity.
  - simpl. unfold effectiveEnd in *. lra.
  - apply splitLeft_effectiveEnd.
  - apply splitRight_effectiveEnd.
Qed.

Lemma splitElement_partitions_range_witness :
  exists newId tracks' t' pre post left right,
    splitElement 1%nat 1%nat 4 oneClipTracks = (Some newId, tracks') /\
    ~ In newId (map elem_id (allElements oneClipTracks)) /\
    findTrack 1%nat tracks' = Some t' /\
    elements (mkTrack 1%nat media [clip10] false) = pre ++ clip10 :: post /\
    elements t' = pre ++ left :: right :: post /\
    elem_id left = elem_id clip10 /\
    startTime left = startTime clip10 /\
    trimStart left = trimStart clip10 /\
    trimEnd clip10 < trimEnd left /\
    effectiveStart left = effectiveStart clip10 /\
    effectiveEnd left == 4 /\
    elem_id right = newId /\
    startTime right = 4 /\
    trimStart right = trimStart clip10 + (4 - effectiveStart clip10) /\
    trimEnd right = trimEnd clip10 /\
    effectiveStart right = 4 /\
    effectiveEnd right == effectiveEnd clip10 /\
    mediaId left = mediaId clip10 /\ mediaId right = mediaId clip10 /\
    duration left = duration clip10 /\ duration right = duration clip10.
Proof.
  apply (splitElement_partitions_range oneClipTracks 1%nat 1%nat 4
           (mkTrack 1%nat media [clip10] false) clip10).
  - reflexivity.
  - reflexivity.
  - simpl. repeat constructor. simpl. tauto.
  - reflexivity.
  - reflexivity.
Defined.

(** The example of the specification: splitting [{duration:10, trimStart:0,
    trimEnd:0, startTime:0}] at 4 gives [{startTime:0, trimEnd:6}] and
    [{startTime:4, trimStart:4}]. *)
Example splitElement_example :
  exists l r,
    map elements (snd (splitElement 1%nat 1%nat 4 oneClipTracks)) = [[l; r]] /\
    startTime l == 0 /\ trimEnd l == 6 /\ effectiveEnd l == 4 /\
    startTime r == 4 /\ trimStart r == 4 /\ effectiveEnd r == 10.
Proof.
  eexists. eexists. split; [vm_compute; reflexivity|].
  repeat split; vm_compute; reflexivity.
Qed.


(** A selection none of whose elements has the playhead strictly inside
    leaves the store as it is and counts no split. *)
Lemma splitSelected_none_inside (tracks : list TimelineTrack) (currentTime : Q)
    (sel : list Selected) (cur : list TimelineTrack) (n : nat) :
  Forall (fun s => forall e,
            lookupElement tracks (sel_trackId s) (sel_elementId s) = Some e ->
            currentTime <= effectiveStart e \/ effectiveEnd e <= currentTime)
         sel ->
  fold_left (splitSelectedStep tracks currentTime) sel (cur, n) = (cur, n).
Proof.
  induction 1 as [|s sel Hs _ IH]; cbn [fold_left]; [reflexivity|].
  assert (Hstep : splitSelectedStep tracks currentTime (cur, n) s = (cur, n)).
  { unfold splitSelectedStep.
    destruct (lookupElement tracks (sel_trackId s) (sel_elementId s))
      as [e|] eqn:El; [|reflexivity].
    specialize (Hs e eq_refl).
    apply strictlyInside_iff_false in Hs.
    unfold strictlyInside, effectiveStart, effectiveEnd in Hs.
    now rewrite Hs. }
  rewrite Hstep. exact IH.
Qed.





















(** The same holds for any selection in which no element has the playhead
    strictly inside: one message, nothing changed. *)
Lemma handleSplitSelected_none_inside (tracks : list TimelineTrack)
    (s : Selected) (sel : list Selected) (currentTime : Q) :
  Forall (fun s => forall e,
            lookupElement tracks (sel_trackId s) (sel_elementId s) = Some e ->
            currentTime <= effectiveStart e \/ effectiveEnd e <= currentTime)
         (s :: sel) ->
  handleSplitSelected tracks (s :: sel) currentTime
  = mkOutcome tracks (s :: sel)
      [toast_error "Playhead must be within selected elements to split"].
Proof.
  intro H. unfold handleSplitSelected.
  now rewrite splitSelected_none_inside.
Qed.

(** ** Removing with ripple *)

(** The track found splits the list; under unique ids no other track
    carries its id, so an update touches that track alone. *)
Lemma findTrack_split (trackId : TrackId) (tracks : list TimelineTrack)
    (t : TimelineTrack) :
  findTrack trackId tracks = Some t ->
  NoDup (map track_id tracks) ->
  exists pre post,
    tracks = pre ++ t :: post /\
    Forall (fun u => track_id u <> trackId) pre /\
    Forall (fun u => track_id u <> trackId) post.
Proof.
  unfold findTrack. induction tracks as [|u tracks IH]; simpl; intros Hf Hnd.
  - discriminate.
  - inversion Hnd as [|? ? Hnotin Hnd']; subst.
    destruct (track_id u =? trackId)%nat eqn:E.
    + injection Hf as ->. apply Nat.eqb_eq in E.
      exists [], tracks. repeat split; auto.
      apply Forall_forall. intros x Hx Hid.
      apply Hnotin. rewrite E, <- Hid. now apply in_map.
    + apply Nat.eqb_neq in E.
      destruct (IH Hf Hnd') as (pre & post & -> & Hpre & Hpost).
      exists (u :: pre), post. repeat split; auto.
Qed.

Lemma updateTrack_split (trackId : TrackId) (f : TimelineTrack -> TimelineTrack)
    (pre post : list TimelineTrack) (t : TimelineTrack) :
  track_id t = trackId ->
  Forall (fun u => track_id u <> trackId) pre ->
  Forall (fun u => track_id u <> trackId) post ->
  updateTrack trackId f (pre ++ t :: post) = pre ++ f t :: post.
Proof.
  intros Ht Hpre Hpost. unfold updateTrack. rewrite map_app. simpl.
  rewrite Ht, Nat.eqb_refl. f_equal; [|f_equal]; apply map_unchanged.
  - eapply Forall_impl; [|exact Hpre]. simpl. intros u Hu.
    apply Nat.eqb_neq in Hu. now rewrite Hu.
  - eapply Forall_impl; [|exact Hpost]. simpl. intros u Hu.
    apply Nat.eqb_neq in Hu. now rewrite Hu.
Qed.

Lemma filter_others_split (elementId : ElementId)
    (pre post : list TimelineElement) (e : TimelineElement) :
  elem_id e = elementId ->
  Forall (fun c => elem_id c <> elementId) pre ->
  Forall (fun c => elem_id c <> elementId) post ->
  filter (fun c => negb (elem_id c =? elementId)%nat) (pre ++ e :: post)
  = pre ++ post.
Proof.
  intros He Hpre Hpost. rewrite filter_app. simpl.
  rewrite He, Nat.eqb_refl. simpl.
  assert (Hkeep : forall l, Forall (fun c => elem_id c <> elementId) l ->
            filter (fun c => negb (elem_id c =? elementId)%nat) l = l).
  { induction 1 as [|c l Hc _ IH]; simpl; [reflexivity|].
    apply Nat.eqb_neq in Hc. rewrite Hc. simpl. now rewrite IH. }
  now rewrite !Hkeep.
Qed.

Lemma rippleShift_after (removed c : TimelineElement) :
  effectiveEnd removed <= startTime c ->
  rippleShift removed c
  = withStartTime c (startTime c - effectiveDuration removed).
Proof.
  intro H. unfold rippleShift. apply Qle_bool_iff in H. now rewrite H.
Qed.

Lemma rippleShift_before (removed c : TimelineElement) :
  startTime c < effectiveEnd removed -> rippleShift removed c = c.
Proof.
  intro H. unfold rippleShift. apply Qle_bool_false_iff in H. now rewrite H.
Qed.

(** C2. Removing [E] with ripple deletes [E] from its track; every other
    element of that track that starts at or after [E]'s effective end moves
    back by exactly [E]'s effective duration and keeps its other fields,
    every element that starts before it is kept as it is, and every other
    track is kept as it is. *)
Theorem ripple_remove_shifts_later_elements
    (tracks : list TimelineTrack) (trackId : TrackId) (elementId : ElementId)
    (t : TimelineTrack) (E : TimelineElement) :
  uniqueIds tracks ->
  findTrack trackId tracks = Some t ->
  findElement elementId (elements t) = Some E ->
  exists pre post t' epre epost,
    tracks = pre ++ t :: post /\
    removeElementFromTrackWithRipple trackId elementId tracks
    = pre ++ t' :: post /\
    track_id t' = track_id t /\ track_type t' = track_type t /\
    muted t' = muted t /\
    elements t = epre ++ E :: epost /\
    elements t' = map (rippleShift E) (epre ++ epost) /\
    (forall c, effectiveEnd E <= startTime c ->
       startTime (rippleShift E c) = startTime c - effectiveDuration E /\
       elem_id (rippleShift E c) = elem_id c /\
       duration (rippleShift E c) = duration c /\
       trimStart (rippleShift E c) = trimStart c /\
       trimEnd (rippleShift E c) = trimEnd c /\
       mediaId (rippleShift E c) = mediaId c) /\
    (forall c, startTime c < effectiveEnd E -> rippleShift E c = c).
Proof.
  intros [Hnd Hels] Ht HE.
  destruct (findTrack_split _ _ _ Ht Hnd) as (pre & post & Htr & Hpre & Hpost).
  destruct (findTrack_Some _ _ _ Ht) as [Hin Htid].
  rewrite Forall_forall in Hels. specialize (Hels t Hin).
  destruct (findElement_split _ _ _ HE Hels)
    as (epre & epost & Hes & Hepre & Hepost).
  destruct (findElement_Some _ _ _ HE) as [_ Heid].
  exists pre, post,
    (withElements t (map (rippleShift E) (epre ++ epost))), epre, epost.
  split; [exact Htr|]. split.
  { unfold removeElementFromTrackWithRipple.
    rewrite (lookupElement_found _ _ _ _ _ Ht HE).
    rewrite Htr at 1. rewrite updateTrack_split by assumption.
    do 3 f_equal. rewrite Hes. now rewrite filter_others_split. }
  repeat split; try reflexivity; try assumption.
  - now rewrite rippleShift_after.
  - now rewrite rippleShift_after.
  - now rewrite rippleShift_after.
  - now rewrite rippleShift_after.
  - now rewrite rippleShift_after.
  - now rewrite rippleShift_after.
  - intros c Hc. now apply rippleShift_before.
Qed.

Lemma twoTracks_uniqueIds : uniqueIds twoTracks.
Proof.
  split.
  - simpl. repeat constructor; simpl; intuition discriminate.
  - repeat constructor; simpl; intuition discriminate.
Defined.

Lemma ripple_remove_shifts_later_elements_witness :
  exists pre post t' epre epost,
    twoTracks = pre ++ mkTrack 1%nat media [clipA; clipB] false :: post /\
    removeElementFromTrackWithRipple 1%nat 1%nat twoTracks
    = pre ++ t' :: post /\
    track_id t' = 1%nat /\ track_type t' = media /\
    muted t' = false /\
    [clipA; clipB] = epre ++ clipA :: epost /\
    elements t' = map (rippleShift clipA) (epre ++ epost) /\
    (forall c, effectiveEnd clipA <= startTime c ->
       startTime (rippleShift clipA c) = startTime c - effectiveDuration clipA /\
       elem_id (rippleShift clipA c) = elem_id c /\
       duration (rippleShift clipA c) = duration c /\
       trimStart (rippleShift clipA c) = trimStart c /\
       trimEnd (rippleShift clipA c) = trimEnd c /\
       mediaId (rippleShift clipA c) = mediaId c) /\
    (forall c, startTime c < effectiveEnd clipA -> rippleShift clipA c = c).
Proof.
  apply (ripple_remove_shifts_later_elements twoTracks 1%nat 1%nat
           (mkTrack 1%nat media [clipA; clipB] false) clipA).
  - exact twoTracks_uniqueIds.
  - reflexivity.
  - reflexivity.
Defined.

(** The example of the specification: ripple-removing A shifts B to start
    at 0; the element of the other track stays at 7. *)
Example ripple_remove_example :
  exists b,
    map elements (removeElementFromTrackWithRipple 1%nat 1%nat twoTracks)
    = [[b]; [clipC]] /\
    elem_id b = 2%nat /\ startTime b == 0 /\ effectiveEnd b == 5.
Proof.
  eexists. split; [vm_compute; reflexivity|].
  repeat split; vm_compute; reflexivity.
Qed.

(** ** Duplicating *)

(** C6. With exactly one element selected, the duplicate command changes
    the element's track alone: the track keeps its id, type and mute flag,
    and its elements are the old ones followed by one new element with a
    fresh id and the same duration, trims, source, type and name, starting
    0.1 s after the original's effective end; the selection is cleared and
    no message is shown. With two or more elements selected the command
    changes nothing. *)
Theorem duplicate_only_single_selection (tracks : list TimelineTrack) :
  (forall (s : Selected) (t : TimelineTrack) (e : TimelineElement),
     NoDup (map track_id tracks) ->
     findTrack (sel_trackId s) tracks = Some t ->
     findElement (sel_elementId s) (elements t) = Some e ->
     exists pre post t' d,
       tracks = pre ++ t :: post /\
       out_tracks (handleDuplicateSelected tracks [s]) = pre ++ t' :: post /\
       out_selected (handleDuplicateSelected tracks [s]) = [] /\
       out_toasts (handleDuplicateSelected tracks [s]) = [] /\
       findTrack (sel_trackId s)
         (out_tracks (handleDuplicateSelected tracks [s])) = Some t' /\
       track_id t' = track_id t /\
       track_type t' = track_type t /\
       muted t' = muted t /\
       elements t' = elements t ++ [d] /\
       ~ In (elem_id d) (map elem_id (allElements tracks)) /\
       duration d = duration e /\
       trimStart d = trimStart e /\
       trimEnd d = trimEnd e /\
       mediaId d = mediaId e /\
       elem_type d = elem_type e /\
       name d = name e /\
       startTime d = effectiveEnd e + (1 # 10)) /\
  (forall (s1 s2 : Selected) (rest : list Selected),
     handleDuplicateSelected tracks (s1 :: s2 :: rest)
     = mkOutcome tracks (s1 :: s2 :: rest) []).
Proof.
  split; [|reflexivity].
  intros s t e Hnd Ht He.
  destruct (findTrack_split _ _ _ Ht Hnd) as (pre & post & Htr & Hpre & Hpost).
  destruct (findTrack_Some _ _ _ Ht) as [_ Htid].
  set (d := elementOfSpec (freshElementId tracks) (duplicateSpec e)).
  assert (Hout : out_tracks (handleDuplicateSelected tracks [s])
                 = updateTrack (sel_trackId s)
                     (fun u => withElements u (elements u ++ [d])) tracks).
  { unfold handleDuplicateSelected.
    cbn [List.length Nat.eqb negb fold_left out_tracks].
    unfold duplicateSelectedStep.
    rewrite (lookupElement_found _ _ _ _ _ Ht He).
    unfold addElementToTrack. rewrite Ht. reflexivity. }
  exists pre, post, (withElements t (elements t ++ [d])), d.
  split; [exact Htr|]. split.
  { rewrite Hout. rewrite Htr at 1. now rewrite updateTrack_split by assumption. }
  split; [reflexivity|]. split; [reflexivity|]. split.
  { rewrite Hout, findTrack_updateTrack by reflexivity. now rewrite Ht. }
  split; [reflexivity|]. split; [reflexivity|]. split; [reflexivity|].
  split; [reflexivity|].
  split; [apply freshElementId_fresh|].
  repeat split.
Qed.

Lemma duplicate_only_single_selection_witness :
  (exists pre post t' d,
     twoTracks = pre ++ mkTrack 1%nat media [clipA; clipB] false :: post /\
     out_tracks (handleDuplicateSelected twoTracks [mkSelected 1%nat 1%nat])
     = pre ++ t' :: post /\
     out_selected (handleDuplicateSelected twoTracks [mkSelected 1%nat 1%nat])
     = [] /\
     out_toasts (handleDuplicateSelected twoTracks [mkSelected 1%nat 1%nat])
     = [] /\
     findTrack 1%nat
       (out_tracks (handleDuplicateSelected twoTracks [mkSelected 1%nat 1%nat]))
     = Some t' /\
     track_id t' = 1%nat /\
     track_type t' = media /\
     muted t' = false /\
     elements t' = [clipA; clipB] ++ [d] /\
     ~ In (elem_id d) (map elem_id (allElements twoTracks)) /\
     duration d = duration clipA /\
     trimStart d = trimStart clipA /\
     trimEnd d = trimEnd clipA /\
     mediaId d = mediaId clipA /\
     elem_type d = elem_type clipA /\
     name d = name clipA /\
     startTime d = effectiveEnd clipA + (1 # 10)) /\
  handleDuplicateSelected twoTracks
    (mkSelected 1%nat 1%nat :: mkSelected 1%nat 2%nat :: [])
  = mkOutcome twoTracks
      (mkSelected 1%nat 1%nat :: mkSelected 1%nat 2%nat :: []) [].
Proof.
  split.
  - apply (proj1 (duplicate_only_single_selection twoTracks)
             (mkSelected 1%nat 1%nat)
             (mkTrack 1%nat media [clipA; clipB] false) clipA).
    + exact (proj1 twoTracks_uniqueIds).
    + reflexivity.
    + reflexivity.
  - apply (proj2 (duplicate_only_single_selection twoTracks)).
Defined.

(** The example of the specification, on the track holding A (0 to 5) and
    B: duplicating A leaves A, B and a copy of A that starts at 5.1. *)
Example duplicate_example :
  map (fun t => map startTime (elements t))
      (out_tracks (handleDuplicateSelected twoTracks [mkSelected 1%nat 1%nat]))
  = [[0; 5; 0 + (5 - 0 - 0) + (1 # 10)]; [7]].
Proof. reflexivity. Qed.

(** An empty selection changes nothing either. *)
Lemma handleDuplicateSelected_empty (tracks : list TimelineTrack) :
  handleDuplicateSelected tracks [] = mkOutcome tracks [] [].
Proof. reflexivity. Qed.

(** ** Separating audio *)

Lemma find_audio_Some (tracks : list TimelineTrack) (u : TimelineTrack) :
  find (fun v => TrackType_eqb (track_type v) audio) tracks = Some u ->
  In u tracks /\ track_type u = audio.
Proof.
  intro H. apply find_some in H. destruct H as [Hin Hty].
  apply TrackType_eqb_eq in Hty. auto.
Qed.

Lemma In_split_unique (tracks : list TimelineTrack) (u : TimelineTrack) :
  In u tracks ->
  NoDup (map track_id tracks) ->
  exists pre post,
    tracks = pre ++ u :: post /\
    Forall (fun v => track_id v <> track_id u) pre /\
    Forall (fun v => track_id v <> track_id u) post.
Proof.
  intros Hin Hnd. destruct (in_split _ _ Hin) as (pre & post & ->).
  exists pre, post. split; [reflexivity|].
  rewrite map_app in Hnd. simpl in Hnd.
  pose proof (NoDup_remove_2 _ _ _ Hnd) as Hnot.
  split; apply Forall_forall; intros v Hv Heq; apply Hnot, in_or_app;
    [left | right]; rewrite <- Heq; now apply in_map.
Qed.

(** What the store's [separateAudio] does when it succeeds. *)
Lemma separateAudio_success (tracks : list TimelineTrack) (trackId : TrackId)
    (elementId : ElementId) (t : TimelineTrack) (e : TimelineElement) :
  NoDup (map track_id tracks) ->
  findTrack trackId tracks = Some t ->
  track_type t = media ->
  findElement elementId (elements t) = Some e ->
  exists a tracks',
    separateAudio trackId elementId tracks = (Some (elem_id a), tracks') /\
    ~ In (elem_id a) (map elem_id (allElements tracks)) /\
    startTime a = startTime e /\ trimStart a = trimStart e /\
    trimEnd a = trimEnd e /\ duration a = duration e /\
    mediaId a = mediaId e /\
    ((exists newTrackId,
        ~ In newTrackId (map track_id tracks) /\
        tracks' = tracks ++ [mkTrack newTrackId audio [a] false])
     \/
     (exists pre u post,
        tracks = pre ++ u :: post /\ track_type u = audio /\
        tracks' = pre ++ withElements u (elements u ++ [a]) :: post)).
Proof.
  intros Hnd Ht Hty He.
  exists (audioOf (freshElementId tracks) e).
  unfold separateAudio. rewrite Ht, Hty, He. cbn [TrackType_eqb].
  destruct (find (fun u => TrackType_eqb (track_type u) audio) tracks)
    as [u|] eqn:Ea.
  - destruct (find_audio_Some _ _ Ea) as [Hin Hau].
    destruct (In_split_unique _ _ Hin Hnd) as (pre & post & Htr & Hpre & Hpost).
    eexists. split; [reflexivity|].
    split; [apply freshElementId_fresh|].
    repeat split. right. exists pre, u, post.
    split; [exact Htr|]. split; [exact Hau|].
    rewrite Htr at 1. now rewrite updateTrack_split.
  - eexists. split; [reflexivity|].
    split; [apply freshElementId_fresh|].
    repeat split. left. exists (freshTrackId tracks).
    split; [apply freshTrackId_fresh | reflexivity].
Qed.

(** The store's [separateAudio] succeeds only for an element that is found
    on a media track. *)
Lemma separateAudio_Some_only_media (tracks : list TimelineTrack)
    (trackId : TrackId) (elementId : ElementId) (newId : ElementId)
    (tracks' : list TimelineTrack) :
  separateAudio trackId elementId tracks = (Some newId, tracks') ->
  exists t e,
    findTrack trackId tracks = Some t /\ track_type t = media /\
    findElement elementId (elements t) = Some e.
Proof.
  unfold separateAudio.
  destruct (findTrack trackId tracks) as [t|]; [|discriminate].
  destruct (TrackType_eqb (track_type t) media) eqn:Ety; [|discriminate].
  destruct (findElement elementId (elements t)) as [e|] eqn:Ee; [|discriminate].
  intros _. exists t, e. apply TrackType_eqb_eq in Ety.
  repeat split; auto.
Qed.

(** C7, as the code has it. With one element selected, the separate-audio
    command succeeds only when the element is found on a media track: it
    then adds to an audio track (a new one, or an existing one) one new
    element with a fresh id and the same start, trims, duration and source,
    and changes nothing else. When the selected track is not found or is
    not a media track it shows the validation message and changes nothing.
    When the track is a media track that does not hold the element it
    changes nothing and shows no message. *)
Theorem separate_audio_command
    (tracks : list TimelineTrack) (s : Selected) :
  NoDup (map track_id tracks) ->
  (forall t e,
     findTrack (sel_trackId s) tracks = Some t ->
     track_type t = media ->
     findElement (sel_elementId s) (elements t) = Some e ->
     exists a tracks',
       handleSeparateAudio tracks [s] = mkOutcome tracks' [s] [] /\
       ~ In (elem_id a) (map elem_id (allElements tracks)) /\
       startTime a = startTime e /\ trimStart a = trimStart e /\
       trimEnd a = trimEnd e /\ duration a = duration e /\
       mediaId a = mediaId e /\
       ((exists newTrackId,
           ~ In newTrackId (map track_id tracks) /\
           tracks' = tracks ++ [mkTrack newTrackId audio [a] false])
        \/
        (exists pre u post,
           tracks = pre ++ u :: post /\ track_type u = audio /\
           tracks' = pre ++ withElements u (elements u ++ [a]) :: post))) /\
  (findTrack (sel_trackId s) tracks = None \/
   (exists t, findTrack (sel_trackId s) tracks = Some t /\
              track_type t <> media) ->
   handleSeparateAudio tracks [s]
   = mkOutcome tracks [s]
       [toast_error "Select a media element to separate audio"]) /\
  (forall t,
     findTrack (sel_trackId s) tracks = Some t ->
     track_type t = media ->
     findElement (sel_elementId s) (elements t) = None ->
     handleSeparateAudio tracks [s] = mkOutcome tracks [s] []).
Proof.
  intro Hnd. split; [|split].
  - intros t e Ht Hty He.
    destruct (separateAudio_success _ _ _ _ _ Hnd Ht Hty He)
      as (a & tracks' & Hsep & Hrest).
    exists a, tracks'. split; [|exact Hrest].
    unfold handleSeparateAudio. rewrite Ht, Hty, Hsep. reflexivity.
  - intros [Hnone | (t & Ht & Hty)]; unfold handleSeparateAudio.
    + now rewrite Hnone.
    + rewrite Ht.
      destruct (TrackType_eqb (track_type t) media) eqn:E; [|reflexivity].
      apply TrackType_eqb_eq in E. contradiction.
  - intros t Ht Hty He. unfold handleSeparateAudio, separateAudio.
    rewrite Ht, Hty, He. reflexivity.
Qed.

Lemma separate_audio_command_witness :
  (exists a tracks',
     handleSeparateAudio oneClipTracks [mkSelected 1%nat 1%nat]
     = mkOutcome tracks' [mkSelected 1%nat 1%nat] [] /\
     ~ In (elem_id a) (map elem_id (allElements oneClipTracks)) /\
     startTime a = startTime clip10 /\ trimStart a = trimStart clip10 /\
     trimEnd a = trimEnd clip10 /\ duration a = duration clip10 /\
     mediaId a = mediaId clip10 /\
     ((exists newTrackId,
         ~ In newTrackId (map track_id oneClipTracks) /\
         tracks' = oneClipTracks ++ [mkTrack newTrackId audio [a] false])
      \/
      (exists pre u post,
         oneClipTracks = pre ++ u :: post /\ track_type u = audio /\
         tracks' = pre ++ withElements u (elements u ++ [a]) :: post))) /\
  handleSeparateAudio textTracks [mkSelected 1%nat 1%nat]
  = mkOutcome textTracks [mkSelected 1%nat 1%nat]
      [toast_error "Select a media element to separate audio"].
Proof.
  split.
  - apply (proj1 (separate_audio_command oneClipTracks
                    (mkSelected 1%nat 1%nat)
                    ltac:(simpl; repeat constructor; simpl; tauto))
             (mkTrack 1%nat media [clip10] false) clip10);
      reflexivity.
  - apply (proj1 (proj2 (separate_audio_command textTracks
                           (mkSelected 1%nat 1%nat)
                           ltac:(simpl; repeat constructor; simpl; tauto)))).
    right. eexists. split; [reflexivity | discriminate].
Defined.

(** C7 as stated fails: the selected track is a media track, the selected
    element is not on it (a stale selection), and the command shows no
    message. *)
Lemma separate_audio_missing_element_is_silent :
  findTrack 1%nat oneClipTracks = Some (mkTrack 1%nat media [clip10] false) /\
  findElement 7%nat [clip10] = None /\
  handleSeparateAudio oneClipTracks [mkSelected 1%nat 7%nat]
  = mkOutcome oneClipTracks [mkSelected 1%nat 7%nat] [].
Proof. repeat split. Qed.

(** On a media track the command adds the audio element to a new audio
    track, with the same time bounds. *)
Example separate_audio_example :
  exists a,
    out_tracks (handleSeparateAudio oneClipTracks [mkSelected 1%nat 1%nat])
    = oneClipTracks ++ [mkTrack 2%nat audio [a] false] /\
    startTime a = startTime clip10 /\ trimStart a = trimStart clip10 /\
    trimEnd a = trimEnd clip10.
Proof. eexists. split; [reflexivity|]. repeat split. Qed.

(** ** The duration shown by the playback *)

Lemma wellPlaced_effectiveEnd (e : TimelineElement) :
  wellPlaced e -> 0 <= effectiveEnd e.
Proof.
  unfold wellPlaced, trimOk, effectiveEnd. intros (Hs & Ha & Hb & Hc). lra.
Qed.

Lemma sum_ends_bounds (els : list TimelineElement) :
  Forall wellPlaced els ->
  0 <= fold_right (fun e acc => effectiveEnd e + acc) 0 els /\
  forall e, In e els ->
    effectiveEnd e <= fold_right (fun e acc => effectiveEnd e + acc) 0 els.
Proof.
  induction 1 as [|c els Hc _ [IH0 IH]]; simpl.
  - split; [lra | tauto].
  - apply wellPlaced_effectiveEnd in Hc. split; [lra|].
    intros e [<- | Hin]; [lra|]. specialize (IH e Hin). lra.
Qed.

Lemma Qmax_ge_l (x y : Q) : x <= Qmax x y.
Proof. apply Q.le_max_l. Qed.

Lemma Qmax_ge_r (x y : Q) : y <= Qmax x y.
Proof. apply Q.le_max_r. Qed.

(** C5. The duration written when the tracks change is the larger of the
    store's total duration and 10: it is 10 for an empty track list, never
    below 10, and at least the effective end of every element of a
    well-formed timeline. *)
Theorem duration_recompute_floor_and_extent :
  recomputeDuration [] == 10 /\
  (forall tracks,
     recomputeDuration tracks = Qmax (getTotalDuration tracks) 10 /\
     10 <= recomputeDuration tracks) /\
  (forall tracks t e,
     Forall wellPlaced (allElements tracks) ->
     In t tracks -> In e (elements t) ->
     effectiveEnd e <= recomputeDuration tracks).
Proof.
  split; [|split].
  - unfold recomputeDuration, getTotalDuration. simpl.
    apply Q.max_r. lra.
  - intro tracks. split; [reflexivity|]. apply Qmax_ge_r.
  - intros tracks t e Hwf Ht He.
    unfold recomputeDuration, getTotalDuration.
    eapply Qle_trans; [|apply Qmax_ge_l].
    apply (proj2 (sum_ends_bounds _ Hwf)).
    now apply (allElements_In tracks t e).
Qed.

Lemma duration_recompute_floor_and_extent_witness :
  effectiveEnd clip123 <= recomputeDuration longTracks.
Proof.
  apply (proj2 (proj2 duration_recompute_floor_and_extent) longTracks
           (mkTrack 1%nat media [clip123] false) clip123).
  - repeat constructor; vm_compute; discriminate.
  - left. reflexivity.
  - left. reflexivity.
Defined.

(** The examples of the specification: an empty track list gives 10, one
    element ending at 12.3 s gives at least 12.3. *)
Example duration_recompute_examples :
  recomputeDuration [] == 10 /\
  effectiveEnd clip123 == 123 # 10 /\
  123 # 10 <= recomputeDuration longTracks.
Proof. repeat split; vm_compute; try reflexivity; discriminate. Qed.

(** ** Click to seek: the time passed to [seek] *)

Lemma roundNearest_bounds (x : Q) :
  x - (1 # 2) <= inject_Z (roundNearest x) /\
  inject_Z (roundNearest x) <= x + (1 # 2).
Proof.
  unfold roundNearest. split.
  - pose proof (Qlt_floor (x + (1 # 2))) as H.
    rewrite inject_Z_plus in H. change (inject_Z 1) with 1 in H. lra.
  - apply Qfloor_le.
Qed.

Lemma roundNearest_nonneg (x : Q) : 0 <= x -> (0 <= roundNearest x)%Z.
Proof.
  intro H. unfold roundNearest.
  change 0%Z with (Qfloor 0). apply Qfloor_resp_le. lra.
Qed.

(** Snapping moves a time by at most half a frame, and keeps it
    non-negative. *)
Lemma snapTimeToFrame_bounds (time f : Q) :
  0 < f ->
  time - (1 # 2) / f <= snapTimeToFrame time f /\
  snapTimeToFrame time f <= time + (1 # 2) / f /\
  (0 <= time -> 0 <= snapTimeToFrame time f).
Proof.
  intro Hf. unfold snapTimeToFrame.
  destruct (roundNearest_bounds (time * f)) as [Hlo Hhi].
  assert (Hk : ((1 # 2) / f) * f == 1 # 2).
  { rewrite Qmult_comm. apply Qmult_div_r. lra. }
  split; [|split].
  - apply Qle_shift_div_l; [exact Hf|]. lra.
  - apply Qle_shift_div_r; [exact Hf|]. lra.
  - intro Ht. apply Qle_shift_div_l; [exact Hf|].
    rewrite Qmult_0_l. change 0 with (inject_Z 0). rewrite <- Zle_Qle.
    apply roundNearest_nonneg. now apply Qmult_le_0_compat; [|apply Qlt_le_weak].
Qed.

Lemma projectFps_pos (o : option Q) :
  (forall q, o = Some q -> 0 <= q) -> 0 < projectFps o.
Proof.
  intro H. unfold projectFps. destruct o as [q|]; [|reflexivity].
  specialize (H q eq_refl).
  destruct (Qeq_bool q 0) eqn:E; [reflexivity|].
  apply Qeq_bool_neq in E. lra.
Qed.

Lemma rawTime_bounds (PPS : Q) (env : ClickEnv) (e : MouseEvent) (v : Viewport) :
  0 <= rawTime PPS env e v /\
  (0 <= env_duration env -> rawTime PPS env e v <= env_duration env).
Proof.
  unfold rawTime. split.
  - apply Q.le_max_l.
  - intro Hd. apply Q.max_lub; [exact Hd | apply Q.le_min_l].
Qed.

(** The click handler seeks at most once, and only at the snapped time. *)
Lemma click_seek_inv (PPS : Q) (tr : MouseTracking) (env : ClickEnv)
    (e : MouseEvent) (t : Q) :
  In (seek t) (snd (handleTimelineContentClick PPS tr env e)) ->
  isMouseDown tr = true /\
  Qabs (clientX e - downX tr) <= 5 /\
  Qabs (clientY e - downY tr) <= 5 /\
  timeStamp e - downTime tr <= 500 /\
  isSelecting env = false /\ justFinishedSelecting env = false /\
  inTimelineElement e = false /\ inPlayhead e = false /\
  inTrackLabels e = false /\
  exists v,
    (if inRulerArea e then rulerContent env else tracksContent env) = Some v /\
    t = snapTimeToFrame (rawTime PPS env e v) (projectFps (fps env)) /\
    snd (handleTimelineContentClick PPS tr env e)
    = [clearSelectedElements; seek t].
Proof.
  unfold handleTimelineContentClick. cbn [snd].
  destruct (isMouseDown tr); cbn [negb]; [|intros []].
  destruct (Qlt_bool 5 (Qabs (clientX e - downX tr))) eqn:Ex;
    cbn [orb]; [intros []|].
  destruct (Qlt_bool 5 (Qabs (clientY e - downY tr))) eqn:Ey;
    cbn [orb]; [intros []|].
  destruct (Qlt_bool 500 (timeStamp e - downTime tr)) eqn:Et; [intros []|].
  destruct (isSelecting env); cbn [orb]; [intros []|].
  destruct (justFinishedSelecting env); [intros []|].
  destruct (inTimelineElement e); [intros []|].
  destruct (inPlayhead e); [intros []|].
  destruct (inTrackLabels e); [intros [H|[]]; discriminate|].
  apply Qlt_bool_false_iff in Ex, Ey, Et.
  destruct (if inRulerArea e then rulerContent env else tracksContent env)
    as [v|]; [|intros [H|[]]; discriminate].
  intros [H|[H|[]]]; [discriminate|]. injection H as <-.
  repeat split; try assumption. exists v. repeat split.
Qed.

(** C10, as the code has it. On a background click the time under the
    pointer is clamped to [0, duration] and then snapped to the nearest
    frame of the project's fps, 30 when the project has none; the time
    passed to [seek] is never negative, and it is within half a frame of
    the clamped time, so it exceeds the duration by at most half a frame. *)
Theorem click_seek_time_is_clamped_then_snapped
    (PPS : Q) (tr : MouseTracking) (env : ClickEnv) (e : MouseEvent) (t : Q) :
  0 < PPS * zoomLevel env ->
  0 <= env_duration env ->
  (forall q, fps env = Some q -> 0 <= q) ->
  In (seek t) (snd (handleTimelineContentClick PPS tr env e)) ->
  exists v,
    (if inRulerArea e then rulerContent env else tracksContent env) = Some v /\
    0 <= rawTime PPS env e v /\
    rawTime PPS env e v <= env_duration env /\
    t = snapTimeToFrame (rawTime PPS env e v) (projectFps (fps env)) /\
    (fps env = None -> projectFps (fps env) = 30) /\
    0 <= t /\
    rawTime PPS env e v - (1 # 2) / projectFps (fps env) <= t /\
    t <= rawTime PPS env e v + (1 # 2) / projectFps (fps env) /\
    t <= env_duration env + (1 # 2) / projectFps (fps env).
Proof.
  intros _ Hd Hfps Hin.
  destruct (click_seek_inv _ _ _ _ _ Hin)
    as (_ & _ & _ & _ & _ & _ & _ & _ & _ & v & Hv & Ht & _).
  exists v. split; [exact Hv|].
  destruct (rawTime_bounds PPS env e v) as [H0 Hmax]. specialize (Hmax Hd).
  destruct (snapTimeToFrame_bounds (rawTime PPS env e v) (projectFps (fps env))
              (projectFps_pos _ Hfps)) as (Hlo & Hhi & Hnn).
  rewrite <- Ht in Hlo, Hhi, Hnn.
  repeat split; try assumption.
  - intros ->. reflexivity.
  - now apply Hnn.
  - lra.
Qed.

Lemma click_seek_time_is_clamped_then_snapped_witness :
  exists v,
    (if inRulerArea clickAt600 then rulerContent lateClickEnv
     else tracksContent lateClickEnv) = Some v /\
    0 <= rawTime 50 lateClickEnv clickAt600 v /\
    rawTime 50 lateClickEnv clickAt600 v <= env_duration lateClickEnv /\
    snapTimeToFrame (1002 # 100) 30
    = snapTimeToFrame (rawTime 50 lateClickEnv clickAt600 v)
        (projectFps (fps lateClickEnv)) /\
    (fps lateClickEnv = None -> projectFps (fps lateClickEnv) = 30) /\
    0 <= snapTimeToFrame (1002 # 100) 30 /\
    rawTime 50 lateClickEnv clickAt600 v
      - (1 # 2) / projectFps (fps lateClickEnv)
    <= snapTimeToFrame (1002 # 100) 30 /\
    snapTimeToFrame (1002 # 100) 30
    <= rawTime 50 lateClickEnv clickAt600 v
       + (1 # 2) / projectFps (fps lateClickEnv) /\
    snapTimeToFrame (1002 # 100) 30
    <= env_duration lateClickEnv + (1 # 2) / projectFps (fps lateClickEnv).
Proof.
  apply (click_seek_time_is_clamped_then_snapped 50 downAt600 lateClickEnv
           clickAt600 (snapTimeToFrame (1002 # 100) 30)).
  - reflexivity.
  - vm_compute. discriminate.
  - intros q Hq. discriminate Hq.
  - right. left. vm_compute. reflexivity.
Defined.

(** C10 as stated fails: with a duration of 10.02 s a click at or beyond
    the end of the timeline seeks to frame 301 of 30 fps, 10.0333 s, which
    is later than the duration. *)
Lemma click_seek_can_exceed_duration :
  exists t,
    snd (handleTimelineContentClick 50 downAt600 lateClickEnv clickAt600)
    = [clearSelectedElements; seek t] /\
    t == 301 # 30 /\
    env_duration lateClickEnv < t.
Proof.
  eexists. split; [vm_compute; reflexivity|].
  split; vm_compute; reflexivity.
Qed.

(** ** Click to seek: which pointer-up is a click *)

Lemma handleTimelineMouseDown_cases (tr : MouseTracking) (e : MouseEvent) :
  (onBackground e = true /\
   handleTimelineMouseDown tr e
   = mkTracking true (clientX e) (clientY e) (timeStamp e))
  \/ (onBackground e = false /\ handleTimelineMouseDown tr e = tr).
Proof.
  unfold handleTimelineMouseDown, onBackground.
  destruct (negb (inTimelineElement e) && negb (inPlayhead e)
            && negb (inTrackLabels e)); auto.
Qed.

(** The tracking is armed exactly by the latest pointer-down on the
    timeline background that no click has consumed. *)
Lemma trackingAfter_armed (PPS : Q) (evs : list PointerEvent) :
  isMouseDown (trackingAfter PPS evs) = true ->
  exists pre d post,
    evs = pre ++ mouseDown d :: post /\
    onBackground d = true /\
    forallb quiet post = true /\
    trackingAfter PPS evs
    = mkTracking true (clientX d) (clientY d) (timeStamp d).
Proof.
  induction evs as [|ev evs IH] using rev_ind.
  - discriminate.
  - unfold trackingAfter in *. rewrite fold_left_app. cbn [fold_left].
    destruct ev as [d | env e]; cbn [pointerStep fst].
    + destruct (handleTimelineMouseDown_cases
                  (fold_left (fun tr ev => fst (pointerStep PPS tr ev)) evs
                     noTracking) d) as [[Hbg ->] | [Hbg ->]].
      * intros _. exists evs, d, []. repeat split. exact Hbg.
      * intro Hdown. destruct (IH Hdown) as (pre & d0 & post & -> & Hd0 & Hq & Htr).
        exists pre, d0, (post ++ [mouseDown d]).
        rewrite <- app_assoc. repeat split; try assumption.
        rewrite forallb_app, Hq. unfold quiet. simpl. now rewrite Hbg.
    + discriminate.
Qed.

(** C8, as the code has it. A pointer-up seeks only if a pointer-down on the
    timeline background was recorded and not yet consumed by a click, no
    selection box was being or had just been dragged, the pointer is at
    most 5 px away in each axis from where it went down and at most 500 ms
    have passed; whenever it seeks it has cleared the selection first.
    Otherwise no seek is performed. *)
Theorem seek_only_on_genuine_click
    (PPS : Q) (evs : list PointerEvent) (env : ClickEnv) (e : MouseEvent) :
  seeks (snd (handleTimelineContentClick PPS (trackingAfter PPS evs) env e))
  = true ->
  exists pre d post t,
    evs = pre ++ mouseDown d :: post /\
    onBackground d = true /\
    forallb quiet post = true /\
    isSelecting env = false /\ justFinishedSelecting env = false /\
    Qabs (clientX e - clientX d) <= 5 /\
    Qabs (clientY e - clientY d) <= 5 /\
    timeStamp e - timeStamp d <= 500 /\
    snd (handleTimelineContentClick PPS (trackingAfter PPS evs) env e)
    = [clearSelectedElements; seek t].
Proof.
  intro Hs. unfold seeks in Hs. apply existsb_exists in Hs.
  destruct Hs as ([|t] & Hin & Hseek); [discriminate|].
  destruct (click_seek_inv _ _ _ _ _ Hin)
    as (Hdown & Hx & Hy & Ht & Hsel & Hjust & _ & _ & _ & v & _ & _ & Hacts).
  destruct (trackingAfter_armed PPS evs Hdown)
    as (pre & d & post & Hevs & Hbg & Hq & Htr).
  rewrite Htr in Hx, Hy, Ht. cbn [downX downY downTime] in Hx, Hy, Ht.
  exists pre, d, post, t. repeat split; assumption.
Qed.

Lemma seek_only_on_genuine_click_witness :
  exists pre d post t,
    [mouseDown downAtOrigin] = pre ++ mouseDown d :: post /\
    onBackground d = true /\
    forallb quiet post = true /\
    isSelecting plainEnv = false /\ justFinishedSelecting plainEnv = false /\
    Qabs (clientX upAtFive - clientX d) <= 5 /\
    Qabs (clientY upAtFive - clientY d) <= 5 /\
    timeStamp upAtFive - timeStamp d <= 500 /\
    snd (handleTimelineContentClick 50
           (trackingAfter 50 [mouseDown downAtOrigin]) plainEnv upAtFive)
    = [clearSelectedElements; seek t].
Proof.
  apply (seek_only_on_genuine_click 50 [mouseDown downAtOrigin] plainEnv
           upAtFive).
  vm_compute. reflexivity.
Defined.

(** C8 as stated fails at the thresholds: a pointer-up exactly 5 px away in
    each axis and exactly 500 ms after the pointer-down still seeks, though
    the pointer did not move less than 5 px and the time is not below
    500 ms. *)
Lemma click_at_thresholds_still_seeks :
  seeks (snd (handleTimelineContentClick 50
                (trackingAfter 50 [mouseDown downAtOrigin]) plainEnv upAtFive))
  = true /\
  ~ Qabs (clientX upAtFive - clientX downAtOrigin) < 5 /\
  ~ Qabs (clientY upAtFive - clientY downAtOrigin) < 5 /\
  ~ timeStamp upAtFive - timeStamp downAtOrigin < 500.
Proof.
  split; [vm_compute; reflexivity|].
  repeat split; vm_compute; discriminate.
Qed.

(** Without a recorded pointer-down a click does nothing. *)
Lemma click_without_mouse_down (PPS : Q) (env : ClickEnv) (e : MouseEvent) :
  handleTimelineContentClick PPS noTracking env e = (noTracking, []).
Proof. reflexivity. Qed.

(** ** The trim invariant

    Each store operation described in the specification keeps
    [trimStart + trimEnd <= duration], with non-negative trims, on every
    element. [addElementToTrack] stores the trims it is given, so it keeps
    the invariant when its argument satisfies it. *)

Lemma trimOk_splitLeft (e : TimelineElement) (atTime : Q) :
  trimOk e -> strictlyInside e atTime = true -> trimOk (splitLeft e atTime).
Proof.
  unfold trimOk. intros (Ha & Hb & Hc) Hin.
  apply strictlyInside_iff in Hin. unfold effectiveStart, effectiveEnd in Hin.
  unfold splitLeft, effectiveEnd; simpl. repeat split; lra.
Qed.

Lemma trimOk_splitRight (newId : ElementId) (e : TimelineElement) (atTime : Q) :
  trimOk e -> strictlyInside e atTime = true ->
  trimOk (splitRight newId e atTime).
Proof.
  unfold trimOk. intros (Ha & Hb & Hc) Hin.
  apply strictlyInside_iff in Hin. unfold effectiveStart, effectiveEnd in Hin.
  unfold splitRight, effectiveStart; simpl. repeat split; lra.
Qed.

Lemma trimOk_rippleShift (removed c : TimelineElement) :
  trimOk c -> trimOk (rippleShift removed c).
Proof.
  unfold rippleShift. destruct (Qle_bool _ _); [|tauto]. intro H. exact H.
Qed.

Lemma trimOk_elementOfSpec (newId : ElementId) (s : ElementSpec) :
  specOk s -> trimOk (elementOfSpec newId s).
Proof. intro H. exact H. Qed.

Lemma trimOk_duplicateSpec (e : TimelineElement) :
  trimOk e -> specOk (duplicateSpec e).
Proof. intro H. exact H. Qed.

Lemma tracksOk_updateTrack (trackId : TrackId)
    (f : TimelineTrack -> TimelineTrack) (tracks : list TimelineTrack) :
  (forall t, In t tracks -> track_id t = trackId -> trackOk t -> trackOk (f t)) ->
  tracksOk tracks -> tracksOk (updateTrack trackId f tracks).
Proof.
  unfold tracksOk, updateTrack. intros Hf Hok.
  apply Forall_forall. intros t' Hin. apply in_map_iff in Hin.
  destruct Hin as (t & <- & Hin). rewrite Forall_forall in Hok.
  destruct (track_id t =? trackId)%nat eqn:E; [|auto].
  apply Nat.eqb_eq in E. auto.
Qed.

Lemma tracksOk_addElementToTrack (trackId : TrackId) (s : ElementSpec)
    (tracks : list TimelineTrack) :
  specOk s -> tracksOk tracks ->
  tracksOk (snd (addElementToTrack trackId s tracks)).
Proof.
  intros Hs Hok. unfold addElementToTrack.
  destruct (findTrack trackId tracks) as [t0|]; [|exact Hok]. cbn [snd].
  apply tracksOk_updateTrack; [|exact Hok].
  intros t _ _ Ht. unfold trackOk in *. simpl.
  apply Forall_app. split; [exact Ht|].
  constructor; [now apply trimOk_elementOfSpec | constructor].
Qed.

Lemma tracksOk_removeElementFromTrack (trackId : TrackId)
    (elementId : ElementId) (tracks : list TimelineTrack) :
  tracksOk tracks -> tracksOk (removeElementFromTrack trackId elementId tracks).
Proof.
  intro Hok. apply tracksOk_updateTrack; [|exact Hok].
  intros t _ _ Ht. unfold trackOk in *. simpl.
  rewrite Forall_forall in *. intros c Hc. apply filter_In in Hc.
  now apply Ht.
Qed.

Lemma tracksOk_removeElementFromTrackWithRipple (trackId : TrackId)
    (elementId : ElementId) (tracks : list TimelineTrack) :
  tracksOk tracks ->
  tracksOk (removeElementFromTrackWithRipple trackId elementId tracks).
Proof.
  intro Hok. unfold removeElementFromTrackWithRipple.
  destruct (lookupElement tracks trackId elementId) as [removed|]; [|exact Hok].
  apply tracksOk_updateTrack; [|exact Hok].
  intros t _ _ Ht. unfold trackOk in *. simpl.
  rewrite Forall_forall in *. intros c Hc. apply in_map_iff in Hc.
  destruct Hc as (c0 & <- & Hc0). apply filter_In in Hc0.
  apply trimOk_rippleShift. now apply Ht.
Qed.

(** Under unique ids the element met in the track is the element looked
    up. *)
Lemma lookupElement_unique (tracks : list TimelineTrack) (trackId : TrackId)
    (elementId : ElementId) (e c : TimelineElement) (t : TimelineTrack) :
  uniqueIds tracks ->
  lookupElement tracks trackId elementId = Some e ->
  In t tracks -> track_id t = trackId ->
  In c (elements t) -> elem_id c = elementId ->
  c = e.
Proof.
  intros [Hnd Hels] Hl Ht Htid Hc Hcid. unfold lookupElement in Hl.
  destruct (findTrack trackId tracks) as [t0|] eqn:Et; [|discriminate].
  destruct (findTrack_split _ _ _ Et Hnd) as (pre & post & Htr & Hpre & Hpost).
  assert (t = t0) as ->.
  { rewrite Htr in Ht. apply in_app_or in Ht. rewrite Forall_forall in Hpre, Hpost.
    destruct Ht as [Ht | [Ht | Ht]]; [| now symmetry |].
    - now apply Hpre in Ht.
    - now apply Hpost in Ht. }
  destruct (findTrack_Some _ _ _ Et) as [Hin0 _].
  rewrite Forall_forall in Hels. specialize (Hels t0 Hin0).
  destruct (findElement_split _ _ _ Hl Hels) as (ep & eq & Hes & Hep & Heq).
  rewrite Hes in Hc. apply in_app_or in Hc. rewrite Forall_forall in Hep, Heq.
  destruct Hc as [Hc | [Hc | Hc]]; [| now symmetry |].
  - now apply Hep in Hc.
  - now apply Heq in Hc.
Qed.

Lemma tracksOk_splitElement (trackId : TrackId) (elementId : ElementId)
    (atTime : Q) (tracks : list TimelineTrack) :
  uniqueIds tracks -> tracksOk tracks ->
  tracksOk (snd (splitElement trackId elementId atTime tracks)).
Proof.
  intros Hu Hok. unfold splitElement.
  destruct (lookupElement tracks trackId elementId) as [e|] eqn:El; [|exact Hok].
  destruct (strictlyInside e atTime) eqn:Ein; [|exact Hok]. cbn [snd].
  apply tracksOk_updateTrack; [|exact Hok].
  intros t Hin Htid Ht. unfold trackOk in *. simpl.
  rewrite Forall_forall in *. intros c' Hc'. apply in_flat_map in Hc'.
  destruct Hc' as (c & Hc & Hc').
  destruct (elem_id c =? elementId)%nat eqn:E.
  - apply Nat.eqb_eq in E.
    assert (c = e) as -> by (eapply lookupElement_unique; eauto).
    specialize (Ht e Hc).
    destruct Hc' as [<- | [<- | []]].
    + now apply trimOk_splitLeft.
    + now apply trimOk_splitRight.
  - destruct Hc' as [<- | []]. auto.
Qed.

Lemma tracksOk_updateElement (trackId : TrackId) (elementId : ElementId)
    (f : TimelineElement -> TimelineElement) (e : TimelineElement)
    (tracks : list TimelineTrack) :
  uniqueIds tracks ->
  lookupElement tracks trackId elementId = Some e ->
  trimOk (f e) ->
  tracksOk tracks -> tracksOk (updateElement trackId elementId f tracks).
Proof.
  intros Hu El Hf Hok. apply tracksOk_updateTrack; [|exact Hok].
  intros t Hin Htid Ht. unfold trackOk in *. simpl.
  rewrite Forall_forall in *. intros c' Hc'. apply in_map_iff in Hc'.
  destruct Hc' as (c & <- & Hc).
  destruct (elem_id c =? elementId)%nat eqn:E; [|auto].
  apply Nat.eqb_eq in E.
  assert (c = e) as -> by (eapply lookupElement_unique; eauto).
  exact Hf.
Qed.

Lemma lookupElement_In (tracks : list TimelineTrack) (trackId : TrackId)
    (elementId : ElementId) (e : TimelineElement) :
  lookupElement tracks trackId elementId = Some e ->
  In e (allElements tracks).
Proof.
  unfold lookupElement.
  destruct (findTrack trackId tracks) as [t|] eqn:Et; [|discriminate].
  intro He. apply findTrack_Some in Et. apply findElement_Some in He.
  apply (allElements_In tracks t e); tauto.
Qed.

Lemma tracksOk_allElements (tracks : list TimelineTrack) :
  tracksOk tracks <-> Forall trimOk (allElements tracks).
Proof.
  unfold tracksOk, trackOk, allElements. rewrite !Forall_forall. split.
  - intros H e He. apply in_flat_map in He. destruct He as (t & Ht & He).
    specialize (H t Ht). rewrite Forall_forall in H. auto.
  - intros H t Ht. apply Forall_forall. intros e He. apply H.
    apply in_flat_map. eauto.
Qed.

Lemma tracksOk_splitAndKeepLeft (trackId : TrackId) (elementId : ElementId)
    (atTime : Q) (tracks : list TimelineTrack) :
  uniqueIds tracks -> tracksOk tracks ->
  tracksOk (splitAndKeepLeft trackId elementId atTime tracks).
Proof.
  intros Hu Hok. unfold splitAndKeepLeft.
  destruct (lookupElement tracks trackId elementId) as [e|] eqn:El; [|exact Hok].
  destruct (strictlyInside e atTime) eqn:Ein; [|exact Hok].
  apply (tracksOk_updateElement _ _ _ e); auto.
  apply trimOk_splitLeft; [|exact Ein].
  apply tracksOk_allElements in Hok. rewrite Forall_forall in Hok.
  apply Hok. eapply lookupElement_In; eauto.
Qed.

Lemma tracksOk_splitAndKeepRight (trackId : TrackId) (elementId : ElementId)
    (atTime : Q) (tracks : list TimelineTrack) :
  uniqueIds tracks -> tracksOk tracks ->
  tracksOk (splitAndKeepRight trackId elementId atTime tracks).
Proof.
  intros Hu Hok. unfold splitAndKeepRight.
  destruct (lookupElement tracks trackId elementId) as [e|] eqn:El; [|exact Hok].
  destruct (strictlyInside e atTime) eqn:Ein; [|exact Hok].
  apply (tracksOk_updateElement _ _ _ e); auto.
  apply trimOk_splitRight; [|exact Ein].
  apply tracksOk_allElements in Hok. rewrite Forall_forall in Hok.
  apply Hok. eapply lookupElement_In; eauto.
Qed.

Lemma tracksOk_separateAudio (trackId : TrackId) (elementId : ElementId)
    (tracks : list TimelineTrack) :
  tracksOk tracks -> tracksOk (snd (separateAudio trackId elementId tracks)).
Proof.
  intro Hok. unfold separateAudio.
  destruct (findTrack trackId tracks) as [t|] eqn:Et; [|exact Hok].
  destruct (TrackType_eqb (track_type t) media); [|exact Hok].
  destruct (findElement elementId (elements t)) as [e|] eqn:Ee; [|exact Hok].
  assert (He : trimOk e).
  { apply tracksOk_allElements in Hok. rewrite Forall_forall in Hok.
    apply Hok. apply findTrack_Some in Et. apply findElement_Some in Ee.
    apply (allElements_In tracks t e); tauto. }
  destruct (find _ tracks) as [u|]; cbn [snd].
  - apply tracksOk_updateTrack; [|exact Hok].
    intros v _ _ Hv. unfold trackOk in *. simpl.
    apply Forall_app. split; [exact Hv|]. constructor; [exact He|constructor].
  - unfold tracksOk. apply Forall_app. split; [exact Hok|].
    constructor; [|constructor]. unfold trackOk. simpl.
    constructor; [exact He|constructor].
Qed.

(** The duplicate command keeps the invariant: the copy has the trims and
    the duration of the original. *)
Lemma tracksOk_handleDuplicateSelected (tracks : list TimelineTrack)
    (sel : list Selected) :
  tracksOk tracks -> tracksOk (out_tracks (handleDuplicateSelected tracks sel)).
Proof.
  intro Hok. unfold handleDuplicateSelected.
  destruct sel as [|s sel]; [exact Hok|].
  destruct (negb (List.length (s :: sel) =? 1)%nat); [exact Hok|].
  cbn [out_tracks].
  assert (Hfold : forall l cur, tracksOk cur ->
            tracksOk (fold_left (duplicateSelectedStep tracks) l cur)).
  { induction l as [|x l IH]; intros cur Hcur; [exact Hcur|].
    cbn [fold_left]. apply IH. unfold duplicateSelectedStep.
    destruct (lookupElement tracks (sel_trackId x) (sel_elementId x))
      as [e|] eqn:El; [|exact Hcur].
    apply tracksOk_addElementToTrack; [|exact Hcur].
    apply trimOk_duplicateSpec.
    apply tracksOk_allElements in Hok. rewrite Forall_forall in Hok.
    apply Hok. eapply lookupElement_In; eauto. }
  now apply Hfold.
Qed.

(** ** Dropping files: what is added and what is reported *)

Lemma sameFile_true_iff (it : ProcessedItem) (m : MediaItem) :
  sameFile it m = true
  <-> item_name m = proc_name it /\ item_url m = proc_url it.
Proof.
  unfold sameFile. rewrite andb_true_iff, !String.eqb_eq. tauto.
Qed.

Lemma sameFile_other (a b : ProcessedItem) (m : MediaItem) :
  differentFile a b -> sameFile a m = true -> sameFile b m = false.
Proof.
  intros Hd Ha. apply sameFile_true_iff in Ha. destruct Ha as [Hn Hu].
  destruct (sameFile b m) eqn:Eb; [|reflexivity].
  apply sameFile_true_iff in Eb. destruct Eb as [Hn' Hu'].
  exfalso. apply Hd. split; congruence.
Qed.

Lemma find_none_of (it : ProcessedItem) (l : list MediaItem) :
  (forall m, In m l -> sameFile it m = false) -> find (sameFile it) l = None.
Proof.
  intro H. destruct (find (sameFile it) l) as [m|] eqn:E; [|reflexivity].
  apply find_some in E. destruct E as [Hin Hs]. rewrite (H m Hin) in Hs.
  discriminate.
Qed.

Lemma find_appended (it : ProcessedItem) (l : list MediaItem) (m : MediaItem) :
  (forall m', In m' l -> sameFile it m' = false) ->
  sameFile it m = true ->
  find (sameFile it) (l ++ [m]) = Some m.
Proof.
  intros Hl Hm. induction l as [|x l IH]; simpl.
  - now rewrite Hm.
  - rewrite (Hl x (or_introl eq_refl)). apply IH.
    intros m' Hm'. apply Hl. now right.
Qed.

Section DropLoop.

Variable addMediaItem :
  list MediaItem -> ProcessedItem -> Settled * list MediaItem.
Variable addMediaToNewTrack :
  MediaItem -> list TimelineTrack -> list TimelineTrack.

Lemma addProcessedItems_fulfilled (it : ProcessedItem)
    (rest : list ProcessedItem) (mediaItems cur : list MediaItem)
    (tracks : list TimelineTrack) :
  addMediaItem mediaItems it = (fulfilled, cur) ->
  addProcessedItems addMediaItem addMediaToNewTrack (it :: rest)
    mediaItems tracks
  = addProcessedItems addMediaItem addMediaToNewTrack rest cur
      (match find (sameFile it) cur with
       | Some m => addMediaToNewTrack m tracks
       | None => tracks
       end).
Proof.
  intro H. cbn [addProcessedItems]. rewrite H.
  destruct (find (sameFile it) cur); reflexivity.
Qed.

Lemma addProcessedItems_rejected (it : ProcessedItem)
    (rest : list ProcessedItem) (mediaItems cur : list MediaItem)
    (tracks : list TimelineTrack) :
  addMediaItem mediaItems it = (rejected, cur) ->
  addProcessedItems addMediaItem addMediaToNewTrack (it :: rest)
    mediaItems tracks
  = (rejected, cur, tracks).
Proof. intro H. cbn [addProcessedItems]. now rewrite H. Qed.

(** The loop is left with a rejection exactly when it reaches an item whose
    [addMediaItem] is rejected, all adds before it having been fulfilled. *)
Lemma addProcessedItems_rejected_iff (items : list ProcessedItem) :
  forall mediaItems tracks,
    fst (fst (addProcessedItems addMediaItem addMediaToNewTrack
                items mediaItems tracks)) = rejected
    <-> exists done it rest m t,
          items = done ++ it :: rest /\
          addProcessedItems addMediaItem addMediaToNewTrack
            done mediaItems tracks = (fulfilled, m, t) /\
          fst (addMediaItem m it) = rejected.
Proof.
  induction items as [|it0 rest0 IH]; intros mediaItems tracks.
  - cbn [addProcessedItems fst]. split; [discriminate|].
    intros (done & it & rest & m & t & H & _). destruct done; discriminate.
  - destruct (addMediaItem mediaItems it0) as [st cur] eqn:Ea. destruct st.
    + rewrite (addProcessedItems_fulfilled _ _ _ _ _ Ea), IH. split.
      * intros (done & it & rest & m & t & -> & Hd & Hr).
        exists (it0 :: done), it, rest, m, t.
        split; [reflexivity|]. split; [|exact Hr].
        now rewrite (addProcessedItems_fulfilled _ _ _ _ _ Ea).
      * intros (done & it & rest & m & t & Hsplit & Hd & Hr).
        destruct done as [|d done].
        -- cbn [app] in Hsplit. injection Hsplit as <- <-.
           cbn [addProcessedItems] in Hd. injection Hd as <- <-.
           rewrite Ea in Hr. discriminate.
        -- cbn [app] in Hsplit. injection Hsplit as <- ->.
           rewrite (addProcessedItems_fulfilled _ _ _ _ _ Ea) in Hd.
           exists done, it, rest, m, t. auto.
    + rewrite (addProcessedItems_rejected _ _ _ _ _ Ea). cbn [fst].
      split; [intros _ | reflexivity].
      exists [], it0, rest0, mediaItems, tracks.
      split; [reflexivity|]. split; [reflexivity|]. now rewrite Ea.
Qed.

(** An item that [addMediaItem] rejects whatever the media list holds ends
    the loop with a rejection, at that item or before. *)
Lemma addProcessedItems_always_rejected (items : list ProcessedItem)
    (it : ProcessedItem) :
  In it items ->
  (forall mediaItems, fst (addMediaItem mediaItems it) = rejected) ->
  forall mediaItems tracks,
    fst (fst (addProcessedItems addMediaItem addMediaToNewTrack
                items mediaItems tracks)) = rejected.
Proof.
  intros Hin Hrej.
  induction items as [|it0 rest0 IH]; intros mediaItems tracks;
    [destruct Hin|].
  destruct (addMediaItem mediaItems it0) as [st cur] eqn:Ea. destruct st.
  - rewrite (addProcessedItems_fulfilled _ _ _ _ _ Ea).
    destruct Hin as [-> | Hin]; [|now apply IH].
    specialize (Hrej mediaItems). rewrite Ea in Hrej. discriminate.
  - now rewrite (addProcessedItems_rejected _ _ _ _ _ Ea).
Qed.

(** Whatever the collaborators do, the loop changes the tracks only by
    calling [addMediaToNewTrack], each time on a record it found under the
    name and url of a dropped item. *)
Lemma addProcessedItems_tracks (items : list ProcessedItem) :
  forall mediaItems tracks,
    exists made : list (ProcessedItem * MediaItem),
      snd (addProcessedItems addMediaItem addMediaToNewTrack
             items mediaItems tracks)
      = fold_left (fun ts p => addMediaToNewTrack (snd p) ts) made tracks /\
      Forall (fun p => In (fst p) items /\ sameFile (fst p) (snd p) = true)
             made.
Proof.
  induction items as [|it0 rest0 IH]; intros mediaItems tracks.
  - exists []. split; [reflexivity | constructor].
  - destruct (addMediaItem mediaItems it0) as [st cur] eqn:Ea. destruct st.
    + rewrite (addProcessedItems_fulfilled _ _ _ _ _ Ea).
      destruct (find (sameFile it0) cur) as [m|] eqn:Ef.
      * destruct (IH cur (addMediaToNewTrack m tracks)) as (made & Ht & Hall).
        exists ((it0, m) :: made). split; [exact Ht|].
        constructor.
        -- split; [now left|]. apply find_some in Ef. exact (proj2 Ef).
        -- eapply Forall_impl; [|exact Hall].
           intros p [Hp Hs]. split; [now right | exact Hs].
      * destruct (IH cur tracks) as (made & Ht & Hall).
        exists made. split; [exact Ht|].
        eapply Forall_impl; [|exact Hall].
        intros p [Hp Hs]. split; [now right | exact Hs].
    + rewrite (addProcessedItems_rejected _ _ _ _ _ Ea).
      exists []. split; [reflexivity | constructor].
Qed.

End DropLoop.

Section DropProperties.

Variable addMediaItem :
  list MediaItem -> ProcessedItem -> Settled * list MediaItem.
Variable addMediaToNewTrack :
  MediaItem -> list TimelineTrack -> list TimelineTrack.
Hypothesis addMediaItem_allOrNothing : allOrNothing addMediaItem.
Hypothesis addMediaToNewTrack_addsOneTrack : addsOneTrack addMediaToNewTrack.

(** The loop adds a prefix-closed selection of the items, each of them to
    the media list and to a track of its own; the others are in neither. *)
Lemma addProcessedItems_all_or_nothing (items : list ProcessedItem) :
  forall mediaItems tracks,
    newFiles items mediaItems ->
    exists added : list Added,
      snd (fst (addProcessedItems addMediaItem addMediaToNewTrack
                  items mediaItems tracks))
      = mediaItems ++ map added_record added /\
      snd (addProcessedItems addMediaItem addMediaToNewTrack
             items mediaItems tracks)
      = tracks ++ map added_track added /\
      (forall a, In a added ->
         In (added_item a) items /\
         sameFile (added_item a) (added_record a) = true /\
         exists e, elements (added_track a) = [e] /\
                   mediaId e = item_id (added_record a)) /\
      (forall it, In it items ->
         (exists a, In a added /\ added_item a = it) \/
         (forall m,
            In m (mediaItems ++ map added_record added) ->
            sameFile it m = false)).
Proof.
  induction items as [|it rest IH]; intros mediaItems tracks [Hpair Hnew].
  - exists []. simpl. rewrite !app_nil_r.
    split; [reflexivity|]. split; [reflexivity|].
    split; intros ? [].
  - inversion Hpair as [|? ? Hit Hrest]; subst.
    rewrite Forall_forall in Hit.
    cbn [addProcessedItems].
    destruct (addMediaItem_allOrNothing mediaItems it)
      as [Hsame | (Hful & m & Happ & Hname & Hurl)].
    + (* the media list is as it was *)
      destruct (addMediaItem mediaItems it) as [s cur]. cbn [snd] in Hsame.
      subst cur.
      assert (Hnone : find (sameFile it) mediaItems = None).
      { apply find_none_of. intros m Hm. apply Hnew; [now left | exact Hm]. }
      destruct s.
      * rewrite Hnone.
        destruct (IH mediaItems tracks) as (added & Hm & Ht & Hadd & Hall).
        { split; [exact Hrest|]. intros it' m' Hi Hm'.
          apply Hnew; [now right | exact Hm']. }
        exists added. split; [exact Hm|]. split; [exact Ht|]. split.
        -- intros a Ha. destruct (Hadd a Ha) as (Hi & Hrec). split; [now right|].
           exact Hrec.
        -- intros it' [<- | Hi]; [|now apply Hall].
           right. intros m' Hm'. apply in_app_or in Hm'.
           destruct Hm' as [Hm' | Hm']; [apply Hnew; [now left | exact Hm']|].
           apply in_map_iff in Hm'. destruct Hm' as (a & <- & Ha).
           destruct (Hadd a Ha) as (Hi & Hs & _).
           apply (sameFile_other (added_item a) it); [|exact Hs].
           intros [Hn Hu]. apply (Hit (added_item a) Hi). split; congruence.
      * exists []. cbn [fst snd map]. rewrite !app_nil_r.
        split; [reflexivity|]. split; [reflexivity|]. split; [intros ? []|].
        intros it' Hi. right. intros m' Hm'. now apply Hnew.
    + (* one record was appended *)
      destruct (addMediaItem mediaItems it) as [s cur].
      cbn [fst snd] in Hful, Happ. subst s cur.
      assert (Hm : sameFile it m = true)
        by (apply sameFile_true_iff; now split).
      rewrite (find_appended it mediaItems m);
        [| intros m' Hm'; apply Hnew; [now left | exact Hm'] | exact Hm].
      destruct (addMediaToNewTrack_addsOneTrack m tracks)
        as (t & e & Htr & He & Hid).
      rewrite Htr.
      destruct (IH (mediaItems ++ [m]) (tracks ++ [t]))
        as (added & Hmed & Ht & Hadd & Hall).
      { split; [exact Hrest|]. intros it' m' Hi Hm'.
        apply in_app_or in Hm'. destruct Hm' as [Hm' | [<- | []]].
        - apply Hnew; [now right | exact Hm'].
        - apply (sameFile_other it it'); [|exact Hm]. now apply Hit. }
      exists ((it, m, t) :: added). cbn [map added_record added_track fst snd].
      split; [rewrite Hmed, <- app_assoc; reflexivity|].
      split; [rewrite Ht, <- app_assoc; reflexivity|]. split.
      * intros a [<- | Ha].
        -- cbn [added_item added_record added_track fst snd].
           split; [now left|]. split; [exact Hm|]. now exists e.
        -- destruct (Hadd a Ha) as (Hi & Hrec). split; [now right | exact Hrec].
      * intros it' [<- | Hi].
        -- left. exists (it, m, t). split; [now left | reflexivity].
        -- destruct (Hall it' Hi) as [(a & Ha & Hai) | Hno].
           ++ left. exists a. split; [now right | exact Hai].
           ++ right. intros m' Hm'. apply Hno.
              rewrite <- app_assoc. exact Hm'.
Qed.

End DropProperties.

(** C9. When files are dropped on the timeline and the processing is
    rejected, nothing is added and the error message is shown. When it
    completes, the items are added in order and nothing is undone: the
    message is shown exactly when the loop reaches an item whose
    [addMediaItem] is rejected, so always when some item is rejected whatever
    the media list holds; the tracks change only by [addMediaToNewTrack] on
    records found under the name and url of a dropped item; and when the
    media store's [addMediaItem] is all or nothing, the timeline store's
    [addMediaToNewTrack] appends one track for the record and the files are
    new to the media list, every processed item is added in full, a record
    in the media list and a track of its own that refers to it, or not at
    all. [isProcessing] is false in the end. *)
Theorem drop_adds_in_full_or_not_at_all
    (addMediaItem : list MediaItem -> ProcessedItem -> Settled * list MediaItem)
    (addMediaToNewTrack : MediaItem -> list TimelineTrack -> list TimelineTrack)
    (processed : option (list ProcessedItem))
    (mediaItems : list MediaItem) (tracks : list TimelineTrack) :
  let result :=
    handleDropFiles addMediaItem addMediaToNewTrack true processed
      mediaItems tracks in
  drop_isProcessing result = false /\
  (processed = None ->
   result = mkDropResult mediaItems tracks
              [toast_error "Failed to process dropped files"] false) /\
  (forall items,
     processed = Some items ->
     (drop_toasts result = [toast_error "Failed to process dropped files"]
      <-> exists done it rest m t,
            items = done ++ it :: rest /\
            addProcessedItems addMediaItem addMediaToNewTrack
              done mediaItems tracks = (fulfilled, m, t) /\
            fst (addMediaItem m it) = rejected) /\
     (drop_toasts result = []
      \/ drop_toasts result
         = [toast_error "Failed to process dropped files"]) /\
     ((exists it,
         In it items /\
         forall current, fst (addMediaItem current it) = rejected) ->
      drop_toasts result = [toast_error "Failed to process dropped files"]) /\
     (exists made : list (ProcessedItem * MediaItem),
        drop_tracks result
        = fold_left (fun ts p => addMediaToNewTrack (snd p) ts) made tracks /\
        Forall (fun p => In (fst p) items /\ sameFile (fst p) (snd p) = true)
               made) /\
     (allOrNothing addMediaItem ->
      addsOneTrack addMediaToNewTrack ->
      newFiles items mediaItems ->
      exists added : list Added,
        drop_media result = mediaItems ++ map added_record added /\
        drop_tracks result = tracks ++ map added_track added /\
        (forall a, In a added ->
           In (added_item a) items /\
           sameFile (added_item a) (added_record a) = true /\
           exists e, elements (added_track a) = [e] /\
                     mediaId e = item_id (added_record a)) /\
        (forall it, In it items ->
           (exists a, In a added /\ added_item a = it) \/
           (forall m,
              In m (mediaItems ++ map added_record added) ->
              sameFile it m = false)))).
Proof.
  cbv zeta. unfold handleDropFiles. cbn [negb].
  split; [|split].
  - destruct processed as [items|]; [|reflexivity].
    destruct (addProcessedItems addMediaItem addMediaToNewTrack items
                mediaItems tracks) as [[[|] m] t]; reflexivity.
  - intros ->. reflexivity.
  - intros items ->.
    pose proof (addProcessedItems_rejected_iff addMediaItem addMediaToNewTrack
                  items mediaItems tracks) as Hiff.
    pose proof (addProcessedItems_always_rejected addMediaItem
                  addMediaToNewTrack items) as Halways.
    pose proof (addProcessedItems_tracks addMediaItem addMediaToNewTrack
                  items mediaItems tracks) as Hmade.
    pose proof (fun Hadd Htrack =>
                  addProcessedItems_all_or_nothing addMediaItem
                    addMediaToNewTrack Hadd Htrack items mediaItems tracks)
      as Hatomic.
    assert (Hrej : forall it,
              In it items ->
              (forall current, fst (addMediaItem current it) = rejected) ->
              fst (fst (addProcessedItems addMediaItem addMediaToNewTrack
                          items mediaItems tracks)) = rejected)
      by (intros it Hin Hr; now apply (Halways it)).
    clear Halways.
    destruct (addProcessedItems addMediaItem addMediaToNewTrack items
                mediaItems tracks) as [[st m] t].
    cbn [fst snd] in Hiff, Hmade, Hatomic, Hrej.
    split; [|split; [|split; [|split]]].
    + rewrite <- Hiff. destruct st; cbn [drop_toasts];
        split; (discriminate || reflexivity).
    + destruct st; [left | right]; reflexivity.
    + intros (it & Hin & Hr). rewrite (Hrej it Hin Hr). reflexivity.
    + destruct st; exact Hmade.
    + intros Hadd Htrack Hnew.
      destruct (Hatomic Hadd Htrack Hnew) as (added & Hm & Ht & Hrest).
      subst m t. exists added.
      destruct st; cbn [drop_media drop_tracks];
        (split; [reflexivity|]); (split; [reflexivity|]); exact Hrest.
Qed.

Lemma sampleAddMediaItem_allOrNothing : allOrNothing sampleAddMediaItem.
Proof.
  intros mediaItems it. unfold sampleAddMediaItem.
  destruct (proc_name it =? "broken")%string.
  - left. reflexivity.
  - right. split; [reflexivity|]. eexists. repeat split.
Defined.

Lemma sampleAddMediaToNewTrack_addsOneTrack :
  addsOneTrack sampleAddMediaToNewTrack.
Proof.
  intros m tracks. unfold sampleAddMediaToNewTrack.
  eexists. eexists. repeat split.
Defined.

Lemma droppedFiles_newFiles : newFiles droppedFiles [].
Proof.
  split.
  - unfold droppedFiles, differentFile.
    repeat constructor; simpl; intros [H _]; discriminate.
  - intros it m _ [].
Defined.

Lemma drop_adds_in_full_or_not_at_all_witness :
  let result :=
    handleDropFiles sampleAddMediaItem sampleAddMediaToNewTrack true
      (Some droppedFiles) [] [] in
  drop_toasts result = [toast_error "Failed to process dropped files"] /\
  exists added : list Added,
    drop_media result = [] ++ map added_record added /\
    drop_tracks result = [] ++ map added_track added /\
    (forall a, In a added ->
       In (added_item a) droppedFiles /\
       sameFile (added_item a) (added_record a) = true /\
       exists e, elements (added_track a) = [e] /\
                 mediaId e = item_id (added_record a)) /\
    (forall it, In it droppedFiles ->
       (exists a, In a added /\ added_item a = it) \/
       (forall m,
          In m ([] ++ map added_record added) ->
          sameFile it m = false)).
Proof.
  destruct (proj2 (proj2 (drop_adds_in_full_or_not_at_all sampleAddMediaItem
                            sampleAddMediaToNewTrack (Some droppedFiles)
                            [] []))
              droppedFiles eq_refl)
    as (_ & _ & Hmessage & _ & Hatomic).
  split.
  - apply Hmessage. exists (mkProcessed "broken" "blob:2" None).
    split; [right; left; reflexivity | intro current; reflexivity].
  - apply Hatomic.
    + exact sampleAddMediaItem_allOrNothing.
    + exact sampleAddMediaToNewTrack_addsOneTrack.
    + exact droppedFiles_newFiles.
Defined.

(** The handler undoes nothing: when [addMediaItem] has put the record in
    the media list before it is rejected, the record stays there and no
    track is made for it. *)
Lemma drop_can_leave_a_record_without_a_track :
  exists m,
    handleDropFiles appendThenReject sampleAddMediaToNewTrack true
      (Some [oneFile]) [] []
    = mkDropResult [m] []
        [toast_error "Failed to process dropped files"] false /\
    sameFile oneFile m = true.
Proof. eexists. split; reflexivity. Qed.

(** The run of the example: the first file is added in full, the second is
    rejected and the message is shown, the third is never reached. *)
Example drop_example :
  exists m t,
    handleDropFiles sampleAddMediaItem sampleAddMediaToNewTrack true
      (Some droppedFiles) [] []
    = mkDropResult [m] [t]
        [toast_error "Failed to process dropped files"] false /\
    item_name m = "a.mp4"%string /\
    map mediaId (elements t) = [item_id m].
Proof. eexists. eexists. split; [reflexivity|]. split; reflexivity. Qed.

(** Without an open project nothing is processed. *)
Lemma handleDropFiles_no_project
    (addMediaItem : list MediaItem -> ProcessedItem -> Settled * list MediaItem)
    (addMediaToNewTrack : MediaItem -> list TimelineTrack -> list TimelineTrack)
    (processed : option (list ProcessedItem))
    (mediaItems : list MediaItem) (tracks : list TimelineTrack) :
  handleDropFiles addMediaItem addMediaToNewTrack false processed
    mediaItems tracks
  = mkDropResult mediaItems tracks [toast_error "No active project"] false.
Proof. reflexivity. Qed.

(** ** Further facts about the toolbar commands *)

(** The split command on one selected element with the playhead strictly
    inside it runs the store's split and shows no message. *)
Lemma handleSplitSelected_single_inside (tracks : list TimelineTrack)
    (s : Selected) (currentTime : Q) (e : TimelineElement) :
  lookupElement tracks (sel_trackId s) (sel_elementId s) = Some e ->
  effectiveStart e < currentTime -> currentTime < effectiveEnd e ->
  handleSplitSelected tracks [s] currentTime
  = mkOutcome
      (snd (splitElement (sel_trackId s) (sel_elementId s) currentTime tracks))
      [s] [].
Proof.
  intros Hl Hlo Hhi. unfold handleSplitSelected. cbn [fold_left].
  unfold splitSelectedStep. rewrite Hl.
  pose proof (proj2 (strictlyInside_iff e currentTime) (conj Hlo Hhi)) as Hin.
  unfold strictlyInside, effectiveStart, effectiveEnd in Hin. rewrite Hin.
  unfold splitElement. rewrite Hl.
  unfold strictlyInside, effectiveStart, effectiveEnd. rewrite Hin.
  reflexivity.
Qed.

(** The message of the split command is shown only when nothing was split:
    with A and C selected and the playhead inside A alone, A is split and
    no message is shown. *)
Example handleSplitSelected_partial :
  exists tracks',
    handleSplitSelected twoTracks
      [mkSelected 1%nat 1%nat; mkSelected 2%nat 3%nat] 2
    = mkOutcome tracks' [mkSelected 1%nat 1%nat; mkSelected 2%nat 3%nat] [] /\
    map (fun t => List.length (elements t)) tracks' = [3%nat; 1%nat].
Proof. eexists. split; reflexivity. Qed.

(** With ripple editing on, deleting one selected element is the store's
    ripple removal, and the selection is cleared. *)
Lemma handleDeleteSelected_ripple (tracks : list TimelineTrack) (s : Selected) :
  handleDeleteSelected true tracks [s]
  = mkOutcome
      (removeElementFromTrackWithRipple (sel_trackId s) (sel_elementId s) tracks)
      [] [].
Proof. reflexivity. Qed.

Lemma handleDeleteSelected_plain (tracks : list TimelineTrack) (s : Selected) :
  handleDeleteSelected false tracks [s]
  = mkOutcome (removeElementFromTrack (sel_trackId s) (sel_elementId s) tracks)
      [] [].
Proof. reflexivity. Qed.

(** Keeping the left or the right part asks for exactly one selected
    element and for the playhead strictly inside it. *)
Lemma handleSplitAndKeepLeft_outside (tracks : list TimelineTrack)
    (s : Selected) (currentTime : Q) (e : TimelineElement) :
  lookupElement tracks (sel_trackId s) (sel_elementId s) = Some e ->
  currentTime <= effectiveStart e \/ effectiveEnd e <= currentTime ->
  handleSplitAndKeepLeft tracks [s] currentTime
  = mkOutcome tracks [s]
      [toast_error "Playhead must be within selected element"].
Proof.
  intros Hl Hout. unfold handleSplitAndKeepLeft. rewrite Hl.
  assert (H : Qle_bool currentTime (startTime e)
              || Qle_bool
                   (startTime e + (duration e - trimStart e - trimEnd e))
                   currentTime = true).
  { apply orb_true_iff. rewrite !Qle_bool_iff. exact Hout. }
  now rewrite H.
Qed.

Lemma handleSplitAndKeepRight_outside (tracks : list TimelineTrack)
    (s : Selected) (currentTime : Q) (e : TimelineElement) :
  lookupElement tracks (sel_trackId s) (sel_elementId s) = Some e ->
  currentTime <= effectiveStart e \/ effectiveEnd e <= currentTime ->
  handleSplitAndKeepRight tracks [s] currentTime
  = mkOutcome tracks [s]
      [toast_error "Playhead must be within selected element"].
Proof.
  intros Hl Hout. unfold handleSplitAndKeepRight. rewrite Hl.
  assert (H : Qle_bool currentTime (startTime e)
              || Qle_bool
                   (startTime e + (duration e - trimStart e - trimEnd e))
                   currentTime = true).
  { apply orb_true_iff. rewrite !Qle_bool_iff. exact Hout. }
  now rewrite H.
Qed.

(** The commands keep the trim invariant. *)
Lemma tracksOk_handleSplitAndKeepLeft (tracks : list TimelineTrack)
    (sel : list Selected) (currentTime : Q) :
  uniqueIds tracks -> tracksOk tracks ->
  tracksOk (out_tracks (handleSplitAndKeepLeft tracks sel currentTime)).
Proof.
  intros Hu Hok. unfold handleSplitAndKeepLeft.
  destruct sel as [|s [|s' sel]]; try exact Hok.
  destruct (lookupElement tracks (sel_trackId s) (sel_elementId s));
    [|exact Hok].
  destruct (_ || _); [exact Hok|]. cbn [out_tracks].
  now apply tracksOk_splitAndKeepLeft.
Qed.

Lemma tracksOk_handleSplitAndKeepRight (tracks : list TimelineTrack)
    (sel : list Selected) (currentTime : Q) :
  uniqueIds tracks -> tracksOk tracks ->
  tracksOk (out_tracks (handleSplitAndKeepRight tracks sel currentTime)).
Proof.
  intros Hu Hok. unfold handleSplitAndKeepRight.
  destruct sel as [|s [|s' sel]]; try exact Hok.
  destruct (lookupElement tracks (sel_trackId s) (sel_elementId s));
    [|exact Hok].
  destruct (_ || _); [exact Hok|]. cbn [out_tracks].
  now apply tracksOk_splitAndKeepRight.
Qed.

Lemma tracksOk_handleSeparateAudio (tracks : list TimelineTrack)
    (sel : list Selected) :
  tracksOk tracks -> tracksOk (out_tracks (handleSeparateAudio tracks sel)).
Proof.
  intro Hok. unfold handleSeparateAudio.
  destruct sel as [|s [|s' sel]]; try exact Hok.
  destruct (findTrack (sel_trackId s) tracks) as [t|]; [|exact Hok].
  destruct (negb _); [exact Hok|]. cbn [out_tracks].
  now apply tracksOk_separateAudio.
Qed.

Lemma tracksOk_handleDeleteSelected (ripple : bool)
    (tracks : list TimelineTrack) (sel : list Selected) :
  tracksOk tracks ->
  tracksOk (out_tracks (handleDeleteSelected ripple tracks sel)).
Proof.
  intro Hok. unfold handleDeleteSelected.
  destruct sel as [|s sel]; [exact Hok|]. cbn [out_tracks].
  generalize (s :: sel) as l. clear s sel. intro l.
  revert tracks Hok. induction l as [|x l IH]; intros tracks Hok; [exact Hok|].
  cbn [fold_left]. apply IH. destruct ripple.
  - now apply tracksOk_removeElementFromTrackWithRipple.
  - now apply tracksOk_removeElementFromTrack.
Qed.

Lemma tracksOk_removeTrack (trackId : TrackId) (tracks : list TimelineTrack) :
  tracksOk tracks -> tracksOk (removeTrack trackId tracks).
Proof.
  unfold tracksOk, removeTrack. rewrite !Forall_forall.
  intros H t Ht. apply filter_In in Ht. now apply H.
Qed.

Lemma tracksOk_toggleTrackMute (trackId : TrackId)
    (tracks : list TimelineTrack) :
  tracksOk tracks -> tracksOk (toggleTrackMute trackId tracks).
Proof.
  intro Hok. apply tracksOk_updateTrack; [|exact Hok]. intros t _ _ Ht. exact Ht.
Qed.

(** The test clip lands on a new media track and satisfies the invariant
    when the default duration is not negative. *)
Lemma tracksOk_addTestClip (DEFAULT_TEXT_DURATION : Q)
    (tracks : list TimelineTrack) :
  0 <= DEFAULT_TEXT_DURATION ->
  tracksOk tracks -> tracksOk (addTestClip DEFAULT_TEXT_DURATION tracks).
Proof.
  intros Hd Hok. unfold addTestClip, addTrack.
  apply tracksOk_addElementToTrack.
  - unfold specOk. simpl. lra.
  - unfold tracksOk. apply Forall_app. split; [exact Hok|].
    constructor; [constructor | constructor].
Qed.

Example addTestClip_example :
  map track_type (addTestClip 5 []) = [media] /\
  map (fun t => map duration (elements t)) (addTestClip 5 []) = [[5]].
Proof. split; reflexivity. Qed.
(** * More of the timeline component *)

(** ** The zoom controls *)

Lemma zoomLevelOk_compat (x y : Q) : x == y -> zoomLevelOk x -> zoomLevelOk y.
Proof.
  intros Hxy (Hlo & Hhi & k & Hk). repeat split; try lra.
  exists k. lra.
Qed.

Lemma zoomLevelOk_handleZoomIn (z : Q) :
  zoomLevelOk z -> zoomLevelOk (handleZoomIn z).
Proof.
  intros (Hlo & Hhi & k & Hk). unfold handleZoomIn.
  destruct (Q.min_spec 4 (z + (1 # 4))) as [[Hlt Heq] | [Hle Heq]];
    apply (zoomLevelOk_compat _ _ (Qeq_sym _ _ Heq)).
  - repeat split; try lra. exists 16%Z. reflexivity.
  - repeat split; try lra. exists (k + 1)%Z.
    rewrite inject_Z_plus. change (inject_Z 1) with 1. lra.
Qed.

Lemma zoomLevelOk_handleZoomOut (z : Q) :
  zoomLevelOk z -> zoomLevelOk (handleZoomOut z).
Proof.
  intros (Hlo & Hhi & k & Hk). unfold handleZoomOut.
  destruct (Q.max_spec (1 # 4) (z - (1 # 4))) as [[Hlt Heq] | [Hle Heq]];
    apply (zoomLevelOk_compat _ _ (Qeq_sym _ _ Heq)).
  - repeat split; try lra. exists (k - 1)%Z.
    unfold Z.sub. rewrite inject_Z_plus, inject_Z_opp.
    change (inject_Z 1) with 1. lra.
  - repeat split; try lra. exists 1%Z. reflexivity.
Qed.

(** X1. Whatever the toolbar does to the zoom level, zoom in, zoom out or
    a slider value within the slider's range, the level stays between 0.25
    and 4 and on the 0.25 grid. *)
Theorem zoom_level_stays_in_range (cmds : list ZoomCommand) (z : Q) :
  zoomLevelOk z ->
  Forall zoomCommandOk cmds ->
  zoomLevelOk (zoomAfter cmds z).
Proof.
  intros Hz Hcmds. revert z Hz. unfold zoomAfter.
  induction Hcmds as [|c cmds Hc _ IH]; intros z Hz; [exact Hz|].
  cbn [fold_left]. apply IH. destruct c; cbn [zoomStep].
  - now apply zoomLevelOk_handleZoomIn.
  - now apply zoomLevelOk_handleZoomOut.
  - exact Hc.
Qed.

Lemma zoom_level_stays_in_range_witness :
  zoomLevelOk (zoomAfter [zoomIn; zoomSlider 4 []; zoomIn; zoomOut] 1).
Proof.
  apply (zoom_level_stays_in_range [zoomIn; zoomSlider 4 []; zoomIn; zoomOut] 1).
  - repeat split; [discriminate | discriminate | exists 4%Z; reflexivity].
  - repeat constructor; [discriminate | discriminate | exists 16%Z; reflexivity].
Defined.

Lemma iter_handleZoomIn_lower (n : nat) (z : Q) :
  4 <= Nat.iter n handleZoomIn z \/
  z + inject_Z (Z.of_nat n) * (1 # 4) <= Nat.iter n handleZoomIn z.
Proof.
  induction n as [|n IH].
  - right. change (Nat.iter 0 handleZoomIn z) with z.
    change (inject_Z (Z.of_nat 0)) with 0. lra.
  - rewrite Nat.iter_succ. unfold handleZoomIn at 1 3.
    rewrite Nat2Z.inj_succ. unfold Z.succ. rewrite inject_Z_plus.
    change (inject_Z 1) with 1.
    destruct (Q.min_spec 4 (Nat.iter n handleZoomIn z + (1 # 4)))
      as [[Hlt Heq] | [Hle Heq]]; destruct IH as [IH | IH]; lra.
Qed.

Lemma iter_handleZoomOut_upper (n : nat) (z : Q) :
  Nat.iter n handleZoomOut z <= 1 # 4 \/
  Nat.iter n handleZoomOut z <= z - inject_Z (Z.of_nat n) * (1 # 4).
Proof.
  induction n as [|n IH].
  - right. change (Nat.iter 0 handleZoomOut z) with z.
    change (inject_Z (Z.of_nat 0)) with 0. lra.
  - rewrite Nat.iter_succ. unfold handleZoomOut at 1 3.
    rewrite Nat2Z.inj_succ. unfold Z.succ. rewrite inject_Z_plus.
    change (inject_Z 1) with 1.
    destruct (Q.max_spec (1 # 4) (Nat.iter n handleZoomOut z - (1 # 4)))
      as [[Hlt Heq] | [Hle Heq]]; destruct IH as [IH | IH]; lra.
Qed.

Lemma iter_zoomLevelOk (f : Q -> Q) (n : nat) (z : Q) :
  (forall x, zoomLevelOk x -> zoomLevelOk (f x)) ->
  zoomLevelOk z -> zoomLevelOk (Nat.iter n f z).
Proof.
  intros Hf Hz. induction n as [|n IH]; [exact Hz|].
  rewrite Nat.iter_succ. auto.
Qed.

(** X2. Zooming in and then out gives the level back unless zooming in was
    clipped at 4, and zooming out and then in gives it back unless zooming
    out was clipped at 0.25; from any level of the slider fifteen presses
    of zoom in reach exactly 4 and fifteen presses of zoom out exactly
    0.25. *)
Theorem zoom_round_trip_and_saturation (z : Q) :
  zoomLevelOk z ->
  (z <= 15 # 4 -> handleZoomOut (handleZoomIn z) == z) /\
  (1 # 2 <= z -> handleZoomIn (handleZoomOut z) == z) /\
  Nat.iter 15 handleZoomIn z == 4 /\
  Nat.iter 15 handleZoomOut z == 1 # 4.
Proof.
  intros Hz. pose proof Hz as (Hlo & Hhi & _). repeat split.
  - intro H. unfold handleZoomIn, handleZoomOut.
    destruct (Q.min_spec 4 (z + (1 # 4))) as [[H1 E1] | [H1 E1]];
      destruct (Q.max_spec (1 # 4) (Qmin 4 (z + (1 # 4)) - (1 # 4)))
        as [[H2 E2] | [H2 E2]]; lra.
  - intro H. unfold handleZoomIn, handleZoomOut.
    destruct (Q.max_spec (1 # 4) (z - (1 # 4))) as [[H1 E1] | [H1 E1]];
      destruct (Q.min_spec 4 (Qmax (1 # 4) (z - (1 # 4)) + (1 # 4)))
        as [[H2 E2] | [H2 E2]]; lra.
  - destruct (iter_zoomLevelOk handleZoomIn 15 z zoomLevelOk_handleZoomIn Hz)
      as (_ & Hmax & _).
    destruct (iter_handleZoomIn_lower 15 z) as [H | H];
      [|change (inject_Z (Z.of_nat 15)) with 15 in H]; lra.
  - destruct (iter_zoomLevelOk handleZoomOut 15 z zoomLevelOk_handleZoomOut Hz)
      as (Hmin & _ & _).
    destruct (iter_handleZoomOut_upper 15 z) as [H | H];
      [|change (inject_Z (Z.of_nat 15)) with 15 in H]; lra.
Qed.

Lemma zoom_round_trip_and_saturation_witness :
  (1 <= 15 # 4 -> handleZoomOut (handleZoomIn 1) == 1) /\
  (1 # 2 <= 1 -> handleZoomIn (handleZoomOut 1) == 1) /\
  Nat.iter 15 handleZoomIn 1 == 4 /\
  Nat.iter 15 handleZoomOut 1 == 1 # 4.
Proof.
  apply (zoom_round_trip_and_saturation 1).
  repeat split; [discriminate | discriminate | exists 4%Z; reflexivity].
Defined.

(** ** The ruler *)

Ltac interval_cases pps :=
  repeat match goal with
  | |- context [Qle_bool ?c pps] =>
      let E := fresh "E" in
      destruct (Qle_bool c pps) eqn:E;
      [apply Qle_bool_iff in E | apply Qle_bool_false_iff in E]
  end.

Lemma getTimeInterval_pos (PPS zoom : Q) : 0 < getTimeInterval PPS zoom.
Proof.
  unfold getTimeInterval. cbv zeta.
  interval_cases (PPS * zoom); reflexivity.
Qed.

(** X3. The ruler picks the marker interval so that markers never crowd:
    at 6 pixels per second or more two neighbouring markers are at least
    20 px apart, and between 50 and 125 px apart below 200 pixels per
    second; a larger zoom never gives a longer interval. *)
Theorem ruler_markers_are_spaced (PPS zoom zoom' : Q) :
  (6 <= PPS * zoom -> 20 <= getTimeInterval PPS zoom * (PPS * zoom)) /\
  (6 <= PPS * zoom -> PPS * zoom < 200 ->
   50 <= getTimeInterval PPS zoom * (PPS * zoom) <= 125) /\
  (PPS * zoom <= PPS * zoom' ->
   getTimeInterval PPS zoom' <= getTimeInterval PPS zoom).
Proof.
  unfold getTimeInterval. cbv zeta. repeat split.
  - intro H. interval_cases (PPS * zoom); lra.
  - interval_cases (PPS * zoom); lra.
  - interval_cases (PPS * zoom); lra.
  - intro H. interval_cases (PPS * zoom); interval_cases (PPS * zoom'); lra.
Qed.

Lemma ruler_markers_are_spaced_witness :
  20 <= getTimeInterval 50 4 * (50 * 4) /\
  50 <= getTimeInterval 50 1 * (50 * 1) <= 125 /\
  getTimeInterval 50 4 <= getTimeInterval 50 1.
Proof.
  split; [|split].
  - apply (proj1 (ruler_markers_are_spaced 50 4 4)). discriminate.
  - apply (proj1 (proj2 (ruler_markers_are_spaced 50 1 1)));
      [discriminate | reflexivity].
  - apply (proj2 (proj2 (ruler_markers_are_spaced 50 1 4))). discriminate.
Defined.

Lemma rulerMarkers_In (PPS zoom duration : Q) (m : RulerMarker) :
  In m (rulerMarkers PPS zoom duration) <->
  exists i : nat,
    (i < markerCount duration (getTimeInterval PPS zoom))%nat /\
    inject_Z (Z.of_nat i) * getTimeInterval PPS zoom <= duration /\
    m = mkMarker i (inject_Z (Z.of_nat i) * getTimeInterval PPS zoom)
          (inject_Z (Z.of_nat i) * getTimeInterval PPS zoom * PPS * zoom)
          (isMainMarker (inject_Z (Z.of_nat i) * getTimeInterval PPS zoom)
             (getTimeInterval PPS zoom)).
Proof.
  unfold rulerMarkers. cbv zeta. rewrite in_flat_map. split.
  - intros (i & Hi & Hm). apply in_seq in Hi.
    destruct (Qlt_bool duration _) eqn:E; [destruct Hm|].
    apply Qlt_bool_false_iff in E. destruct Hm as [<- | []].
    exists i. repeat split; [lia | exact E].
  - intros (i & Hi & Hle & ->). exists i. split; [apply in_seq; lia|].
    apply Qlt_bool_false_iff in Hle. rewrite Hle. now left.
Qed.

Lemma inject_nat_nonneg (i : nat) : 0 <= inject_Z (Z.of_nat i).
Proof.
  change 0 with (inject_Z 0). rewrite <- Zle_Qle. lia.
Qed.

Lemma rulerMarkers_sound (PPS zoom duration : Q) (m : RulerMarker) :
  In m (rulerMarkers PPS zoom duration) ->
  marker_time m
  = inject_Z (Z.of_nat (marker_key m)) * getTimeInterval PPS zoom /\
  0 <= marker_time m /\ marker_time m <= duration /\
  marker_left m = marker_time m * PPS * zoom.
Proof.
  pose proof (getTimeInterval_pos PPS zoom) as Hpos.
  intro Hm. apply rulerMarkers_In in Hm.
  destruct Hm as (i & _ & Hle & ->). cbn [marker_time marker_key marker_left].
  repeat split; try assumption.
  apply Qmult_le_0_compat; [apply inject_nat_nonneg | lra].
Qed.

(** X4. Below 200 pixels per second the marker interval is a whole number
    of half seconds, and the ruler draws a marker for every multiple of the
    interval that lies within the duration, and nothing else: each marker's
    time is its index times the interval, between 0 and the duration, its
    offset is that time in pixels, and no multiple within the duration is
    missing. *)
Theorem ruler_markers_cover_the_duration (PPS zoom duration : Q) :
  PPS * zoom < 200 ->
  (exists n : positive, getTimeInterval PPS zoom == Zpos n # 2) /\
  (forall m, In m (rulerMarkers PPS zoom duration) ->
     marker_time m
     = inject_Z (Z.of_nat (marker_key m)) * getTimeInterval PPS zoom /\
     0 <= marker_time m /\ marker_time m <= duration /\
     marker_left m = marker_time m * PPS * zoom) /\
  (forall k : nat,
     inject_Z (Z.of_nat k) * getTimeInterval PPS zoom <= duration ->
     exists m, In m (rulerMarkers PPS zoom duration) /\ marker_key m = k).
Proof.
  intro Hpps.
  pose proof (getTimeInterval_pos PPS zoom) as Hpos. split; [|split].
  - unfold getTimeInterval. cbv zeta.
    interval_cases (PPS * zoom);
      first [ exfalso; lra
            | exists 1%positive; vm_compute; reflexivity
            | exists 2%positive; vm_compute; reflexivity
            | exists 4%positive; vm_compute; reflexivity
            | exists 10%positive; vm_compute; reflexivity
            | exists 20%positive; vm_compute; reflexivity
            | exists 60%positive; vm_compute; reflexivity ].
  - intros m Hm. now apply rulerMarkers_sound.
  - intros k Hk.
    exists (mkMarker k (inject_Z (Z.of_nat k) * getTimeInterval PPS zoom)
              (inject_Z (Z.of_nat k) * getTimeInterval PPS zoom * PPS * zoom)
              (isMainMarker (inject_Z (Z.of_nat k) * getTimeInterval PPS zoom)
                 (getTimeInterval PPS zoom))).
    split; [|reflexivity].
    apply rulerMarkers_In. exists k. split; [|split; [exact Hk | reflexivity]].
    unfold markerCount.
    assert (Hdiv : inject_Z (Z.of_nat k)
                   <= duration / getTimeInterval PPS zoom)
      by (apply Qle_shift_div_l; assumption).
    pose proof (Qle_ceiling (duration / getTimeInterval PPS zoom)) as Hc.
    assert (Hz : (Z.of_nat k
                  <= Qceiling (duration / getTimeInterval PPS zoom))%Z)
      by (rewrite Zle_Qle; lra).
    lia.
Qed.

Lemma ruler_markers_cover_the_duration_witness :
  exists m, In m (rulerMarkers 50 1 (7 # 2)) /\ marker_key m = 3%nat.
Proof.
  apply (proj2 (proj2 (ruler_markers_cover_the_duration 50 1 (7 # 2)
                         ltac:(reflexivity)))
           3%nat).
  vm_compute. discriminate.
Defined.

Example ruler_markers_example :
  map marker_time (rulerMarkers 50 1 (7 # 2)) = [0 * 1; 1 * 1; 2 * 1; 3 * 1] /\
  map marker_key (rulerMarkers 50 4 (1 # 4)) = [0; 1; 2]%nat.
Proof. split; reflexivity. Qed.

Lemma duration_or_zero (duration : Q) :
  (if Qeq_bool duration 0 then 0 else duration) == duration.
Proof.
  destruct (Qeq_bool duration 0) eqn:E; [|reflexivity].
  apply Qeq_bool_iff in E. now rewrite E.
Qed.

(** X5. The timeline is always wide enough for what it shows: with a scale
    that is not negative, every marker the ruler draws and the point 30 s
    after the playhead lie within [dynamicTimelineWidth], and the width is
    positive whenever the container's width is not negative. *)
Theorem timeline_width_holds_markers_and_playhead
    (PPS zoom duration currentTime : Q) (clientWidth : option Q) :
  0 <= PPS * zoom ->
  (forall w, clientWidth = Some w -> 0 <= w) ->
  (forall m, In m (rulerMarkers PPS zoom duration) ->
     marker_left m
     <= dynamicTimelineWidth PPS zoom duration currentTime clientWidth) /\
  (currentTime + 30) * PPS * zoom
  <= dynamicTimelineWidth PPS zoom duration currentTime clientWidth /\
  0 < dynamicTimelineWidth PPS zoom duration currentTime clientWidth.
Proof.
  intros Hscale Hw. unfold dynamicTimelineWidth.
  set (a := (if Qeq_bool duration 0 then 0 else duration) * PPS * zoom).
  set (b := (currentTime + 30) * PPS * zoom).
  set (c := match clientWidth with
            | Some w => if Qeq_bool w 0 then 1000 else w
            | None => 1000
            end).
  pose proof (Q.le_max_l (Qmax a b) c) as H1.
  pose proof (Q.le_max_r (Qmax a b) c) as H2.
  pose proof (Q.le_max_l a b) as H3.
  pose proof (Q.le_max_r a b) as H4.
  split; [|split].
  - intros m Hm.
    destruct (rulerMarkers_sound PPS zoom duration m Hm)
      as (_ & _ & Hle & ->).
    assert (Ha : marker_time m * PPS * zoom <= a).
    { unfold a.
      setoid_replace (marker_time m * PPS * zoom)
        with (marker_time m * (PPS * zoom)) by ring.
      setoid_replace ((if Qeq_bool duration 0 then 0 else duration) * PPS * zoom)
        with ((if Qeq_bool duration 0 then 0 else duration) * (PPS * zoom))
        by ring.
      apply Qmult_le_compat_r; [|exact Hscale].
      rewrite duration_or_zero. exact Hle. }
    lra.
  - lra.
  - assert (Hc : 0 < c).
    { unfold c. destruct clientWidth as [w|]; [|reflexivity].
      destruct (Qeq_bool w 0) eqn:E; [reflexivity|].
      apply Qeq_bool_neq in E. specialize (Hw w eq_refl). lra. }
    lra.
Qed.

Lemma timeline_width_holds_markers_and_playhead_witness :
  (forall m, In m (rulerMarkers 50 1 10) ->
     marker_left m <= dynamicTimelineWidth 50 1 10 3 (Some 1200)) /\
  (3 + 30) * 50 * 1 <= dynamicTimelineWidth 50 1 10 3 (Some 1200) /\
  0 < dynamicTimelineWidth 50 1 10 3 (Some 1200).
Proof.
  apply (timeline_width_holds_markers_and_playhead 50 1 10 3 (Some 1200)).
  - discriminate.
  - intros w H. injection H as <-. discriminate.
Defined.

(** X6. Pixels and times agree: a click at the pixel a time [t] of the
    timeline is drawn at, [t * PIXELS_PER_SECOND * zoomLevel], gives back
    [t] as the time under the pointer, for every [t] within the duration;
    and a click further right never gives an earlier time. *)
Theorem pointer_time_inverts_marker_offset
    (PPS : Q) (env : ClickEnv) (e e' : MouseEvent) (v v' : Viewport) (t : Q) :
  0 < PPS * zoomLevel env ->
  (0 <= t -> t <= env_duration env ->
   contentX e v == t * PPS * zoomLevel env ->
   rawTime PPS env e v == t) /\
  (contentX e v <= contentX e' v' ->
   rawTime PPS env e v <= rawTime PPS env e' v').
Proof.
  intro Hscale. unfold rawTime, contentX. cbv zeta. split.
  - intros H0 Hd Hx.
    assert (Hdiv : (clientX e - rect_left v + scrollLeft v)
                   / (PPS * zoomLevel env) == t).
    { rewrite Hx.
      setoid_replace (t * PPS * zoomLevel env)
        with (t * (PPS * zoomLevel env)) by ring.
      apply Qdiv_mult_l. lra. }
    destruct (Q.min_spec (env_duration env)
                ((clientX e - rect_left v + scrollLeft v)
                 / (PPS * zoomLevel env))) as [[Hm Em] | [Hm Em]];
      destruct (Q.max_spec 0
                  (Qmin (env_duration env)
                     ((clientX e - rect_left v + scrollLeft v)
                      / (PPS * zoomLevel env)))) as [[HM EM] | [HM EM]];
      lra.
  - intro Hx.
    assert (Hdiv : (clientX e - rect_left v + scrollLeft v)
                   / (PPS * zoomLevel env)
                   <= (clientX e' - rect_left v' + scrollLeft v')
                      / (PPS * zoomLevel env)).
    { apply Qmult_le_compat_r; [exact Hx|].
      apply Qlt_le_weak, Qinv_lt_0_compat, Hscale. }
    destruct (Q.min_spec (env_duration env)
                ((clientX e - rect_left v + scrollLeft v)
                 / (PPS * zoomLevel env))) as [[Hm Em] | [Hm Em]];
      destruct (Q.max_spec 0
                  (Qmin (env_duration env)
                     ((clientX e - rect_left v + scrollLeft v)
                      / (PPS * zoomLevel env)))) as [[HM EM] | [HM EM]];
      destruct (Q.min_spec (env_duration env)
                  ((clientX e' - rect_left v' + scrollLeft v')
                   / (PPS * zoomLevel env))) as [[Hm' Em'] | [Hm' Em']];
      destruct (Q.max_spec 0
                  (Qmin (env_duration env)
                     ((clientX e' - rect_left v' + scrollLeft v')
                      / (PPS * zoomLevel env)))) as [[HM' EM'] | [HM' EM']];
      lra.
Qed.

Lemma pointer_time_inverts_marker_offset_witness :
  rawTime 50 plainEnv
    (mkMouseEvent 320 0 0 false false false false) (mkViewport 20 0)
  == 6.
Proof.
  apply (proj1 (pointer_time_inverts_marker_offset 50 plainEnv
                  (mkMouseEvent 320 0 0 false false false false)
                  (mkMouseEvent 320 0 0 false false false false)
                  (mkViewport 20 0) (mkViewport 20 0) 6
                  ltac:(reflexivity)));
    [discriminate | discriminate | reflexivity].
Defined.

(** ** The drop overlay *)

Lemma overlayAfter_app (evs : list DragEvent) (ev : DragEvent) :
  overlayAfter (evs ++ [ev]) = overlayStep (overlayAfter evs) ev.
Proof. unfold overlayAfter. now rewrite fold_left_app. Qed.

Lemma overlay_shown_while_counting (evs : list DragEvent) (s : DragOverlay) :
  ((0 < dragCounter s)%Z -> isDragOver s = true) ->
  (0 < dragCounter (fold_left overlayStep evs s))%Z ->
  isDragOver (fold_left overlayStep evs s) = true.
Proof.
  revert s. induction evs as [|ev evs IH]; intros s Hs; [exact Hs|].
  cbn [fold_left]. apply IH.
  destruct ev as [[|] | | [|] | ]; cbn; try exact Hs.
  - intros _. now destruct (isDragOver s).
  - intro H. destruct (dragCounter s - 1 =? 0)%Z eqn:E; [lia|].
    apply Hs. lia.
  - lia.
Qed.

Lemma firstn_app_le {A : Type} (n : nat) (l l' : list A) :
  (n <= List.length l)%nat -> firstn n (l ++ l') = firstn n l.
Proof.
  intro H. rewrite firstn_app.
  replace (n - List.length l)%nat with 0%nat by lia.
  cbn [firstn]. apply app_nil_r.
Qed.

Lemma wellNested_app (evs : list DragEvent) (ev : DragEvent) :
  wellNested (evs ++ [ev]) ->
  wellNested evs /\ (0 <= dragCounter (overlayAfter (evs ++ [ev])))%Z.
Proof.
  intro H. split.
  - intro n. destruct (Nat.le_gt_cases n (List.length evs)) as [Hn | Hn].
    + specialize (H n). now rewrite firstn_app_le in H by exact Hn.
    + rewrite firstn_all2 by lia.
      specialize (H (List.length evs)).
      now rewrite firstn_app_le, firstn_all in H by lia.
  - specialize (H (List.length (evs ++ [ev]))). now rewrite firstn_all in H.
Qed.

(** X7. The drop overlay follows the drag: while the counter of entered
    targets is positive the overlay is shown; when leaves never outnumber
    enters the overlay is shown exactly while the counter is positive, so
    it hides when the drag has left every target or has been dropped; and
    dragging timeline elements never shows it. *)
Theorem drop_overlay_follows_the_drag (evs : list DragEvent) :
  ((0 < dragCounter (overlayAfter evs))%Z ->
   isDragOver (overlayAfter evs) = true) /\
  (wellNested evs ->
   isDragOver (overlayAfter evs) = (0 <? dragCounter (overlayAfter evs))%Z) /\
  (forallb isElementDragEvent evs = true -> overlayAfter evs = noOverlay).
Proof.
  split; [|split].
  - apply overlay_shown_while_counting. cbn. lia.
  - induction evs as [|ev evs IH] using rev_ind; [reflexivity|].
    intro Hn. apply wellNested_app in Hn. destruct Hn as [Hn Hc].
    specialize (IH Hn). pose proof (Hn (List.length evs)) as H0.
    rewrite firstn_all in H0.
    rewrite overlayAfter_app in *.
    destruct ev as [[|] | | [|] | ]; cbn in *; try exact IH.
    + destruct (isDragOver (overlayAfter evs)); cbn; symmetry;
        apply Z.ltb_lt; lia.
    + destruct (dragCounter (overlayAfter evs) - 1 =? 0)%Z eqn:E.
      * apply Z.eqb_eq in E. rewrite E. reflexivity.
      * apply Z.eqb_neq in E. rewrite IH.
        assert ((0 <? dragCounter (overlayAfter evs))%Z = true)
          by (apply Z.ltb_lt; lia).
        assert ((0 <? dragCounter (overlayAfter evs) - 1)%Z = true)
          by (apply Z.ltb_lt; lia).
        congruence.
    + reflexivity.
  - unfold overlayAfter. generalize noOverlay as s.
    induction evs as [|ev evs IH]; intros s H; [reflexivity|].
    cbn [forallb] in H. apply andb_true_iff in H. destruct H as [Hev H].
    cbn [fold_left]. rewrite IH by exact H.
    destruct ev as [[|] | | [|] | ]; try reflexivity; discriminate.
Qed.

Lemma drop_overlay_follows_the_drag_witness :
  isDragOver
    (overlayAfter [dragEnter false; dragEnter false; dragLeave false;
                   dragOver; dragLeave false])
  = (0 <? dragCounter
            (overlayAfter [dragEnter false; dragEnter false; dragLeave false;
                           dragOver; dragLeave false]))%Z.
Proof.
  apply (proj1 (proj2 (drop_overlay_follows_the_drag
                         [dragEnter false; dragEnter false; dragLeave false;
                          dragOver; dragLeave false]))).
  intro n. do 6 (destruct n as [|n]; [vm_compute; discriminate|]).
  vm_compute. discriminate.
Defined.

(** ** Where click-to-seek can start *)

Lemma domTrackingAfter_armed (PPS : Q) (evs : list DomEvent) :
  isMouseDown (domTrackingAfter PPS evs) = true ->
  exists pre row d post,
    evs = pre ++ domMouseDown (onTracks row) d :: post /\
    onBackground d = true /\
    forallb (fun ev => negb (armsTracking ev) && negb (consumesTracking ev))
            post = true.
Proof.
  induction evs as [|ev evs IH] using rev_ind.
  - discriminate.
  - unfold domTrackingAfter in *. rewrite fold_left_app. cbn [fold_left].
    assert (Hkeep : forall ev',
              fst (domStep PPS
                     (fold_left (fun tr ev => fst (domStep PPS tr ev)) evs
                        noTracking) ev')
              = fold_left (fun tr ev => fst (domStep PPS tr ev)) evs noTracking ->
              armsTracking ev' = false -> consumesTracking ev' = false ->
              isMouseDown
                (fst (domStep PPS
                        (fold_left (fun tr ev => fst (domStep PPS tr ev)) evs
                           noTracking) ev')) = true ->
              exists pre row d post,
                evs ++ [ev'] = pre ++ domMouseDown (onTracks row) d :: post /\
                onBackground d = true /\
                forallb (fun ev => negb (armsTracking ev)
                                   && negb (consumesTracking ev)) post = true).
    { intros ev' Hsame Harm Hcons Hdown. rewrite Hsame in Hdown.
      destruct (IH Hdown) as (pre & row & d & post & -> & Hd & Hq).
      exists pre, row, d, (post ++ [ev']). rewrite <- app_assoc.
      repeat split; try assumption.
      rewrite forallb_app, Hq. cbn. now rewrite Harm, Hcons. }
    destruct ev as [[ | row | ] d | [ | row | ] env e].
    + now apply Hkeep.
    + destruct (handleTimelineMouseDown_cases
                  (fold_left (fun tr ev => fst (domStep PPS tr ev)) evs
                     noTracking) d) as [[Hbg Heq] | [Hbg Heq]].
      * intros _. exists evs, row, d, []. repeat split. exact Hbg.
      * apply Hkeep; [cbn [domStep fst]; exact Heq | exact Hbg | reflexivity].
    + now apply Hkeep.
    + discriminate.
    + discriminate.
    + now apply Hkeep.
Qed.

(** X8. Click-to-seek can only start in the tracks container: a click
    seeks only if, since the last click that reached the handler, the
    pointer went down on the timeline background inside the tracks
    container, so a press and release on the ruler never seeks through
    this handler. A click on an element makes these handlers neither seek
    nor deselect, and a click on the empty part of a track's row always
    deselects, also when it is not taken as a click. *)
Theorem seek_starts_in_the_tracks_container
    (PPS : Q) (evs : list DomEvent) (area : TimelineArea) (env : ClickEnv)
    (e : MouseEvent) (tr : MouseTracking) :
  (seeks (snd (domStep PPS (domTrackingAfter PPS evs) (domClick area env e)))
   = true ->
   exists pre row d post,
     evs = pre ++ domMouseDown (onTracks row) d :: post /\
     onBackground d = true /\
     forallb (fun ev => negb (armsTracking ev) && negb (consumesTracking ev))
             post = true) /\
  (inTimelineElement e = true ->
   snd (domStep PPS tr (domClick area env e)) = []) /\
  (inTimelineElement e = false ->
   In clearSelectedElements
      (snd (domStep PPS tr (domClick (onTracks true) env e)))).
Proof.
  split; [|split].
  - intro Hs. apply (domTrackingAfter_armed PPS).
    unfold seeks in Hs. apply existsb_exists in Hs.
    destruct Hs as ([|t] & Hin & Hseek); [discriminate Hseek|].
    assert (Hh : In (seek t)
                   (snd (handleTimelineContentClick PPS
                           (domTrackingAfter PPS evs) env e))).
    { destruct area as [ | row | ]; cbn [domStep snd] in Hin.
      - exact Hin.
      - apply in_app_or in Hin. destruct Hin as [Hin | Hin]; [|exact Hin].
        destruct row; [|destruct Hin]. unfold trackRowClick in Hin.
        destruct (negb (inTimelineElement e));
          [destruct Hin as [H | []]; discriminate | destruct Hin].
      - destruct Hin. }
    now destruct (click_seek_inv _ _ _ _ _ Hh) as (Hdown & _).
  - intro He.
    assert (Hh : snd (handleTimelineContentClick PPS tr env e) = []).
    { unfold handleTimelineContentClick. cbn [snd]. rewrite He.
      destruct (negb (isMouseDown tr)); [reflexivity|].
      destruct (_ || _ || _); [reflexivity|].
      destruct (_ || _); reflexivity. }
    destruct area as [ | row | ]; cbn [domStep snd].
    + exact Hh.
    + rewrite Hh. unfold trackRowClick. rewrite He. now destruct row.
    + reflexivity.
  - intro He. cbn [domStep snd]. unfold trackRowClick. rewrite He.
    now left.
Qed.

Lemma seek_starts_in_the_tracks_container_witness :
  exists pre row d post,
    [domMouseDown onRuler downAtOrigin;
     domMouseDown (onTracks true) downAtOrigin]
    = pre ++ domMouseDown (onTracks row) d :: post /\
    onBackground d = true /\
    forallb (fun ev => negb (armsTracking ev) && negb (consumesTracking ev))
            post = true.
Proof.
  apply (proj1 (seek_starts_in_the_tracks_container 50
                  [domMouseDown onRuler downAtOrigin;
                   domMouseDown (onTracks true) downAtOrigin]
                  (onTracks true) plainEnv upAtFive noTracking)).
  vm_compute. reflexivity.
Defined.

(** A press and a click on the ruler: nothing is sought. *)
Example ruler_click_does_not_seek :
  snd (domStep 50 (domTrackingAfter 50 [domMouseDown onRuler downAtOrigin])
         (domClick onRuler plainEnv
            (mkMouseEvent 0 0 100 false false false true)))
  = [].
Proof. reflexivity. Qed.

(** ** The whole drop handler *)

Lemma find_by_id_none (id : string) (mediaItems : list MediaItem) :
  (forall m, In m mediaItems -> item_id m <> id) ->
  find (fun item => (item_id item =? id)%string) mediaItems = None.
Proof.
  intro H.
  destruct (find (fun item => (item_id item =? id)%string) mediaItems)
    as [m|] eqn:E; [|reflexivity].
  apply find_some in E. destruct E as [Hin Heq].
  apply String.eqb_eq in Heq. now apply H in Hin.
Qed.

(** X9. What a drop on the timeline does besides adding files: it always
    hides the overlay and resets the drag counter; a dragged timeline
    element changes nothing and shows nothing; the media list changes only
    when files are dropped without item data; an item whose id is not in
    the media list adds no track and shows "Media item not found"; an item
    of the media list gets its track without a message. *)
Theorem drop_without_files_keeps_the_media_list
    (addMediaItem : list MediaItem -> ProcessedItem -> Settled * list MediaItem)
    (addMediaToNewTrack : MediaItem -> list TimelineTrack -> list TimelineTrack)
    (addTextToNewTrack : string -> list TimelineTrack -> list TimelineTrack)
    (isProcessing activeProject : bool) (ev : DropEvent)
    (processed : option (list ProcessedItem))
    (mediaItems : list MediaItem) (tracks : list TimelineTrack) :
  fst (handleDrop addMediaItem addMediaToNewTrack addTextToNewTrack
         isProcessing activeProject ev processed mediaItems tracks)
  = mkOverlay 0 false /\
  (dropHasTimelineElement ev = true ->
   snd (handleDrop addMediaItem addMediaToNewTrack addTextToNewTrack
          isProcessing activeProject ev processed mediaItems tracks)
   = mkDropResult mediaItems tracks [] isProcessing) /\
  (dropHasTimelineElement ev = true \/ dropItemData ev <> None
   \/ dropHasFiles ev = false ->
   drop_media
     (snd (handleDrop addMediaItem addMediaToNewTrack addTextToNewTrack
             isProcessing activeProject ev processed mediaItems tracks))
   = mediaItems) /\
  (forall id,
     dropHasTimelineElement ev = false ->
     dropItemData ev = Some (Some (mediaDrag id)) ->
     ((forall m, In m mediaItems -> item_id m <> id) ->
      snd (handleDrop addMediaItem addMediaToNewTrack addTextToNewTrack
             isProcessing activeProject ev processed mediaItems tracks)
      = mkDropResult mediaItems tracks
          [toast_error "Media item not found"] isProcessing) /\
     (forall m,
        find (fun item => (item_id item =? id)%string) mediaItems = Some m ->
        snd (handleDrop addMediaItem addMediaToNewTrack addTextToNewTrack
               isProcessing activeProject ev processed mediaItems tracks)
        = mkDropResult mediaItems (addMediaToNewTrack m tracks) []
            isProcessing)).
Proof.
  unfold handleDrop. cbn [fst snd]. split; [reflexivity|]. split; [|split].
  - intros ->. reflexivity.
  - intros H. destruct (dropHasTimelineElement ev); [reflexivity|].
    destruct (dropItemData ev) as [[[payload | id]|]|].
    + reflexivity.
    + now destruct (find _ mediaItems).
    + reflexivity.
    + destruct H as [H | [H | H]]; [discriminate | congruence |].
      rewrite H. reflexivity.
  - intros id -> ->. split.
    + intro H. now rewrite find_by_id_none.
    + intros m ->. reflexivity.
Qed.

Lemma drop_without_files_keeps_the_media_list_witness :
  snd (handleDrop sampleAddMediaItem sampleAddMediaToNewTrack
         (fun _ tracks => tracks) false true
         (mkDropEvent false (Some (Some (mediaDrag "gone"))) true)
         (Some droppedFiles)
         [mkMediaItem "blob:1" "a.mp4" "blob:1" (Some 4)] oneClipTracks)
  = mkDropResult [mkMediaItem "blob:1" "a.mp4" "blob:1" (Some 4)]
      oneClipTracks [toast_error "Media item not found"] false.
Proof.
  apply (proj1 (proj2 (proj2 (proj2
           (drop_without_files_keeps_the_media_list sampleAddMediaItem
              sampleAddMediaToNewTrack (fun _ tracks => tracks) false true
              (mkDropEvent false (Some (Some (mediaDrag "gone"))) true)
              (Some droppedFiles)
              [mkMediaItem "blob:1" "a.mp4" "blob:1" (Some 4)]
              oneClipTracks))) "gone"%string eq_refl eq_refl)).
  intros m [<- | []]. discriminate.
Defined.

(** ** Uploading and dropping *)

Lemma addProcessedItems_addItems
    (addMediaItem : list MediaItem -> ProcessedItem -> Settled * list MediaItem)
    (addMediaToNewTrack : MediaItem -> list TimelineTrack -> list TimelineTrack)
    (items : list ProcessedItem) :
  forall mediaItems tracks,
    fst (addProcessedItems addMediaItem addMediaToNewTrack items
           mediaItems tracks)
    = addItems addMediaItem items mediaItems.
Proof.
  induction items as [|it rest IH]; intros mediaItems tracks; [reflexivity|].
  cbn [addProcessedItems addItems].
  destruct (addMediaItem mediaItems it) as [[|] cur]; [|reflexivity].
  destruct (find (sameFile it) cur); apply IH.
Qed.

(** X10. Dropping files on the timeline does to the media list exactly
    what uploading the same files in the media panel does, whatever the
    media store and the timeline store do: the same list results, an error
    message is shown by the one exactly when it is shown by the other, and
    both end with the processing flag off. *)
Theorem drop_and_upload_agree_on_media
    (addMediaItem : list MediaItem -> ProcessedItem -> Settled * list MediaItem)
    (addMediaToNewTrack : MediaItem -> list TimelineTrack -> list TimelineTrack)
    (isProcessing : bool) (processed : option (list ProcessedItem))
    (mediaItems : list MediaItem) (tracks : list TimelineTrack) :
  drop_media (handleDropFiles addMediaItem addMediaToNewTrack true processed
                mediaItems tracks)
  = upload_media (processFiles addMediaItem isProcessing false true processed
                    mediaItems) /\
  (drop_toasts (handleDropFiles addMediaItem addMediaToNewTrack true processed
                  mediaItems tracks) = []
   <-> upload_toasts (processFiles addMediaItem isProcessing false true
                        processed mediaItems) = []) /\
  drop_isProcessing (handleDropFiles addMediaItem addMediaToNewTrack true
                       processed mediaItems tracks) = false /\
  upload_isProcessing (processFiles addMediaItem isProcessing false true
                         processed mediaItems) = false.
Proof.
  unfold handleDropFiles, processFiles. cbn [negb].
  destruct processed as [items|].
  - pose proof (addProcessedItems_addItems addMediaItem addMediaToNewTrack
                  items mediaItems tracks) as H.
    destruct (addProcessedItems addMediaItem addMediaToNewTrack items
                mediaItems tracks) as [[s m] t].
    cbn [fst] in H. rewrite <- H.
    destruct s; cbn; repeat split; intros; discriminate.
  - cbn. repeat split; intros; discriminate.
Qed.

(** Uploading with no files does nothing at all, not even the message for
    a missing project. *)
Lemma processFiles_no_files
    (addMediaItem : list MediaItem -> ProcessedItem -> Settled * list MediaItem)
    (isProcessing activeProject : bool)
    (processed : option (list ProcessedItem)) (mediaItems : list MediaItem) :
  processFiles addMediaItem isProcessing true activeProject processed mediaItems
  = mkUploadResult mediaItems [] isProcessing.
Proof. reflexivity. Qed.

(** ** The media panel: the stable sort *)

Section StableSort.

Variable A : Type.
Variable cmp : A -> A -> Z.

(** A consistent comparison: two items are never each after the other,
    "not after" is transitive, and comparing equal is transitive. *)
Hypothesis cmp_asym : forall a b, (0 < cmp a b)%Z -> (cmp b a <= 0)%Z.
Hypothesis cmp_trans :
  forall a b c, (cmp a b <= 0)%Z -> (cmp b c <= 0)%Z -> (cmp a c <= 0)%Z.
Hypothesis cmp_eq_trans :
  forall a b c, cmp a b = 0%Z -> cmp a c = 0%Z -> cmp b c = 0%Z.

Lemma sortInsert_perm (x : A) (l : list A) :
  Permutation (sortInsert cmp x l) (x :: l).
Proof.
  induction l as [|y l IH]; cbn [sortInsert]; [reflexivity|].
  destruct (0 <? cmp x y)%Z; [|reflexivity].
  rewrite IH. apply perm_swap.
Qed.

Lemma jsSort_perm (l : list A) : Permutation (jsSort cmp l) l.
Proof.
  induction l as [|x l IH]; cbn [jsSort]; [reflexivity|].
  rewrite sortInsert_perm. now constructor.
Qed.



Lemma sortInsert_stable (a x : A) (l : list A) :
  filter (fun y => (cmp a y =? 0)%Z) (sortInsert cmp x l)
  = filter (fun y => (cmp a y =? 0)%Z) (x :: l).
Proof.
  induction l as [|y l IH]; cbn [sortInsert]; [reflexivity|].
  destruct (0 <? cmp x y)%Z eqn:E; [|reflexivity].
  apply Z.ltb_lt in E. cbn [filter] in *. rewrite IH.
  destruct (cmp a x =? 0)%Z eqn:Ex; [|reflexivity].
  destruct (cmp a y =? 0)%Z eqn:Ey; [|reflexivity].
  apply Z.eqb_eq in Ex, Ey. pose proof (cmp_eq_trans a x y Ex Ey). lia.
Qed.

Lemma jsSort_stable (a : A) (l : list A) :
  filter (fun y => (cmp a y =? 0)%Z) (jsSort cmp l)
  = filter (fun y => (cmp a y =? 0)%Z) l.
Proof.
  induction l as [|x l IH]; cbn [jsSort]; [reflexivity|].
  rewrite sortInsert_stable. cbn [filter]. now rewrite IH.
Qed.

End StableSort.

(** ** The media panel: the order of the sort keys *)

Lemma ascii_compare_lt_trans (a b c : ascii) :
  Ascii.compare a b = Lt -> Ascii.compare b c = Lt -> Ascii.compare a c = Lt.
Proof.
  unfold Ascii.compare. rewrite !N.compare_lt_iff. apply N.lt_trans.
Qed.

Lemma ascii_compare_refl (a : ascii) : Ascii.compare a a = Eq.
Proof. unfold Ascii.compare. apply N.compare_refl. Qed.

Lemma string_compare_lt_trans (s1 : string) :
  forall s2 s3,
    String.compare s1 s2 = Lt -> String.compare s2 s3 = Lt ->
    String.compare s1 s3 = Lt.
Proof.
  induction s1 as [|a s1 IH]; intros [|b s2] [|c s3]; cbn;
    try discriminate; try reflexivity.
  destruct (Ascii.compare a b) eqn:Eab; try discriminate;
    destruct (Ascii.compare b c) eqn:Ebc; try discriminate; intros H1 H2.
  - apply Ascii.compare_eq_iff in Eab, Ebc. subst.
    rewrite ascii_compare_refl. now apply (IH s2).
  - apply Ascii.compare_eq_iff in Eab. subst. now rewrite Ebc.
  - apply Ascii.compare_eq_iff in Ebc. subst. now rewrite Eab.
  - now rewrite (ascii_compare_lt_trans a b c).
Qed.


Lemma string_ltb_negtrans (s t u : string) :
  String.ltb s u = true -> String.ltb s t = true \/ String.ltb t u = true.
Proof.
  unfold String.ltb. intro H.
  destruct (String.compare s t) eqn:Est; [| now left |].
  - apply String.compare_eq_iff in Est. subst. now right.
  - right. rewrite String.compare_antisym in Est.
    destruct (String.compare t s) eqn:Ets; try discriminate.
    destruct (String.compare s u) eqn:Esu; try discriminate.
    now rewrite (string_compare_lt_trans t s u).
Qed.


Lemma valueLt_negtrans (sortBy : SortBy) (a b c : MediaEntry) :
  valueLt (sortValue sortBy a) (sortValue sortBy c) = true ->
  valueLt (sortValue sortBy a) (sortValue sortBy b) = true \/
  valueLt (sortValue sortBy b) (sortValue sortBy c) = true.
Proof.
  destruct sortBy; cbn.
  - apply string_ltb_negtrans.
  - apply string_ltb_negtrans.
  - rewrite !Qlt_bool_iff. intro H.
    destruct (Qlt_le_dec (durationOrZero (item_duration (entry_item a)))
                (durationOrZero (item_duration (entry_item b))));
      [now left | right; lra].
  - rewrite !Qlt_bool_iff. intro H.
    destruct (Qlt_le_dec (inject_Z (entry_size a)) (inject_Z (entry_size b)));
      [now left | right; lra].
Qed.

Ltac compare_cases :=
  unfold compareEntries; cbv zeta;
  repeat match goal with
  | |- context [valueLt ?x ?y] =>
      let E := fresh "E" in destruct (valueLt x y) eqn:E
  end.




Lemma compareEntries_eq_iff (sortBy : SortBy) (sortOrder : SortOrder)
    (a b : MediaEntry) :
  compareEntries sortBy sortOrder a b = 0%Z <->
  valueLt (sortValue sortBy a) (sortValue sortBy b) = false /\
  valueLt (sortValue sortBy b) (sortValue sortBy a) = false.
Proof.
  destruct sortOrder; compare_cases; split; intro H;
    try lia; try (split; reflexivity); try reflexivity;
    destruct H; discriminate.
Qed.

Lemma compareEntries_eq_trans (sortBy : SortBy) (sortOrder : SortOrder)
    (a b c : MediaEntry) :
  compareEntries sortBy sortOrder a b = 0%Z ->
  compareEntries sortBy sortOrder a c = 0%Z ->
  compareEntries sortBy sortOrder b c = 0%Z.
Proof.
  rewrite !compareEntries_eq_iff. intros [H1 H2] [H3 H4]. split.
  - destruct (valueLt (sortValue sortBy b) (sortValue sortBy c)) eqn:E;
      [|reflexivity].
    destruct (valueLt_negtrans sortBy b a c E); congruence.
  - destruct (valueLt (sortValue sortBy c) (sortValue sortBy b)) eqn:E;
      [|reflexivity].
    destruct (valueLt_negtrans sortBy c a b E); congruence.
Qed.

(** ** The media panel: what is listed *)

(** X11. The media panel lists exactly the items that pass the type filter
    and the search, each as often as it is in the media list: sorting
    neither drops nor repeats an item. *)
Theorem media_panel_lists_the_matching_items
    (mediaItems : list MediaEntry) (mediaFilter searchQuery : string)
    (sortBy : SortBy) (sortOrder : SortOrder) :
  Permutation
    (filteredMediaItems mediaItems mediaFilter searchQuery sortBy sortOrder)
    (filter (passesFilter mediaFilter searchQuery) mediaItems) /\
  (forall x,
     In x (filteredMediaItems mediaItems mediaFilter searchQuery sortBy
             sortOrder)
     <-> In x mediaItems /\ passesFilter mediaFilter searchQuery x = true).
Proof.
  assert (Hperm : Permutation
            (filteredMediaItems mediaItems mediaFilter searchQuery sortBy
               sortOrder)
            (filter (passesFilter mediaFilter searchQuery) mediaItems))
    by apply jsSort_perm.
  split; [exact Hperm|]. intro x. rewrite <- filter_In. split.
  - apply Permutation_in. exact Hperm.
  - apply Permutation_in. symmetry. exact Hperm.
Qed.

Lemma isEmpty_toLowerCase (s : string) :
  (toLowerCase s =? "")%string = (s =? "")%string.
Proof. now destruct s. Qed.

(** X12. The search ignores the case of the query: two queries that are
    equal up to case list the same items in the same order. *)
Theorem media_search_ignores_case
    (mediaItems : list MediaEntry) (mediaFilter q q' : string)
    (sortBy : SortBy) (sortOrder : SortOrder) :
  toLowerCase q = toLowerCase q' ->
  filteredMediaItems mediaItems mediaFilter q sortBy sortOrder
  = filteredMediaItems mediaItems mediaFilter q' sortBy sortOrder.
Proof.
  intro H. unfold filteredMediaItems. f_equal. apply filter_ext.
  intro x. unfold passesFilter.
  rewrite <- (isEmpty_toLowerCase q), <- (isEmpty_toLowerCase q'), H.
  reflexivity.
Qed.

Lemma media_search_ignores_case_witness :
  filteredMediaItems sampleEntries "all" "CLIP" byName asc
  = filteredMediaItems sampleEntries "all" "clip" byName asc.
Proof.
  apply (media_search_ignores_case sampleEntries "all" "CLIP" "clip" byName asc).
  reflexivity.
Defined.

Example media_search_example :
  filteredMediaItems sampleEntries "all" "CLIP" byName asc
  = [entryClip; entryPhoto] /\
  filteredMediaItems sampleEntries "audio" "" byName asc = [entrySong].
Proof. split; reflexivity. Qed.



Lemma tiesWith_compare (sortBy : SortBy) (sortOrder : SortOrder)
    (a b : MediaEntry) :
  tiesWith sortBy a b = (compareEntries sortBy sortOrder a b =? 0)%Z.
Proof.
  unfold tiesWith.
  destruct (compareEntries sortBy sortOrder a b =? 0)%Z eqn:E.
  - apply Z.eqb_eq, compareEntries_eq_iff in E. destruct E as [-> ->].
    reflexivity.
  - apply Z.eqb_neq in E.
    destruct (valueLt (sortValue sortBy a) (sortValue sortBy b)) eqn:E1;
      [reflexivity|].
    destruct (valueLt (sortValue sortBy b) (sortValue sortBy a)) eqn:E2;
      [reflexivity|].
    exfalso. apply E. apply compareEntries_eq_iff. now split.
Qed.

(** X14. The sort is stable in both directions: the items that tie with a
    given item under the sort key are listed in the order the media list
    has them, ascending and descending alike, so reversing the order never
    reverses items of equal value. *)
Theorem media_sort_keeps_ties_in_order
    (mediaItems : list MediaEntry) (mediaFilter searchQuery : string)
    (sortBy : SortBy) (sortOrder : SortOrder) (a : MediaEntry) :
  filter (tiesWith sortBy a)
    (filteredMediaItems mediaItems mediaFilter searchQuery sortBy sortOrder)
  = filter (tiesWith sortBy a)
      (filter (passesFilter mediaFilter searchQuery) mediaItems).
Proof.
  unfold filteredMediaItems.
  rewrite !(filter_ext (tiesWith sortBy a)
              (fun y => (compareEntries sortBy sortOrder a y =? 0)%Z)
              (fun y => tiesWith_compare sortBy sortOrder a y)).
  apply jsSort_stable. apply compareEntries_eq_trans.
Qed.

Example media_sort_example :
  filteredMediaItems sampleEntries "all" "" byDuration asc
  = [entryPhoto; entryClip; entrySong] /\
  filteredMediaItems sampleEntries "all" "" byDuration desc
  = [entryClip; entrySong; entryPhoto].
Proof. split; reflexivity. Qed.

(** X15. The sort menu: after an entry is chosen the list is sorted by its
    key; a key that was not the current one is taken ascending; choosing
    the current key twice gives the state back; and a third click on the
    same entry does what the first did. *)
Theorem sort_menu_toggles_the_order (key : SortBy) (s : SortBy * SortOrder) :
  fst (sortMenuClick key s) = key /\
  (fst s <> key -> snd (sortMenuClick key s) = asc) /\
  (fst s = key -> sortMenuClick key (sortMenuClick key s) = s) /\
  sortMenuClick key (sortMenuClick key (sortMenuClick key s))
  = sortMenuClick key s.
Proof.
  destruct s as [sortBy sortOrder].
  destruct key, sortBy, sortOrder; cbn; repeat split;
    try reflexivity; try congruence; intro H; congruence.
Qed.

Lemma sort_menu_toggles_the_order_witness :
  snd (sortMenuClick bySize (byName, desc)) = asc /\
  sortMenuClick byName (sortMenuClick byName (byName, desc)) = (byName, desc).
Proof.
  split.
  - apply (proj1 (proj2 (sort_menu_toggles_the_order bySize (byName, desc)))).
    discriminate.
  - apply (proj1 (proj2 (proj2
             (sort_menu_toggles_the_order byName (byName, desc))))).
    reflexivity.
Defined.

(** ** The media panel: durations *)

Lemma Qfloor_unique (x : Q) (n : Z) :
  inject_Z n <= x -> x < inject_Z (n + 1) -> Qfloor x = n.
Proof.
  intros Hlo Hhi.
  pose proof (Qfloor_le x) as H1. pose proof (Qlt_floor x) as H2.
  assert (Ha : (Qfloor x < n + 1)%Z) by (rewrite Zlt_Qlt; lra).
  assert (Hb : (n < Qfloor x + 1)%Z) by (rewrite Zlt_Qlt; lra).
  lia.
Qed.

Lemma Qfloor_minus_Z (x : Q) (z : Z) :
  Qfloor (x - inject_Z z) = (Qfloor x - z)%Z.
Proof.
  apply Qfloor_unique.
  - pose proof (Qfloor_le x) as H. unfold Z.sub.
    rewrite inject_Z_plus, inject_Z_opp. lra.
  - pose proof (Qlt_floor x) as H.
    replace (Qfloor x - z + 1)%Z with ((Qfloor x + 1) + - z)%Z by lia.
    rewrite inject_Z_plus, inject_Z_opp. lra.
Qed.

Lemma Qfloor_div_60 (d : Q) : Qfloor (d / 60) = (Qfloor d / 60)%Z.
Proof.
  destruct d as [n p]. unfold Qdiv, Qmult, Qinv, Qfloor. cbn.
  rewrite Z.mul_1_r, Pos2Z.inj_mul. symmetry. apply Z.div_div; lia.
Qed.

Lemma Qtruncate_nonneg (x : Q) : 0 <= x -> Qtruncate x = Qfloor x.
Proof.
  destruct x as [n p]. unfold Qle, Qtruncate, Qfloor. cbn. intro H.
  apply Z.quot_div_nonneg; lia.
Qed.

Lemma padStart2_twoDigits (n : nat) :
  (n < 60)%nat ->
  padStart2 (toString (Z.of_nat n)) = twoDigits (Z.of_nat n).
Proof.
  intro H. do 60 (destruct n as [|n]; [reflexivity|]). lia.
Qed.

(** X16. [formatDuration] shows the whole seconds of a duration as minutes
    and seconds: for a duration that is not negative the text is the number
    of whole minutes, a colon, and the remaining whole seconds, below 60 and
    always written with two digits. *)
Theorem formatDuration_is_minutes_and_two_digit_seconds (duration : Q) :
  0 <= duration ->
  formatDuration duration
  = (toString (Qfloor duration / 60) ++ ":"
     ++ twoDigits (Qfloor duration mod 60))%string /\
  (0 <= Qfloor duration mod 60 < 60)%Z /\
  (60 * (Qfloor duration / 60) + Qfloor duration mod 60 = Qfloor duration)%Z.
Proof.
  intro Hd. split; [|split].
  - unfold formatDuration, jsRemainder. cbv zeta.
    assert (Hq : 0 <= duration / 60).
    { unfold Qdiv. apply Qmult_le_0_compat; [exact Hd | discriminate]. }
    rewrite (Qtruncate_nonneg _ Hq), Qfloor_div_60.
    assert (Hrem : Qfloor (duration - 60 * inject_Z (Qfloor duration / 60))
                   = (Qfloor duration mod 60)%Z).
    { setoid_replace (60 * inject_Z (Qfloor duration / 60))
        with (inject_Z (60 * (Qfloor duration / 60)))
        by (rewrite inject_Z_mult; reflexivity).
      rewrite Qfloor_minus_Z. rewrite Z.mod_eq by lia. reflexivity. }
    rewrite Hrem.
    pose proof (Z.mod_pos_bound (Qfloor duration) 60 ltac:(lia)) as Hb.
    rewrite <- (Z2Nat.id (Qfloor duration mod 60)) by lia.
    rewrite padStart2_twoDigits by lia. reflexivity.
  - apply Z.mod_pos_bound. lia.
  - symmetry. apply Z.div_mod. lia.
Qed.

Lemma formatDuration_is_minutes_and_two_digit_seconds_witness :
  formatDuration (1255 # 10)
  = (toString (Qfloor (1255 # 10) / 60) ++ ":"
     ++ twoDigits (Qfloor (1255 # 10) mod 60))%string /\
  (0 <= Qfloor (1255 # 10) mod 60 < 60)%Z /\
  (60 * (Qfloor (1255 # 10) / 60) + Qfloor (1255 # 10) mod 60
   = Qfloor (1255 # 10))%Z.
Proof.
  apply (formatDuration_is_minutes_and_two_digit_seconds (1255 # 10)).
  discriminate.
Defined.

Example formatDuration_examples :
  formatDuration (1255 # 10) = "2:05"%string /\
  formatDuration 59 = "0:59"%string /\
  formatDuration 3600 = "60:00"%string.
Proof. repeat split. Qed.

(** ** Commands that report an error change nothing *)

(** X17. A toolbar command that shows a message has changed nothing: when
    keep-left, keep-right or separate-audio reports an error the tracks and
    the selection are as before; the commands are all-or-nothing towards
    the user. Duplicate and delete never show a message. *)
Theorem reported_errors_change_nothing
    (tracks : list TimelineTrack) (sel : list Selected) (currentTime : Q)
    (ripple : bool) :
  (out_toasts (handleSplitAndKeepLeft tracks sel currentTime) <> [] ->
   out_tracks (handleSplitAndKeepLeft tracks sel currentTime) = tracks /\
   out_selected (handleSplitAndKeepLeft tracks sel currentTime) = sel) /\
  (out_toasts (handleSplitAndKeepRight tracks sel currentTime) <> [] ->
   out_tracks (handleSplitAndKeepRight tracks sel currentTime) = tracks /\
   out_selected (handleSplitAndKeepRight tracks sel currentTime) = sel) /\
  (out_toasts (handleSeparateAudio tracks sel) <> [] ->
   out_tracks (handleSeparateAudio tracks sel) = tracks /\
   out_selected (handleSeparateAudio tracks sel) = sel) /\
  out_toasts (handleDuplicateSelected tracks sel) = [] /\
  out_toasts (handleDeleteSelected ripple tracks sel) = [].
Proof.
  split; [|split; [|split; [|split]]].
  - unfold handleSplitAndKeepLeft.
    destruct sel as [|s [|s' sel]]; cbn; try (intros _; now split).
    destruct (lookupElement tracks (sel_trackId s) (sel_elementId s));
      [|intros _; now split].
    destruct (_ || _); cbn; [intros _; now split | congruence].
  - unfold handleSplitAndKeepRight.
    destruct sel as [|s [|s' sel]]; cbn; try (intros _; now split).
    destruct (lookupElement tracks (sel_trackId s) (sel_elementId s));
      [|intros _; now split].
    destruct (_ || _); cbn; [intros _; now split | congruence].
  - unfold handleSeparateAudio.
    destruct sel as [|s [|s' sel]]; cbn; try (intros _; now split).
    destruct (findTrack (sel_trackId s) tracks); [|intros _; now split].
    destruct (negb _); cbn; [intros _; now split | congruence].
  - unfold handleDuplicateSelected. destruct sel as [|s sel]; [reflexivity|].
    now destruct (negb _).
  - unfold handleDeleteSelected. now destruct sel.
Qed.

Lemma reported_errors_change_nothing_witness :
  out_tracks (handleSplitAndKeepLeft oneClipTracks [mkSelected 1%nat 1%nat] 12)
  = oneClipTracks /\
  out_selected (handleSplitAndKeepLeft oneClipTracks [mkSelected 1%nat 1%nat] 12)
  = [mkSelected 1%nat 1%nat].
Proof.
  apply (proj1 (reported_errors_change_nothing oneClipTracks
                  [mkSelected 1%nat 1%nat] 12 true)).
  discriminate.
Defined.

(** ** The labels of the ruler *)

Lemma Qfloor_div_pos (d : Q) (k : positive) :
  Qfloor (d / inject_Z (Zpos k)) = (Qfloor d / Zpos k)%Z.
Proof.
  destruct d as [n p]. unfold Qdiv, Qmult, Qinv, Qfloor, inject_Z. cbn.
  rewrite Z.mul_1_r, Pos2Z.inj_mul. symmetry. apply Z.div_div; lia.
Qed.

Lemma jsRemainder_nonneg (d : Q) (k : positive) :
  0 <= d ->
  jsRemainder d (inject_Z (Zpos k))
  == d - inject_Z (Zpos k * (Qfloor d / Zpos k)) /\
  Qfloor (jsRemainder d (inject_Z (Zpos k))) = (Qfloor d mod Zpos k)%Z.
Proof.
  intro Hd. unfold jsRemainder.
  assert (Hq : 0 <= d / inject_Z (Zpos k)).
  { unfold Qdiv. apply Qmult_le_0_compat; [exact Hd|].
    apply Qinv_le_0_compat. discriminate. }
  rewrite (Qtruncate_nonneg _ Hq), Qfloor_div_pos.
  assert (He : d - inject_Z (Zpos k) * inject_Z (Qfloor d / Zpos k)
               == d - inject_Z (Zpos k * (Qfloor d / Zpos k)))
    by (rewrite inject_Z_mult; reflexivity).
  split; [exact He|].
  rewrite He, Qfloor_minus_Z, Z.mod_eq by lia. reflexivity.
Qed.

Lemma padStart2_twoDigits_Z (n : Z) :
  (0 <= n < 60)%Z -> padStart2 (toString n) = twoDigits n.
Proof.
  intro H. rewrite <- (Z2Nat.id n) by lia. apply padStart2_twoDigits. lia.
Qed.

(** The label of a marker at a time that is not negative, from its whole
    seconds, once the time has reached a minute. *)
Lemma formatTime_whole_seconds (interval seconds : Q) :
  60 <= seconds ->
  formatTime interval seconds
  = if (0 <? Qfloor seconds / 3600)%Z
    then (toString (Qfloor seconds / 3600) ++ ":"
          ++ twoDigits (Qfloor seconds mod 3600 / 60) ++ ":"
          ++ twoDigits (Qfloor seconds mod 60))%string
    else (toString (Qfloor seconds mod 3600 / 60) ++ ":"
          ++ twoDigits (Qfloor seconds mod 60))%string.
Proof.
  intro H60. assert (Hd : 0 <= seconds) by lra.
  unfold formatTime. cbv zeta.
  change 3600 with (inject_Z (Zpos 3600)). change 60 with (inject_Z (Zpos 60)).
  destruct (jsRemainder_nonneg seconds 3600 Hd) as [Hr3600 Hf3600].
  destruct (jsRemainder_nonneg seconds 60 Hd) as [_ Hf60].
  rewrite Qfloor_div_pos, Qfloor_div_pos, Hf3600, Hf60.
  assert (HF : (60 <= Qfloor seconds)%Z).
  { change 60%Z with (Qfloor (inject_Z 60)). apply Qfloor_resp_le.
    exact H60. }
  pose proof (Z.mod_pos_bound (Qfloor seconds) 3600 ltac:(lia)) as Hm.
  pose proof (Z.mod_pos_bound (Qfloor seconds) 60 ltac:(lia)) as Hs.
  assert (Hmin : (0 <= Qfloor seconds mod 3600 / 60 < 60)%Z).
  { split; [apply Z.div_pos; lia | apply Z.div_lt_upper_bound; lia]. }
  rewrite (padStart2_twoDigits_Z _ Hs).
  destruct (0 <? Qfloor seconds / 3600)%Z eqn:Eh.
  - now rewrite (padStart2_twoDigits_Z _ Hmin).
  - apply Z.ltb_ge in Eh.
    assert (Hlt : (Qfloor seconds < 3600)%Z).
    { destruct (Z_lt_le_dec (Qfloor seconds) 3600) as [Hl | Hl]; [exact Hl|].
      pose proof (Z.div_le_mono 3600 (Qfloor seconds) 3600 ltac:(lia) Hl) as Hc.
      rewrite Z.div_same in Hc by lia. lia. }
    rewrite (Z.mod_small (Qfloor seconds) 3600) by lia.
    assert (Hpos : (0 <? Qfloor seconds / 60)%Z = true).
    { apply Z.ltb_lt. apply Z.div_str_pos. lia. }
    now rewrite Hpos.
Qed.

(** X18. From one minute on, the label of a ruler marker shows whole
    seconds only: it is the label of the time rounded down to a whole
    second, whatever the marker interval. So when the markers are 0.1 s or
    0.5 s apart, the markers within one second all carry the same label
    once the timeline passes a minute. The label is [h:mm:ss] from an hour
    on and [m:ss] below, minutes and seconds under 60 and with two
    digits. *)
Theorem ruler_label_shows_whole_seconds (interval interval' seconds : Q) :
  60 <= seconds ->
  formatTime interval seconds
  = formatTime interval' (inject_Z (Qfloor seconds)) /\
  (seconds < 3600 ->
   formatTime interval seconds
   = (toString (Qfloor seconds / 60) ++ ":"
      ++ twoDigits (Qfloor seconds mod 60))%string) /\
  (3600 <= seconds ->
   formatTime interval seconds
   = (toString (Qfloor seconds / 3600) ++ ":"
      ++ twoDigits (Qfloor seconds mod 3600 / 60) ++ ":"
      ++ twoDigits (Qfloor seconds mod 60))%string).
Proof.
  intro H60.
  assert (HF : (60 <= Qfloor seconds)%Z).
  { change 60%Z with (Qfloor (inject_Z 60)). apply Qfloor_resp_le. exact H60. }
  split; [|split].
  - rewrite (formatTime_whole_seconds interval seconds H60).
    rewrite (formatTime_whole_seconds interval' (inject_Z (Qfloor seconds))).
    + now rewrite Qfloor_Z.
    + change 60 with (inject_Z 60). rewrite <- Zle_Qle. exact HF.
  - intro Hlt. rewrite (formatTime_whole_seconds interval seconds H60).
    assert (Hz : (Qfloor seconds < 3600)%Z).
    { rewrite Zlt_Qlt. pose proof (Qfloor_le seconds).
      change (inject_Z 3600) with 3600. lra. }
    rewrite (Z.div_small (Qfloor seconds) 3600) by lia.
    rewrite (Z.mod_small (Qfloor seconds) 3600) by lia. reflexivity.
  - intro Hge. rewrite (formatTime_whole_seconds interval seconds H60).
    assert (Hz : (3600 <= Qfloor seconds)%Z).
    { change 3600%Z with (Qfloor (inject_Z 3600)). apply Qfloor_resp_le.
      exact Hge. }
    assert (Hpos : (0 <? Qfloor seconds / 3600)%Z = true).
    { apply Z.ltb_lt. apply Z.div_str_pos. lia. }
    now rewrite Hpos.
Qed.

Lemma ruler_label_shows_whole_seconds_witness :
  formatTime (1 # 2) (121 # 2) = formatTime 1 (inject_Z (Qfloor (121 # 2))) /\
  (121 # 2 < 3600 ->
   formatTime (1 # 2) (121 # 2)
   = (toString (Qfloor (121 # 2) / 60) ++ ":"
      ++ twoDigits (Qfloor (121 # 2) mod 60))%string) /\
  (3600 <= 121 # 2 ->
   formatTime (1 # 2) (121 # 2)
   = (toString (Qfloor (121 # 2) / 3600) ++ ":"
      ++ twoDigits (Qfloor (121 # 2) mod 3600 / 60) ++ ":"
      ++ twoDigits (Qfloor (121 # 2) mod 60))%string).
Proof.
  apply (ruler_label_shows_whole_seconds (1 # 2) 1 (121 # 2)). discriminate.
Defined.

Example formatTime_examples :
  formatTime (1 # 2) 60 = "1:00"%string /\
  formatTime (1 # 2) (121 # 2) = "1:00"%string /\
  formatTime 1 3725 = "1:02:05"%string /\
  formatTime 1 7 = "7s"%string /\
  formatTime (1 # 10) (3 # 10) = "0.3s"%string.
Proof. repeat split. Qed.
